(** * rm_radar: robot assembly, locator and tracker

    A shallow embedding of the perception core of the radar station
    (robot/robot.cpp, locate/locate.cpp, track/tracker.cpp) together with
    the properties its specification states about it.

    Number model.  The C++ code computes on [float].  Values that are only
    added, compared, divided and truncated are embedded as rationals [Q]
    (exact arithmetic, no rounding, no NaN or infinity); the matching score,
    which needs [exp] and [sqrt], is embedded over the reals [R].  *)

From Stdlib Require Import ZArith QArith Qround Qabs Qreals Reals Lra Lia List Bool.
From stdpp Require Import base option list gmap.

Local Open Scope Z_scope.

(** ** Shared numeric helpers *)

(** [a < b] on floats, as a boolean. *)
Definition Qltb (a b : Q) : bool := negb (Qle_bool b a).

(** Conversion float -> int of C++: truncation toward zero. *)
Definition Qtrunc (q : Q) : Z := Z.quot (Qnum q) (Zpos (Qden q)).

(** Sum of a float sequence, left to right from 0. *)
Definition Qsum (l : list Q) : Q := fold_left Qplus l 0%Q.

(** Modelled from the spec: the helper [iszero] of robot.h is not part of the
    sources; the specification reads it as the test "is zero". *)
Definition iszero (x : Q) : bool := Qeq_bool x 0.

(** ** Data model *)

Module Detection.
(** [struct Detection { float x, y, width, height; int label; float confidence; }] *)
Record t := mk {
  x : Q;
  y : Q;
  width : Q;
  height : Q;
  label : Z;
  confidence : Q
}.
End Detection.
Abbreviation Detection := Detection.t.

(** [cv::Rect2f] *)
Record Rect2f := mkRect2f { rx : Q; ry : Q; rwidth : Q; rheight : Q }.

(** [cv::Point3f] *)
Record Point3f := mkPoint3f { px : Q; py : Q; pz : Q }.

Inductive TrackState := Confirmed | Tentative | Deleted.

Definition TrackState_eqb (a b : TrackState) : bool :=
  match a, b with
  | Confirmed, Confirmed | Tentative, Tentative | Deleted, Deleted => true
  | _, _ => false
  end.

(** A call either returns a value or ends the program: an exception that
    leaves a [noexcept] function, a failed assertion or an access outside a
    container. *)
Inductive outcome (A : Type) :=
| Returns (a : A)
| Terminates.
Arguments Returns {A} a.
Arguments Terminates {A}.

Definition obind {A B} (o : outcome A) (k : A -> outcome B) : outcome B :=
  match o with
  | Returns a => k a
  | Terminates => Terminates
  end.

(** ** Track (track/track.h)

    The class [Track] is declared in a header that is not among the sources.
    Its filter (Singer-model EKF plus feature store) is taken as an
    interface; the counters and the state are the members that
    [Tracker::update] reads and writes. *)

Class TrackFilter (F : Type) := {
  (** [Track::predict(timestamp)] *)
  filter_predict : F -> Z -> F;
  (** [Track::update(location, feature)] *)
  filter_update : F -> Point3f -> list Q -> F;
  (** the filter part of the constructor
      [Track(location, feature, timestamp, id, max_acc, tau, noise)] *)
  filter_init : Point3f -> list Q -> Z -> Q -> Q -> Point3f -> F;
  (** [Track::location()] *)
  filter_location : F -> Point3f;
  (** [Track::label()] *)
  filter_label : F -> Z;
  (** [Track::feature()] *)
  filter_feature : F -> list Q
}.

Record Track (F : Type) := mkTrack {
  track_id_ : Z;
  state_ : TrackState;
  init_count_ : Z;
  miss_count_ : Z;
  ekf_ : F
}.
Arguments mkTrack {F}.
Arguments track_id_ {F}.
Arguments state_ {F}.
Arguments init_count_ {F}.
Arguments miss_count_ {F}.
Arguments ekf_ {F}.

Section TrackOps.
Context {F : Type} `{TrackFilter F}.

Definition isConfirmed (t : Track F) : bool := TrackState_eqb (state_ t) Confirmed.
Definition isTentative (t : Track F) : bool := TrackState_eqb (state_ t) Tentative.
Definition isDeleted (t : Track F) : bool := TrackState_eqb (state_ t) Deleted.

Definition setState (s : TrackState) (t : Track F) : Track F :=
  mkTrack (track_id_ t) s (init_count_ t) (miss_count_ t) (ekf_ t).

Definition track_label (t : Track F) : Z := filter_label (ekf_ t).
Definition track_location (t : Track F) : Point3f := filter_location (ekf_ t).
Definition track_feature (t : Track F) : list Q := filter_feature (ekf_ t).

Definition track_predict (timestamp : Z) (t : Track F) : Track F :=
  mkTrack (track_id_ t) (state_ t) (init_count_ t) (miss_count_ t)
          (filter_predict (ekf_ t) timestamp).

Definition track_update (loc : Point3f) (feat : list Q) (t : Track F) : Track F :=
  mkTrack (track_id_ t) (state_ t) (init_count_ t) (miss_count_ t)
          (filter_update (ekf_ t) loc feat).

(** Modelled from the spec: the constructor of [Track] is not among the
    sources; a new track is Tentative with both counters at zero. *)
Definition track_new (loc : Point3f) (feat : list Q) (timestamp id : Z)
           (max_acc tau : Q) (noise : Point3f) : Track F :=
  mkTrack id Tentative 0 0 (filter_init loc feat timestamp max_acc tau noise).
End TrackOps.

(** ** Robot (robot/robot.cpp) *)

Record Robot := mkRobot {
  rect_ : option Rect2f;
  label_ : option Z;
  confidence_ : option Q;
  armors_ : option (list Detection);
  location_ : option Point3f;
  track_state_ : option TrackState
}.

(** A default-constructed robot: every optional member is empty. *)
Definition Robot_empty : Robot := mkRobot None None None None None None.

(** Modelled from the spec: robot.h is not among the sources;
    [isDetected() <=> label.present] and [isLocated() <=> location.present]. *)
Definition isDetected (r : Robot) : bool := bool_decide (is_Some (label_ r)).
Definition isLocated (r : Robot) : bool := bool_decide (is_Some (location_ r)).

Module ScoreMap.
(** [std::map<int, float>]: entries kept in increasing key order. *)
Definition t := list (Z * Q).

(** [m[k] += c]; a missing key is first inserted with value [0.0f]. *)
Fixpoint add (k : Z) (c : Q) (m : t) : t :=
  match m with
  | [] => [(k, (0 + c)%Q)]
  | (k', v) :: m' =>
      if k <? k' then (k, (0 + c)%Q) :: m
      else if k =? k' then (k', (v + c)%Q) :: m'
      else (k', v) :: add k c m'
  end.

Fixpoint find (k : Z) (m : t) : option Q :=
  match m with
  | [] => None
  | (k', v) :: m' => if k =? k' then Some v else find k m'
  end.

(** The scan of [std::max_element] with comparator
    [a.second < b.second]: the running best is replaced only by a
    strictly larger entry, so the first maximum in key order wins. *)
Fixpoint max_from (best : Z * Q) (m : t) : Z * Q :=
  match m with
  | [] => best
  | p :: m' => max_from (if Qltb (snd best) (snd p) then p else best) m'
  end.

Definition max_element (m : t) : option (Z * Q) :=
  match m with
  | [] => None
  | p :: m' => Some (max_from p m')
  end.
End ScoreMap.

Definition count_label (l : Z) (armors : list Detection) : Z :=
  Z.of_nat (length (filter (fun a => Detection.label a = l) armors)).

Definition shift_armor (car a : Detection) : Detection :=
  Detection.mk (Detection.x a + Detection.x car)%Q
               (Detection.y a + Detection.y car)%Q
               (Detection.width a) (Detection.height a)
               (Detection.label a) (Detection.confidence a).

Definition score_map_of (armors : list Detection) : ScoreMap.t :=
  fold_left (fun m a => ScoreMap.add (Detection.label a) (Detection.confidence a) m)
            armors [].

Definition car_rect (car : Detection) : Rect2f :=
  mkRect2f (Detection.x car) (Detection.y car)
           (Detection.width car) (Detection.height car).

(** [Robot::setDetection] *)
Definition setDetection (car : Detection) (armors : list Detection) (r : Robot) : Robot :=
  let rect := Some (car_rect car) in
  match armors with
  | [] =>
      mkRobot rect (label_ r) (confidence_ r) (armors_ r) (location_ r) (track_state_ r)
  | _ :: _ =>
      match ScoreMap.max_element (score_map_of armors) with
      | Some (label, confidence) =>
          let confidence := (confidence / inject_Z (count_label label armors))%Q in
          mkRobot rect (Some label) (Some confidence)
                  (Some (map (shift_armor car) armors))
                  (location_ r) (track_state_ r)
      | None =>
          (* not reached: the score map of a non-empty list is non-empty *)
          mkRobot rect (label_ r) (confidence_ r) (armors_ r) (location_ r) (track_state_ r)
      end
  end.

(** [Robot::Robot(car, armors)] *)
Definition Robot_new (car : Detection) (armors : list Detection) : Robot :=
  setDetection car armors Robot_empty.

(** [Robot::setLocation] *)
Definition setLocation (p : Point3f) (r : Robot) : Robot :=
  mkRobot (rect_ r) (label_ r) (confidence_ r) (armors_ r) (Some p) (track_state_ r).

(** [Robot::setTrack] *)
Definition setTrack {F} `{TrackFilter F} (track : Track F) (r : Robot) : Robot :=
  let track_state := Some (state_ track) in
  if isConfirmed track then
    mkRobot (rect_ r) (Some (track_label track)) (confidence_ r) (armors_ r)
            (Some (track_location track)) track_state
  else
    let label := match label_ r with
                 | Some l => Some l
                 | None => Some (track_label track)
                 end in
    let location := match location_ r with
                    | Some p => Some p
                    | None => Some (track_location track)
                    end in
    mkRobot (rect_ r) label (confidence_ r) (armors_ r) location track_state.

(** [feature(i) += c] on an [Eigen::VectorXf]; an index outside the vector
    is an access outside the container. *)
Definition vec_add_at (i : Z) (c : Q) (v : list Q) : option (list Q) :=
  if i <? 0 then None
  else match v !! Z.to_nat i with
       | Some a => Some (<[Z.to_nat i := (a + c)%Q]> v)
       | None => None
       end.

Fixpoint accumulate_armors (armors : list Detection) (v : list Q) : option (list Q) :=
  match armors with
  | [] => Some v
  | a :: rest =>
      match vec_add_at (Detection.label a) (Detection.confidence a) v with
      | Some v' => accumulate_armors rest v'
      | None => None
      end
  end.

(** [Robot::feature].  [armors_.value()] on an empty optional throws inside a
    [noexcept] function. *)
Definition feature (class_num : Z) (r : Robot) : outcome (list Q) :=
  if class_num <? 0 then Terminates else
  let feature := repeat 0%Q (Z.to_nat class_num) in
  if negb (isDetected r) then Returns feature
  else
    match armors_ r with
    | None => Terminates
    | Some armors =>
        match accumulate_armors armors feature with
        | None => Terminates
        | Some feature =>
            let sum := Qsum feature in
            if iszero sum then Returns feature
            else Returns (map (fun e => (e / sum)%Q) feature)
        end
    end.

(** ** Locator (locate/locate.cpp) *)

(** *** Small matrices ([cv::Matx]) as lists of rows *)

Definition Vec := list Q.
Definition Matx := list (list Q).

Definition dot (a b : Vec) : Q := Qsum (zip_with Qmult a b).
Definition mat_vec (m : Matx) (v : Vec) : Vec := map (fun row => dot row v) m.
Definition column (j : nat) (m : Matx) : Vec := map (fun row => nth j row 0%Q) m.
Definition mat_mul (a b : Matx) : Matx :=
  map (fun row => map (fun j => dot row (column j b)) (seq 0 (length (hd [] b)))) a.
Definition mat_scale (m : Matx) (s : Q) : Matx := map (map (fun e => (e * s)%Q)) m.
Definition vec_plus (a b : Vec) : Vec := zip_with Qplus a b.
Definition at_ (v : Vec) (i : nat) : Q := nth i v 0%Q.

(** [cv::Rect]: integer rectangle. *)
Record Rect := mkRect { x_ : Z; y_ : Z; width_ : Z; height_ : Z }.

(** [saturate_cast<int>(float)] of OpenCV, used by the conversion
    [cv::Rect2f -> cv::Rect]: round to nearest, ties to even. *)
Definition cvRound (q : Q) : Z :=
  let f := Qfloor q in
  let r := (q - inject_Z f)%Q in
  if Qltb r (1#2) then f
  else if Qltb (1#2) r then f + 1
  else if Z.even f then f else f + 1.

Definition Rect_of_Rect2f (r : Rect2f) : Rect :=
  mkRect (cvRound (rx r)) (cvRound (ry r)) (cvRound (rwidth r)) (cvRound (rheight r)).

(** [a &= b] on [cv::Rect]: the intersection, the null rectangle when it
    is empty. *)
Definition Rect_inter (a b : Rect) : Rect :=
  let x1 := Z.max (x_ a) (x_ b) in
  let y1 := Z.max (y_ a) (y_ b) in
  let w := Z.min (x_ a + width_ a) (x_ b + width_ b) - x1 in
  let h := Z.min (y_ a + height_ a) (y_ b + height_ b) - y1 in
  if (w <=? 0) || (h <=? 0) then mkRect 0 0 0 0 else mkRect x1 y1 w h.

(** [cv::Mat] of type [CV_32F], addressed by row and column. *)
Definition Mat := Z -> Z -> Q.

Definition Mat_zero : Mat := fun _ _ => 0%Q.

(** [m.at<float>(row, col) = d] *)
Definition Mat_set (m : Mat) (row col : Z) (d : Q) : Mat :=
  fun r c => if (r =? row) && (c =? col) then d else m r c.

(** [map.emplace(k, v)]: inserts only when the key is new. *)
Definition emplace `{Countable K} {V} (k : K) (v : V) (m : gmap K V) : gmap K V :=
  match m !! k with
  | Some _ => m
  | None => <[k := v]> m
  end.

Module Candidates.
(** [std::map<int, std::vector<cv::Point3f>>], keys increasing. *)
Definition t := list (Z * list Point3f).

(** [m[k].emplace_back(p)] *)
Fixpoint push (k : Z) (p : Point3f) (m : t) : t :=
  match m with
  | [] => [(k, [p])]
  | (k', v) :: m' =>
      if k <? k' then (k, [p]) :: m
      else if k =? k' then (k', v ++ [p]) :: m'
      else (k', v) :: push k p m'
  end.

(** [std::ranges::max_element] comparing the sizes of the vectors. *)
Fixpoint max_from (best : Z * list Point3f) (m : t) : Z * list Point3f :=
  match m with
  | [] => best
  | q :: m' =>
      max_from (if (length (snd best) <? length (snd q))%nat then q else best) m'
  end.
End Candidates.

Record Params := mkParams {
  image_width_ : Z;
  image_height_ : Z;
  zoom_factor_ : Q;
  image_width_zoomed_ : Z;
  image_height_zoomed_ : Z;
  queue_size_ : Z;
  intrinsic_ : Matx;
  intrinsic_inv_ : Matx;
  lidar_to_camera_transform_ : Matx;
  camera_to_lidar_rotate_ : Matx;
  camera_to_lidar_translate_ : Vec;
  camera_to_world_transform_ : Matx;
  min_depth_diff_ : Q;
  max_depth_diff_ : Q;
  max_distance_ : Q
}.

Record Locator := mkLocator {
  params : Params;
  depth_image_ : Mat;
  background_depth_image_ : Mat;
  diff_depth_image_ : Mat;
  depth_images_ : list Mat;
  cloud_foreground_ : list Point3f;
  clusters_ : list (list Z);
  point_index_map_ : gmap (Z * Z) Z;
  index_cluster_map_ : gmap Z Z
}.

Section LocatorOps.
(** [pcl::EuclideanClusterExtraction::extract]: the clusters of the
    foreground cloud, each a list of point indices. *)
Variable extract : list Point3f -> list (list Z).

Definition lidarToWorld (P : Params) (point : Point3f) : Point3f :=
  let lidar_coor := [px point; py point; pz point; 1%Q] in
  let world_coor :=
    mat_vec (mat_mul (camera_to_world_transform_ P) (lidar_to_camera_transform_ P))
            lidar_coor in
  mkPoint3f (at_ world_coor 0) (at_ world_coor 1) (at_ world_coor 2).

Definition cameraToLidar (P : Params) (point : Point3f) : Point3f :=
  let camera_coor :=
    [(px point / zoom_factor_ P)%Q; (py point / zoom_factor_ P)%Q; 1%Q] in
  let lidar_coor :=
    mat_vec (camera_to_lidar_rotate_ P)
            (vec_plus (mat_vec (mat_scale (intrinsic_inv_ P) (pz point)) camera_coor)
                      (camera_to_lidar_translate_ P)) in
  mkPoint3f (at_ lidar_coor 0) (at_ lidar_coor 1) (at_ lidar_coor 2).

Definition lidarToCamera (P : Params) (point : Point3f) : Point3f :=
  let lidar_coor := [px point; py point; pz point; 1%Q] in
  let camera_coor :=
    mat_vec (intrinsic_ P)
            (take 3 (mat_vec (lidar_to_camera_transform_ P) lidar_coor)) in
  mkPoint3f (at_ camera_coor 0 * zoom_factor_ P / at_ camera_coor 2)%Q
            (at_ camera_coor 1 * zoom_factor_ P / at_ camera_coor 2)%Q
            (at_ camera_coor 2).

(** [Locator::zoom] *)
Definition zoom (P : Params) (rect : Rect) : Rect :=
  let image_rect := mkRect 0 0 (image_width_zoomed_ P) (image_height_zoomed_ P) in
  let z := zoom_factor_ P in
  let center_x := (inject_Z (x_ rect) * z + inject_Z (width_ rect) * z * (1#2))%Q in
  let center_y := (inject_Z (y_ rect) * z + inject_Z (height_ rect) * z * (1#2))%Q in
  let ret_width := Qtrunc (inject_Z (width_ rect) * z) in
  let ret_height := Qtrunc (inject_Z (height_ rect) * z) in
  let ret_x := Qtrunc (center_x - inject_Z ret_width * (1#2)) in
  let ret_y := Qtrunc (center_y - inject_Z ret_height * (1#2)) in
  Rect_inter (mkRect ret_x ret_y ret_width ret_height) image_rect.

(** The body of the loop over the cloud in [Locator::update], up to the
    bounds test: the pixel (row, column) and the depth that the point is
    written at, or nothing when the point is skipped.  [lidarToCamera]
    divides by the camera depth of the point; the properties about where
    [update] writes are stated for clouds without a point of camera depth
    zero. *)
Definition project_point (P : Params) (point : Point3f) : option (Z * Z * Q) :=
  if iszero (px point) && iszero (py point) && iszero (pz point) then None
  else if Qltb (max_distance_ P) (px point) then None
  else
    let uvd := lidarToCamera P point in
    let u := px uvd in
    let v := py uvd in
    let d := pz uvd in
    if Qltb u 0 || Qltb (inject_Z (image_width_zoomed_ P)) u ||
       Qltb v 0 || Qltb (inject_Z (image_height_zoomed_ P)) v
    then None
    else Some (Qtrunc v, Qtrunc u, d).

(** The two images that the loop over the cloud writes. *)
Definition write_point (P : Params) (imgs : Mat * Mat) (point : Point3f) : Mat * Mat :=
  let '(background, depth) := imgs in
  match project_point P point with
  | None => imgs
  | Some (row, col, d) =>
      let background' :=
        if Qltb (background row col) d then Mat_set background row col d
        else background in
      (background', Mat_set depth row col d)
  end.

(** The pixels of an image in the order of the two nested loops. *)
Definition pixels (rows cols : Z) : list (Z * Z) :=
  i ← seqZ 0 rows; (fun j => (i, j)) <$> seqZ 0 cols.

(** One frame of the queue folded into the difference image. *)
Definition diff_frame (P : Params) (background : Mat) (diff image : Mat) : Mat :=
  fold_left
    (fun diff_image '(i, j) =>
       let value := image i j in
       if iszero value then diff_image
       else
         let diff := (background i j - value)%Q in
         if Qle_bool (min_depth_diff_ P) diff && Qle_bool diff (max_depth_diff_ P)
         then Mat_set diff_image i j value
         else diff_image)
    (pixels (image_height_zoomed_ P) (image_width_zoomed_ P)) diff.

(** [Locator::update]; [None] is the null pointer. *)
Definition update (cloud : option (list Point3f)) (L : Locator) : Locator :=
  let P := params L in
  let cleared :=
    mkLocator P Mat_zero (background_depth_image_ L) Mat_zero (depth_images_ L)
              (cloud_foreground_ L) (clusters_ L) (point_index_map_ L)
              (index_cluster_map_ L) in
  match cloud with
  | None => cleared
  | Some [] => cleared
  | Some points =>
      let '(background, depth) :=
        fold_left (write_point P) points (background_depth_image_ L, Mat_zero) in
      let pushed := depth_images_ L ++ [depth] in
      let queue :=
        if queue_size_ P <? Z.of_nat (length pushed) then tail pushed else pushed in
      let diff := fold_left (diff_frame P background) queue Mat_zero in
      mkLocator P depth background diff queue
                (cloud_foreground_ L) (clusters_ L) (point_index_map_ L)
                (index_cluster_map_ L)
  end.
End LocatorOps.

Section LocatorSearch.
Variable extract : list Point3f -> list (list Z).

(** The first loop of [Locator::cluster]: the foreground cloud and the
    pixel-to-index map, pixel by pixel. *)
Definition collect_pixel (P : Params) (diff : Mat)
           (acc : list Point3f * gmap (Z * Z) Z) (pixel : Z * Z)
  : list Point3f * gmap (Z * Z) Z :=
  let '(cloud, point_index_map) := acc in
  let '(i, j) := pixel in
  let value := diff i j in
  if iszero value then acc
  else
    let lidar_point := cameraToLidar P (mkPoint3f (inject_Z j) (inject_Z i) value) in
    let cloud' := cloud ++ [lidar_point] in
    (cloud', emplace (j, i) (Z.of_nat (length cloud') - 1) point_index_map).

Definition collect_foreground (P : Params) (diff : Mat)
  : list Point3f * gmap (Z * Z) Z :=
  fold_left (collect_pixel P diff)
            (pixels (image_height_zoomed_ P) (image_width_zoomed_ P)) ([], ∅).

(** The last loop of [Locator::cluster]. *)
Definition index_clusters (clusters : list (list Z)) : gmap Z Z :=
  fold_left
    (fun m '(i, indices) =>
       fold_left (fun m index => emplace index (Z.of_nat i) m) indices m)
    (imap (fun i c => (i, c)) clusters) ∅.

(** [Locator::cluster] *)
Definition cluster (L : Locator) : Locator :=
  let P := params L in
  let '(cloud, point_index_map) := collect_foreground P (diff_depth_image_ L) in
  match cloud with
  | [] =>
      mkLocator P (depth_image_ L) (background_depth_image_ L) (diff_depth_image_ L)
                (depth_images_ L) cloud [] point_index_map ∅
  | _ :: _ =>
      let clusters := extract cloud in
      mkLocator P (depth_image_ L) (background_depth_image_ L) (diff_depth_image_ L)
                (depth_images_ L) cloud clusters point_index_map
                (index_clusters clusters)
  end.

(** The pixels of a rectangle in the order of the loops of [search]:
    rows [v], then columns [u]. *)
Definition rect_pixels (rect : Rect) : list (Z * Z) :=
  v ← seqZ (y_ rect) (height_ rect);
  (fun u => (v, u)) <$> seqZ (x_ rect) (width_ rect).

(** The body of the loops of [search]; [point_index_map_.at] throws on a
    missing key. *)
Definition group_pixel (L : Locator) (acc : outcome Candidates.t) (pixel : Z * Z)
  : outcome Candidates.t :=
  obind acc (fun candidates =>
    let '(v, u) := pixel in
    let depth := diff_depth_image_ L v u in
    if iszero depth then Returns candidates
    else
      match point_index_map_ L !! (u, v) with
      | None => Terminates
      | Some index =>
          let cluster_id :=
            match index_cluster_map_ L !! index with
            | Some c => c
            | None => -1
            end in
          Returns (Candidates.push cluster_id
                     (cameraToLidar (params L)
                        (mkPoint3f (inject_Z u) (inject_Z v) depth))
                     candidates)
      end).

Definition group_points (L : Locator) (rect : Rect) : outcome Candidates.t :=
  fold_left (group_pixel L) (rect_pixels rect) (Returns []).

(** [std::accumulate(points, Point3f(0,0,0)) / float(points.size())] *)
Definition centroid (points : list Point3f) : Point3f :=
  let sum :=
    fold_left (fun s p => mkPoint3f (px s + px p) (py s + py p) (pz s + pz p))%Q
              points (mkPoint3f 0 0 0) in
  let n := inject_Z (Z.of_nat (length points)) in
  mkPoint3f (px sum / n)%Q (py sum / n)%Q (pz sum / n)%Q.

(** [Locator::search(Robot&)] *)
Definition search (L : Locator) (robot : Robot) : outcome Robot :=
  match rect_ robot with
  | None => Returns robot
  | Some r =>
      let rect := zoom (params L) (Rect_of_Rect2f r) in
      obind (group_points L rect) (fun candidates =>
        match candidates with
        | [] => Returns robot
        | first :: rest =>
            let points := snd (Candidates.max_from first rest) in
            let location := centroid points in
            Returns (setLocation (lidarToWorld (params L) location) robot)
        end)
  end.

(** [Locator::search(std::vector<Robot>&)] *)
Fixpoint search_all (L : Locator) (robots : list Robot) : outcome (list Robot) :=
  match robots with
  | [] => Returns []
  | r :: rest =>
      obind (search L r) (fun r' =>
        obind (search_all L rest) (fun rest' => Returns (r' :: rest')))
  end.
End LocatorSearch.

(** ** Tracker (track/tracker.cpp) *)

Record Tracker (F : Type) := mkTracker {
  class_num_ : Z;
  init_thresh_ : Z;
  miss_thresh_ : Z;
  max_acc_ : Q;
  tau_ : Q;
  distance_weight_ : Q;
  feature_weight_ : Q;
  measurement_noise_ : Point3f;
  max_iter_ : Z;
  distance_thresh_ : Q;
  latest_id_ : Z;
  tracks_ : list (Track F)
}.
Arguments mkTracker {F}.
Arguments class_num_ {F}.
Arguments init_thresh_ {F}.
Arguments miss_thresh_ {F}.
Arguments max_acc_ {F}.
Arguments tau_ {F}.
Arguments distance_weight_ {F}.
Arguments feature_weight_ {F}.
Arguments measurement_noise_ {F}.
Arguments max_iter_ {F}.
Arguments distance_thresh_ {F}.
Arguments latest_id_ {F}.
Arguments tracks_ {F}.

(** *** The matching score, over the reals *)

Section Cost.
Local Open Scope R_scope.

(** [Tracker::calculateDistance] *)
Definition calculateDistance (p1 p2 : Point3f) : R :=
  let x1 := Q2R (px p1) in let y1 := Q2R (py p1) in let z1 := Q2R (pz p1) in
  let x2 := Q2R (px p2) in let y2 := Q2R (py p2) in let z2 := Q2R (pz p2) in
  sqrt ((x1 - x2) * (x1 - x2) + (y1 - y2) * (y1 - y2) + (z1 - z2) * (z1 - z2)).

(** The conditional expression that [calculateCost] assigns to
    [distance_score] for a located robot. *)
Definition distance_score (distance_thresh distance : R) : R :=
  if Rlt_dec distance distance_thresh then 1
  else if Rlt_dec distance (2 * distance_thresh)
       then -1 / (2 * distance_thresh) * distance + 15 / 10
       else 5 / 10 * exp (2 - distance / distance_thresh).

Definition Rsum (l : list R) : R := fold_left Rplus l 0.
Definition Rdot (a b : list R) : R := Rsum (zip_with Rmult a b).
Definition Rnorm (a : list R) : R := sqrt (Rdot a a).

Context {F : Type} `{TrackFilter F}.

(** The value of the local [distance_score] of [calculateCost]. *)
Definition distance_score_of (T : Tracker F) (track : Track F) (robot : Robot) : R :=
  match location_ robot with
  | None => 0
  | Some location =>
      distance_score (Q2R (distance_thresh_ T))
                     (calculateDistance location (track_location track))
  end.

(** [Tracker::calculateCost]; the assertion on the two sizes ends the
    program when it fails. *)
Definition calculateCost (T : Tracker F) (track : Track F) (robot : Robot) : outcome R :=
  if negb (isLocated robot) && negb (isDetected robot) then Returns 0
  else
    let distance_score := distance_score_of T track robot in
    obind (feature (class_num_ T) robot) (fun feature_robot =>
      let feature_robot := map Q2R feature_robot in
      let feature_track := map Q2R (track_feature track) in
      if negb (length feature_robot =? length feature_track)%nat then Terminates
      else
        let feature_score :=
          Rdot feature_robot feature_track /
          (Rnorm feature_robot * Rnorm feature_track) in
        let feature_score := (feature_score + 1) / 2 in
        Returns (distance_score * Q2R (distance_weight_ T) +
                 feature_score * Q2R (feature_weight_ T))).
End Cost.

(** *** [Tracker::update] *)

Fixpoint sequence {A} (l : list (outcome A)) : outcome (list A) :=
  match l with
  | [] => Returns []
  | o :: rest => obind o (fun a => obind (sequence rest) (fun r => Returns (a :: r)))
  end.

(** [v.erase(v.begin() + index)]; a position outside the vector is an access
    outside the container. *)
Fixpoint erase_at (index : nat) (v : list Z) : outcome (list Z) :=
  match v, index with
  | [], _ => Terminates
  | _ :: rest, O => Returns rest
  | a :: rest, S i => obind (erase_at i rest) (fun r => Returns (a :: r))
  end.

Definition erase (index : Z) (v : list Z) : outcome (list Z) :=
  if index <? 0 then Terminates else erase_at (Z.to_nat index) v.

(** [std::sort(v.rbegin(), v.rend())]: the vector in decreasing order. *)
Fixpoint insert_desc (a : Z) (v : list Z) : list Z :=
  match v with
  | [] => [a]
  | b :: rest => if b <? a then a :: v else b :: insert_desc a rest
  end.

Definition sort_desc (v : list Z) : list Z := fold_right insert_desc [] v.

Section TrackerUpdate.
Context {F : Type} `{TrackFilter F}.

(** [auction.h] is not among the sources: the sentinel of an unmatched
    track and the assignment routine are parameters. *)
Variable kNotMatched : Z.
Variable auction : list (list R) -> Z -> list Z.

Definition set_miss_count (n : Z) (t : Track F) : Track F :=
  mkTrack (track_id_ t) (state_ t) (init_count_ t) n (ekf_ t).

Definition set_init_count (n : Z) (t : Track F) : Track F :=
  mkTrack (track_id_ t) (state_ t) n (miss_count_ t) (ekf_ t).

Definition cost_matrix (T : Tracker F) (tracks : list (Track F)) (robots : list Robot)
  : outcome (list (list R)) :=
  sequence (map (fun track => sequence (map (calculateCost T track) robots)) tracks).

(** The branch of an unmatched track. *)
Definition mark_missed (T : Tracker F) (track : Track F) : Track F :=
  if isTentative track then setState Deleted track
  else if isConfirmed track then
    let track := set_miss_count (miss_count_ track + 1) track in
    if miss_thresh_ T <=? miss_count_ track then setState Deleted track else track
  else track.

(** The branch of a track matched to a located robot. *)
Definition mark_matched (T : Tracker F) (location : Point3f) (feat : list Q)
           (track : Track F) : Track F :=
  let track := track_update location feat track in
  if isTentative track then
    let track := set_init_count (init_count_ track + 1) track in
    let track :=
      if init_thresh_ T <=? init_count_ track then setState Confirmed track
      else track in
    set_miss_count 0 track
  else track.

(** One turn of the loop over [match_result]. *)
Definition match_step (T : Tracker F)
           (st : list (Track F) * list Robot * list Z) (track_id : nat) (robot_id : Z)
  : outcome (list (Track F) * list Robot * list Z) :=
  let '(tracks, robots, matched_robot_indices) := st in
  match tracks !! track_id with
  | None => Terminates
  | Some track =>
      if robot_id =? kNotMatched then
        Returns (<[track_id := mark_missed T track]> tracks, robots,
                 matched_robot_indices)
      else if robot_id <? 0 then Terminates
      else
        match robots !! Z.to_nat robot_id with
        | None => Terminates
        | Some robot =>
            obind
              match location_ robot with
              | Some location =>
                  obind (feature (class_num_ T) robot) (fun feat =>
                    Returns (mark_matched T location feat track))
              | None => Returns track
              end
              (fun track =>
                 Returns (<[track_id := track]> tracks,
                          <[Z.to_nat robot_id := setTrack track robot]> robots,
                          matched_robot_indices ++ [robot_id]))
        end
  end.

Fixpoint match_loop (T : Tracker F) (track_id : nat) (match_result : list Z)
         (st : list (Track F) * list Robot * list Z)
  : outcome (list (Track F) * list Robot * list Z) :=
  match match_result with
  | [] => Returns st
  | robot_id :: rest =>
      obind (match_step T st track_id robot_id) (match_loop T (S track_id) rest)
  end.

(** The indices left after every matched index, taken in decreasing
    order, was erased from [0, 1, ..., n - 1]. *)
Fixpoint erase_all (matched : list Z) (unmatched : list Z) : outcome (list Z) :=
  match matched with
  | [] => Returns unmatched
  | index :: rest => obind (erase index unmatched) (erase_all rest)
  end.

(** One turn of the loop that starts tracks from unmatched robots. *)
Definition init_step (T : Tracker F) (timestamp : Z)
           (st : list (Track F) * list Robot * Z) (index : Z)
  : outcome (list (Track F) * list Robot * Z) :=
  let '(tracks, robots, latest_id) := st in
  match robots !! Z.to_nat index with
  | None => Terminates
  | Some robot =>
      match label_ robot, location_ robot with
      | Some _, Some location =>
          obind (feature (class_num_ T) robot) (fun feat =>
            let track :=
              track_new location feat timestamp latest_id (max_acc_ T) (tau_ T)
                        (measurement_noise_ T) in
            Returns (tracks ++ [track],
                     <[Z.to_nat index := setTrack track robot]> robots,
                     latest_id + 1))
      | _, _ => Returns st
      end
  end.

Fixpoint init_loop (T : Tracker F) (timestamp : Z) (unmatched : list Z)
         (st : list (Track F) * list Robot * Z)
  : outcome (list (Track F) * list Robot * Z) :=
  match unmatched with
  | [] => Returns st
  | index :: rest => obind (init_step T timestamp st index) (init_loop T timestamp rest)
  end.

(** [Tracker::update] from the assignment on: [tracks] are the predicted
    tracks and [match_result] the result of the auction. *)
Definition assign (T : Tracker F) (timestamp : Z) (tracks : list (Track F))
           (robots : list Robot) (match_result : list Z)
  : outcome (Tracker F * list Robot) :=
  obind (match_loop T 0 match_result (tracks, robots, [])) (fun '(tracks, robots, matched) =>
  obind (erase_all (sort_desc matched) (seqZ 0 (Z.of_nat (length robots))))
        (fun unmatched =>
  obind (init_loop T timestamp unmatched (tracks, robots, latest_id_ T))
        (fun '(tracks, robots, latest_id) =>
  let tracks := filter (fun track => isDeleted track = false) tracks in
  Returns (mkTracker (class_num_ T) (init_thresh_ T) (miss_thresh_ T) (max_acc_ T)
                     (tau_ T) (distance_weight_ T) (feature_weight_ T)
                     (measurement_noise_ T) (max_iter_ T) (distance_thresh_ T)
                     latest_id tracks,
           robots)))).

(** [Tracker::update] *)
Definition Tracker_update (T : Tracker F) (robots : list Robot) (timestamp : Z)
  : outcome (Tracker F * list Robot) :=
  let tracks := map (track_predict timestamp) (tracks_ T) in
  obind (cost_matrix T tracks robots) (fun cost =>
    assign T timestamp tracks robots (auction cost (max_iter_ T))).
End TrackerUpdate.

(** ** The earlier track class (track.cpp)

    The sources also hold the track of the earlier tracker, which counts the
    frames since the last update in [time_since_update].  Its Kalman state
    and feature rows play no part in the counters and are left out. *)

Module LegacyTrack.
Record t := mk {
  hits : Z;
  age : Z;
  time_since_update : Z;
  state : TrackState;
  _n_init : Z;
  _max_age : Z
}.

(** [Track::predit] *)
Definition predit (tr : t) : t :=
  mk (hits tr) (age tr + 1) (time_since_update tr + 1) (state tr)
     (_n_init tr) (_max_age tr).

(** [Track::update] *)
Definition update (tr : t) : t :=
  let hits' := hits tr + 1 in
  let state' :=
    if TrackState_eqb (state tr) Tentative && (_n_init tr <=? hits')
    then Confirmed else state tr in
  mk hits' (age tr) 0 state' (_n_init tr) (_max_age tr).

(** [Track::mark_missed] *)
Definition mark_missed (tr : t) : t :=
  if TrackState_eqb (state tr) Tentative
  then mk (hits tr) (age tr) (time_since_update tr) Deleted (_n_init tr) (_max_age tr)
  else if _max_age tr <? time_since_update tr
  then mk (hits tr) (age tr) (time_since_update tr) Deleted (_n_init tr) (_max_age tr)
  else tr.
End LegacyTrack.

(** ** Construction of the locator (locate.cpp, [Locator::Locator]) *)

Section LocatorConstruction.
(** [cv::Matx::inv] of OpenCV. *)
Variable inv : Matx -> Matx.
(** What [cv::Mat::create] leaves in the three images: it allocates them
    and does not fill them. *)
Variables depth background diff : Mat.

(** [get_minor<rows, cols>(i, j)] *)
Definition get_minor (rows cols i j : nat) (m : Matx) : Matx :=
  map (fun row => take cols (drop j row)) (take rows (drop i m)).

(** The constructor; the three cluster settings go to the PCL extractor
    and are part of [extract]. *)
Definition Locator_new (image_width image_height : Z)
           (intrinsic lidar_to_camera world_to_camera : Matx) (zoom_factor : Q)
           (queue_size : Z) (min_depth_diff max_depth_diff max_distance : Q)
  : Locator :=
  let camera_to_lidar := inv lidar_to_camera in
  mkLocator
    (mkParams image_width image_height zoom_factor
              (Qtrunc (inject_Z image_width * zoom_factor))
              (Qtrunc (inject_Z image_height * zoom_factor))
              queue_size intrinsic (inv intrinsic) lidar_to_camera
              (get_minor 3 3 0 0 camera_to_lidar)
              (column 0 (get_minor 3 1 0 3 camera_to_lidar))
              (inv world_to_camera) min_depth_diff max_depth_diff max_distance)
    depth background diff [] [] [] ∅ ∅.
End LocatorConstruction.

(** ** The pair hash of the earlier locator header (locator.h) *)

Section PairHashModel.
Context {T1 T2 : Type}.
(** [std::hash<T1>] and [std::hash<T2>], with [size_t] values. *)
Variable hash1 : T1 -> Z.
Variable hash2 : T2 -> Z.

(** [PairHash::operator()] *)
Definition PairHash (p : T1 * T2) : Z := Z.lxor (hash1 (fst p)) (hash2 (snd p)).
End PairHashModel.

(** ** The constructor of the earlier track class (track.cpp) *)

(** [Track::Track]: one hit on record, Tentative. *)
Definition LegacyTrack_new (n_init max_age : Z) : LegacyTrack.t :=
  LegacyTrack.mk 1 1 0 Tentative n_init max_age.

(** ** The loop over the cloud of [Locator::update], step by step

    The loop runs under [std::execution::par_unseq] and its body reads the
    background cell, compares, and writes in separate steps with no lock and
    no atomic.  Each point is a strand of three steps; a schedule names the
    strand that takes the next step. *)

Inductive point_state :=
| Fresh (point : Point3f)
  (** the body has not started *)
| Tested (row col : Z) (d : Q) (larger : bool)
  (** [d > background_depth] has been evaluated *)
| Stored (row col : Z) (d : Q)
  (** the background cell has been written, or left; [depth_image_] is next *)
| Finished.

Definition step_point (P : Params) (imgs : Mat * Mat) (s : point_state)
  : (Mat * Mat) * point_state :=
  match s with
  | Fresh point =>
      match project_point P point with
      | None => (imgs, Finished)
      | Some (row, col, d) => (imgs, Tested row col d (Qltb (fst imgs row col) d))
      end
  | Tested row col d larger =>
      ((if larger then Mat_set (fst imgs) row col d else fst imgs, snd imgs),
       Stored row col d)
  | Stored row col d => ((fst imgs, Mat_set (snd imgs) row col d), Finished)
  | Finished => (imgs, Finished)
  end.

Definition step_at (P : Params) (st : (Mat * Mat) * list point_state) (i : nat)
  : (Mat * Mat) * list point_state :=
  match snd st !! i with
  | None => st
  | Some s =>
      let '(imgs, s') := step_point P (fst st) s in
      (imgs, <[i := s']> (snd st))
  end.

Definition run (P : Params) (schedule : list nat) (st : (Mat * Mat) * list point_state)
  : (Mat * Mat) * list point_state :=
  fold_left (step_at P) schedule st.

(** The strands one after the other, each to its end. *)
Definition in_order (first n : nat) : list nat := i ← seq first n; [i; i; i].

(** The loop under a schedule; the loop ends when every strand has, so
    what the schedule leaves undone is run to its end. *)
Definition write_points_par (P : Params) (schedule : list nat) (points : list Point3f)
           (imgs : Mat * Mat) : Mat * Mat :=
  fst (run P (schedule ++ in_order 0 (length points)) (imgs, map Fresh points)).

(** [Locator::update] with the loop over the cloud under a schedule. *)
Definition update_par (schedule : list nat) (cloud : option (list Point3f)) (L : Locator)
  : Locator :=
  let P := params L in
  let cleared :=
    mkLocator P Mat_zero (background_depth_image_ L) Mat_zero (depth_images_ L)
              (cloud_foreground_ L) (clusters_ L) (point_index_map_ L)
              (index_cluster_map_ L) in
  match cloud with
  | None => cleared
  | Some [] => cleared
  | Some points =>
      let '(background, depth) :=
        write_points_par P schedule points (background_depth_image_ L, Mat_zero) in
      let pushed := depth_images_ L ++ [depth] in
      let queue :=
        if queue_size_ P <? Z.of_nat (length pushed) then tail pushed else pushed in
      let diff := fold_left (diff_frame P background) queue Mat_zero in
      mkLocator P depth background diff queue
                (cloud_foreground_ L) (clusters_ L) (point_index_map_ L)
                (index_cluster_map_ L)
  end.

(** * Properties *)

(** ** Numeric helpers *)

Lemma Qltb_lt a b : Qltb a b = true <-> (a < b)%Q.
Proof.
  unfold Qltb. rewrite negb_true_iff. split.
  - intros H. apply Qnot_le_lt. intros Hle.
    apply Qle_bool_iff in Hle. congruence.
  - intros H. destruct (Qle_bool b a) eqn:E; [|reflexivity].
    apply Qle_bool_iff in E. exfalso. exact (Qlt_not_le _ _ H E).
Qed.

Lemma Qltb_ge a b : Qltb a b = false <-> (b <= a)%Q.
Proof.
  unfold Qltb. rewrite negb_false_iff. apply Qle_bool_iff.
Qed.

Lemma iszero_true x : iszero x = true <-> (x == 0)%Q.
Proof. apply Qeq_bool_iff. Qed.

Lemma iszero_false x : iszero x = false <-> ~ (x == 0)%Q.
Proof.
  unfold iszero. split.
  - intros H E. apply Qeq_bool_iff in E. congruence.
  - intros H. destruct (Qeq_bool x 0) eqn:E; [|reflexivity].
    apply Qeq_bool_iff in E. contradiction.
Qed.

(** ** Properties of the robot entity *)

Section RobotTrack.
Context {F : Type} `{TrackFilter F}.

Lemma setTrack_keeps_detection (track : Track F) (r : Robot) :
  rect_ (setTrack track r) = rect_ r /\
  confidence_ (setTrack track r) = confidence_ r /\
  armors_ (setTrack track r) = armors_ r.
Proof. unfold setTrack. destruct (isConfirmed track); auto. Qed.

(** C3. [Robot::setTrack] copies the state of the track into the robot.
    A Confirmed track overwrites the label and the location of the robot,
    whatever they were.  A Tentative track gives its label (its location)
    to the robot only when the robot has no label (no location); a label
    or location that is present stays as it is. *)
Theorem setTrack_contract (track : Track F) (r : Robot) :
  track_state_ (setTrack track r) = Some (state_ track) /\
  match state_ track with
  | Confirmed =>
      label_ (setTrack track r) = Some (track_label track) /\
      location_ (setTrack track r) = Some (track_location track)
  | Tentative =>
      label_ (setTrack track r) =
        match label_ r with
        | Some l => Some l
        | None => Some (track_label track)
        end /\
      location_ (setTrack track r) =
        match location_ r with
        | Some p => Some p
        | None => Some (track_location track)
        end
  | Deleted => True
  end.
Proof.
  unfold setTrack, isConfirmed.
  destruct (state_ track) eqn:Hs; simpl; auto.
Qed.

Lemma setTrack_confirmed_overwrites (track : Track F) (r : Robot) :
  state_ track = Confirmed ->
  label_ (setTrack track r) = Some (track_label track) /\
  location_ (setTrack track r) = Some (track_location track).
Proof.
  intros Hs. unfold setTrack, isConfirmed. rewrite Hs. simpl. auto.
Qed.

Lemma setTrack_tentative_fills (track : Track F) (r : Robot) :
  state_ track = Tentative ->
  (forall l, label_ r = Some l -> label_ (setTrack track r) = Some l) /\
  (label_ r = None -> label_ (setTrack track r) = Some (track_label track)) /\
  (forall p, location_ r = Some p -> location_ (setTrack track r) = Some p) /\
  (location_ r = None ->
   location_ (setTrack track r) = Some (track_location track)).
Proof.
  intros Hs. unfold setTrack, isConfirmed. rewrite Hs. simpl.
  repeat split; intros; simpl; repeat match goal with
    | Heq : _ = _ |- _ => rewrite Heq
    end; reflexivity.
Qed.
End RobotTrack.

(** *** The score map *)

Module ScoreMapFacts.
Import ScoreMap.

(** Every key of [m] is above [k0]. *)
Definition above (k0 : Z) (m : t) : Prop := Forall (fun p => k0 < fst p) m.

Inductive sorted : t -> Prop :=
| sorted_nil : sorted []
| sorted_cons k v m : above k m -> sorted m -> sorted ((k, v) :: m).

Lemma above_weaken k0 k1 m : k0 <= k1 -> above k1 m -> above k0 m.
Proof.
  intros Hle Hab. unfold above in *.
  induction Hab; constructor; auto; lia.
Qed.

Lemma above_add k0 k c m : k0 < k -> above k0 m -> above k0 (add k c m).
Proof.
  intros Hk Hab. induction Hab as [|[k' v] m' Hp Hab IH]; simpl.
  - repeat constructor; simpl; lia.
  - simpl in Hp.
    destruct (k <? k') eqn:E1; [ | destruct (k =? k') eqn:E2].
    + constructor; simpl; [lia|]. constructor; simpl; auto.
    + constructor; simpl; auto.
    + constructor; simpl; auto.
Qed.

Lemma add_sorted k c m : sorted m -> sorted (add k c m).
Proof.
  induction 1 as [|k' v m' Hab Hs IH]; simpl.
  - repeat constructor.
  - destruct (k <? k') eqn:E1; [ | destruct (k =? k') eqn:E2].
    + apply Z.ltb_lt in E1. constructor.
      * constructor; simpl; [lia|].
        apply above_weaken with k'; [lia|exact Hab].
      * constructor; assumption.
    + constructor; assumption.
    + apply Z.ltb_ge in E1. apply Z.eqb_neq in E2.
      constructor; [|exact IH]. apply above_add; [lia|exact Hab].
Qed.

Lemma find_above k m : above k m -> find k m = None.
Proof.
  induction 1 as [|[k' v] m' Hp Hab IH]; simpl; [reflexivity|].
  simpl in Hp. destruct (k =? k') eqn:E; [|exact IH].
  apply Z.eqb_eq in E. lia.
Qed.

(** The value read at a key, [0] when the key is missing. *)
Definition value (k : Z) (m : t) : Q :=
  match find k m with Some v => v | None => 0%Q end.

Lemma find_add_same k c m :
  sorted m -> find k (add k c m) = Some (value k m + c)%Q.
Proof.
  unfold value.
  induction 1 as [|k' v m' Hab Hs IH]; simpl.
  - rewrite Z.eqb_refl. reflexivity.
  - destruct (k <? k') eqn:E1; [ | destruct (k =? k') eqn:E2]; simpl.
    + rewrite Z.eqb_refl. apply Z.ltb_lt in E1.
      assert ((k =? k') = false) as -> by (apply Z.eqb_neq; lia).
      rewrite find_above; [reflexivity|].
      apply above_weaken with k'; [lia|exact Hab].
    + rewrite E2. reflexivity.
    + rewrite E2. exact IH.
Qed.

Lemma find_add_other k k1 c m : k <> k1 -> find k (add k1 c m) = find k m.
Proof.
  intros Hne. induction m as [|[k' v] m' IH]; simpl.
  - assert ((k =? k1) = false) as -> by (apply Z.eqb_neq; lia). reflexivity.
  - destruct (k1 <? k') eqn:E1; [ | destruct (k1 =? k') eqn:E2]; simpl.
    + assert ((k =? k1) = false) as -> by (apply Z.eqb_neq; lia). reflexivity.
    + apply Z.eqb_eq in E2. subst k'.
      assert ((k =? k1) = false) as -> by (apply Z.eqb_neq; lia). reflexivity.
    + rewrite IH. reflexivity.
Qed.

Lemma find_In k v m : find k m = Some v -> In (k, v) m.
Proof.
  induction m as [|[k' v'] m' IH]; simpl; [discriminate|].
  destruct (k =? k') eqn:E.
  - apply Z.eqb_eq in E. subst k'. intros [= ->]. left; reflexivity.
  - intros Hf. right. exact (IH Hf).
Qed.

Lemma In_find k v m : sorted m -> In (k, v) m -> find k m = Some v.
Proof.
  induction 1 as [|k' v' m' Hab Hs IH]; simpl; [contradiction|].
  intros [Heq|Hin].
  - injection Heq as -> ->. rewrite Z.eqb_refl. reflexivity.
  - destruct (k =? k') eqn:E; [|exact (IH Hin)].
    apply Z.eqb_eq in E. subst k'. exfalso.
    unfold above in Hab. rewrite List.Forall_forall in Hab.
    specialize (Hab _ Hin). simpl in Hab. lia.
Qed.

(** The scan keeps the first entry of greatest value. *)
Lemma max_from_scan (m : t) : forall (best : Z * Q) (seen : t),
  sorted (best :: m) ->
  (forall q, In q seen ->
     (snd q <= snd best)%Q /\ ((snd q == snd best)%Q -> fst best <= fst q)) ->
  let res := max_from best m in
  In res (best :: m) /\
  (forall q, In q (seen ++ best :: m) ->
     (snd q <= snd res)%Q /\ ((snd q == snd res)%Q -> fst res <= fst q)).
Proof.
  induction m as [|p m' IH]; intros best seen Hsorted Hseen; simpl.
  - split; [left; reflexivity|].
    intros q Hq. apply in_app_or in Hq. destruct Hq as [Hq|[<-|[]]].
    + exact (Hseen q Hq).
    + split; [apply Qle_refl|lia].
  - inversion Hsorted as [|kb vb mm Hab Hs' Heq]; subst.
    inversion Hs' as [|kp vp mm' Habp Hs'' Heqp]; subst.
    inversion Hab as [|? ? Hbp Hab']; subst. simpl in Hbp.
    destruct (Qltb (snd (kb, vb)) (snd (kp, vp))) eqn:E; simpl in E.
    + apply Qltb_lt in E.
      destruct (IH (kp, vp) ((kb, vb) :: seen) Hs') as [Hin Hall].
      { intros q [<-|Hq]; simpl.
        - split; [apply Qlt_le_weak; exact E|].
          intros Heq. rewrite Heq in E. exfalso. exact (Qlt_irrefl _ E).
        - destruct (Hseen q Hq) as [Hle Htie]. simpl in *. split.
          + apply Qle_trans with vb; [exact Hle|apply Qlt_le_weak; exact E].
          + intros Heq. exfalso. rewrite Heq in Hle.
            exact (Qlt_not_le _ _ E Hle). }
      split; [right; exact Hin|].
      intros q Hq. apply Hall.
      rewrite in_app_iff in Hq |- *. simpl in Hq |- *. tauto.
    + apply Qltb_ge in E.
      destruct (IH (kb, vb) ((kp, vp) :: seen)) as [Hin Hall].
      { constructor; [exact Hab'|exact Hs'']. }
      { intros q [<-|Hq]; simpl.
        - split; [exact E|lia].
        - exact (Hseen q Hq). }
      split.
      { destruct Hin as [Hin|Hin]; [left; exact Hin|right; right; exact Hin]. }
      intros q Hq. apply Hall.
      rewrite in_app_iff in Hq |- *. simpl in Hq |- *. tauto.
Qed.
End ScoreMapFacts.

(** *** Robot assembly *)

(** The words of the specification: the sum of the confidences of the armors
    that carry label [l]. *)
Fixpoint label_score (l : Z) (armors : list Detection) : Q :=
  match armors with
  | [] => 0%Q
  | a :: rest =>
      if Detection.label a =? l
      then (Detection.confidence a + label_score l rest)%Q
      else label_score l rest
  end.

(** The words of the specification: the number of armors that carry
    label [l]. *)
Fixpoint label_count (l : Z) (armors : list Detection) : Z :=
  match armors with
  | [] => 0
  | a :: rest =>
      if Detection.label a =? l then 1 + label_count l rest else label_count l rest
  end.

Lemma count_label_count (l : Z) (armors : list Detection) :
  count_label l armors = label_count l armors.
Proof.
  unfold count_label. induction armors as [|a rest IH]; simpl; [reflexivity|].
  destruct (Detection.label a =? l) eqn:E.
  - apply Z.eqb_eq in E. rewrite filter_cons_True by exact E. simpl length.
    rewrite <- IH. lia.
  - apply Z.eqb_neq in E. rewrite filter_cons_False by exact E. exact IH.
Qed.

Section Assembly.
Import ScoreMap ScoreMapFacts.

Local Abbreviation step :=
  (fun (m : ScoreMap.t) (a : Detection) =>
     add (Detection.label a) (Detection.confidence a) m).

Lemma fold_add_sorted armors : forall m,
  sorted m -> sorted (fold_left step armors m).
Proof.
  induction armors as [|a rest IH]; intros m Hs; simpl; [exact Hs|].
  apply IH. apply add_sorted. exact Hs.
Qed.

Lemma value_add_same k c m : sorted m -> value k (add k c m) = (value k m + c)%Q.
Proof.
  intros Hs. unfold value at 1. rewrite find_add_same by exact Hs. reflexivity.
Qed.

Lemma value_add_other k k1 c m : k <> k1 -> value k (add k1 c m) = value k m.
Proof. intros Hne. unfold value. rewrite find_add_other by exact Hne. reflexivity. Qed.

(** What the loop over the armors leaves in the map at key [l]. *)
Lemma fold_add_value l armors : forall m,
  sorted m ->
  (value l (fold_left step armors m) == value l m + label_score l armors)%Q.
Proof.
  induction armors as [|a rest IH]; intros m Hs; simpl.
  - ring.
  - rewrite IH by (apply add_sorted; exact Hs).
    destruct (Detection.label a =? l) eqn:E.
    + apply Z.eqb_eq in E. subst l. rewrite value_add_same by exact Hs. ring.
    + apply Z.eqb_neq in E. rewrite value_add_other by congruence. reflexivity.
Qed.

Lemma fold_add_keys l armors : forall m,
  is_Some (find l (fold_left step armors m)) <->
  is_Some (find l m) \/ In l (map Detection.label armors).
Proof.
  induction armors as [|a rest IH]; intros m; simpl.
  - tauto.
  - rewrite IH. destruct (Z.eq_dec l (Detection.label a)) as [->|Hne].
    + split; [intros _; right; left; reflexivity|].
      intros _. left.
      clear. induction m as [|[k' v] m' IHm]; simpl.
      * rewrite Z.eqb_refl. eauto.
      * destruct (Detection.label a <? k') eqn:E1;
          [ | destruct (Detection.label a =? k') eqn:E2]; simpl.
        -- rewrite Z.eqb_refl. eauto.
        -- rewrite E2. eauto.
        -- rewrite E2. exact IHm.
    + rewrite find_add_other by exact Hne.
      split; [intros [Hm|Hin]; [left; exact Hm|right; right; exact Hin]|].
      intros [Hm|[Heq|Hin]]; [left; exact Hm|congruence|right; exact Hin].
Qed.

Lemma score_map_sorted armors : sorted (score_map_of armors).
Proof. apply fold_add_sorted. constructor. Qed.

Lemma score_map_entry l v armors :
  In (l, v) (score_map_of armors) ->
  In l (map Detection.label armors) /\ (v == label_score l armors)%Q.
Proof.
  intros Hin. apply In_find in Hin; [|apply score_map_sorted].
  split.
  - assert (is_Some (find l (score_map_of armors))) as Hs by eauto.
    apply fold_add_keys in Hs. destruct Hs as [[? Hs]|Hs]; [discriminate|exact Hs].
  - pose proof (fold_add_value l armors [] sorted_nil) as Hv.
    fold (score_map_of armors) in Hv. unfold value in Hv.
    rewrite Hin in Hv. simpl in Hv. rewrite Hv. ring.
Qed.

Lemma score_map_has l armors :
  In l (map Detection.label armors) ->
  exists v, In (l, v) (score_map_of armors).
Proof.
  intros Hin.
  assert (is_Some (find l (score_map_of armors))) as [v Hv].
  { apply fold_add_keys. right. exact Hin. }
  exists v. apply find_In. exact Hv.
Qed.

Lemma count_label_pos l armors :
  In l (map Detection.label armors) -> 0 < count_label l armors.
Proof.
  unfold count_label. induction armors as [|a rest IH]; simpl; [contradiction|].
  intros [Heq|Hin].
  - rewrite filter_cons_True by exact Heq. simpl. lia.
  - specialize (IH Hin). destruct (decide (Detection.label a = l)) as [Heq|Hne].
    + rewrite filter_cons_True by exact Heq. simpl. lia.
    + rewrite filter_cons_False by exact Hne. exact IH.
Qed.

(** The winner of the vote: its label occurs among the armors, no label
    has a larger score, and among the labels of equal score it is the
    smallest. *)
Definition is_winner (l : Z) (armors : list Detection) : Prop :=
  In l (map Detection.label armors) /\
  (forall l', In l' (map Detection.label armors) ->
     (label_score l' armors <= label_score l armors)%Q) /\
  (forall l', In l' (map Detection.label armors) ->
     (label_score l' armors == label_score l armors)%Q -> l <= l').

Lemma max_element_winner armors a0 rest :
  armors = a0 :: rest ->
  exists l v,
    max_element (score_map_of armors) = Some (l, v) /\
    (v == label_score l armors)%Q /\ is_winner l armors.
Proof.
  intros Harm.
  destruct (score_map_of armors) as [|p m] eqn:Hm.
  - exfalso. destruct (score_map_has (Detection.label a0) armors) as [v Hv].
    + rewrite Harm. left. reflexivity.
    + rewrite Hm in Hv. contradiction.
  - pose proof (score_map_sorted armors) as Hs. rewrite Hm in Hs.
    destruct (max_from_scan m p [] Hs) as [Hin Hall]; [intros q []|].
    change ([] ++ p :: m) with (p :: m) in Hall.
    destruct (max_from p m) as [l v] eqn:Hres.
    exists l, v. simpl. rewrite Hres. split; [reflexivity|].
    rewrite <- Hm in Hin, Hall.
    destruct (score_map_entry _ _ _ Hin) as [Hl Hv].
    split; [exact Hv|]. split; [exact Hl|]. split.
    + intros l' Hl'. destruct (score_map_has l' armors Hl') as [v' Hv'].
      destruct (score_map_entry _ _ _ Hv') as [_ Hev'].
      destruct (Hall _ Hv') as [Hle _]. simpl in Hle.
      rewrite <- Hev', <- Hv. exact Hle.
    + intros l' Hl' Htie. destruct (score_map_has l' armors Hl') as [v' Hv'].
      destruct (score_map_entry _ _ _ Hv') as [_ Hev'].
      destruct (Hall _ Hv') as [_ Hfirst]. simpl in Hfirst.
      apply Hfirst. rewrite Hev', Hv. exact Htie.
Qed.
End Assembly.

(** [setDetection] on any robot: with no armors only the rectangle changes. *)
Lemma setDetection_no_armors car r :
  setDetection car [] r =
  mkRobot (Some (car_rect car)) (label_ r) (confidence_ r) (armors_ r)
          (location_ r) (track_state_ r).
Proof. reflexivity. Qed.

(** C5. The robot assembled from a car detection and its armor detections
    has the rectangle of the car.  With at least one armor its label is the
    label of greatest summed confidence (the smallest such label on a tie),
    its confidence is that sum divided by the number of armors with the
    winning label, and its armors are the input armors with the top-left
    corner of the car added to their coordinates.  With no armor, label,
    confidence and armors are unset. *)
Theorem setDetection_assembles (car : Detection) (armors : list Detection) :
  let r := Robot_new car armors in
  rect_ r = Some (mkRect2f (Detection.x car) (Detection.y car)
                           (Detection.width car) (Detection.height car)) /\
  location_ r = None /\ track_state_ r = None /\
  match armors with
  | [] => label_ r = None /\ confidence_ r = None /\ armors_ r = None
  | _ :: _ =>
      exists l c,
        label_ r = Some l /\ confidence_ r = Some c /\
        is_winner l armors /\
        0 < label_count l armors /\
        (c == label_score l armors / inject_Z (label_count l armors))%Q /\
        armors_ r =
          Some (map (fun a =>
                       Detection.mk (Detection.x a + Detection.x car)%Q
                                    (Detection.y a + Detection.y car)%Q
                                    (Detection.width a) (Detection.height a)
                                    (Detection.label a) (Detection.confidence a))
                    armors)
  end.
Proof.
  destruct armors as [|a0 rest].
  - cbv zeta. unfold Robot_new. rewrite setDetection_no_armors. simpl.
    repeat split; reflexivity.
  - cbv zeta. destruct (max_element_winner (a0 :: rest) a0 rest eq_refl)
      as (l & v & Hmax & Hv & Hwin).
    unfold Robot_new, setDetection. rewrite Hmax.
    cbn [rect_ location_ track_state_ label_ confidence_ armors_ Robot_empty].
    repeat split; try reflexivity.
    exists l, (v / inject_Z (count_label l (a0 :: rest)))%Q.
    rewrite <- count_label_count.
    repeat split; try reflexivity; try apply Hwin.
    + apply count_label_pos. apply Hwin.
    + rewrite Hv. reflexivity.
Qed.

Example setDetection_vote :
  let a l c := Detection.mk 1 2 3 4 l c in
  let r := Robot_new (Detection.mk 10 20 30 40 0 1) [a 5 (4#10); a 3 (5#10); a 5 (3#10)] in
  label_ r = Some 5 /\
  (exists c, confidence_ r = Some c /\ (c == 35#100)%Q) /\
  armors_ r = Some [Detection.mk 11 22 3 4 5 (4#10); Detection.mk 11 22 3 4 3 (5#10);
                    Detection.mk 11 22 3 4 5 (3#10)].
Proof.
  vm_compute. repeat split. eexists. split; [reflexivity|]. reflexivity.
Qed.

(** *** The feature vector *)

Definition L1norm (v : list Q) : Q := Qsum (map Qabs v).

(** The armors of a robot, none when the optional is empty. *)
Definition armors_of (r : Robot) : list Detection :=
  match armors_ r with Some l => l | None => [] end.

(** Sum of all armor confidences of a robot. *)
Definition total_confidence (r : Robot) : Q :=
  Qsum (map Detection.confidence (armors_of r)).

Section FeatureFacts.

Lemma fold_Qplus_acc (l : list Q) : forall a,
  (fold_left Qplus l a == a + Qsum l)%Q.
Proof.
  unfold Qsum. induction l as [|x l IH]; intros a; simpl.
  - ring.
  - rewrite (IH (a + x)%Q), (IH (0 + x)%Q). ring.
Qed.

Lemma Qsum_cons x l : (Qsum (x :: l) == x + Qsum l)%Q.
Proof. unfold Qsum at 1. simpl. rewrite fold_Qplus_acc. ring. Qed.

Lemma Qsum_nil : Qsum [] = 0%Q.
Proof. reflexivity. Qed.

Lemma Qsum_repeat0 n : (Qsum (repeat 0%Q n) == 0)%Q.
Proof.
  induction n as [|n IH]; simpl; [reflexivity|].
  rewrite Qsum_cons, IH. ring.
Qed.

Lemma Qsum_insert (v : list Q) : forall (i : nat) a c,
  v !! i = Some a -> (Qsum (<[i := (a + c)%Q]> v) == Qsum v + c)%Q.
Proof.
  induction v as [|x v IH]; intros [|i] a c Hl; simpl in *; try discriminate.
  - injection Hl as ->. rewrite !Qsum_cons. ring.
  - rewrite !Qsum_cons, (IH i a c Hl). ring.
Qed.

Lemma Qsum_nonneg (v : list Q) :
  Forall (fun e => (0 <= e)%Q) v -> (0 <= Qsum v)%Q.
Proof.
  induction 1 as [|x v Hx Hv IH]; [apply Qle_refl|].
  rewrite Qsum_cons. replace 0%Q with (0 + 0)%Q by reflexivity.
  apply Qplus_le_compat; assumption.
Qed.

Lemma Qsum_zero_all (v : list Q) :
  Forall (fun e => (0 <= e)%Q) v -> (Qsum v == 0)%Q ->
  Forall (fun e => (e == 0)%Q) v.
Proof.
  induction 1 as [|x v Hx Hv IH]; intros Hs; [constructor|].
  rewrite Qsum_cons in Hs. pose proof (Qsum_nonneg v Hv) as Hn.
  assert (x == 0)%Q as Hx0.
  { apply Qle_antisym; [|exact Hx].
    apply Qle_trans with (x + Qsum v)%Q; [|rewrite Hs; apply Qle_refl].
    rewrite <- (Qplus_0_r x) at 1. apply Qplus_le_compat; [apply Qle_refl|exact Hn]. }
  constructor; [exact Hx0|]. apply IH. rewrite Hx0 in Hs. rewrite <- Hs. ring.
Qed.

Lemma Qsum_all_zero (v : list Q) :
  Forall (fun e => (e == 0)%Q) v -> (Qsum v == 0)%Q.
Proof.
  induction 1 as [|x v Hx Hv IH]; [reflexivity|].
  rewrite Qsum_cons, Hx, IH. ring.
Qed.

Lemma L1norm_nonneg_eq (v : list Q) :
  Forall (fun e => (0 <= e)%Q) v -> (L1norm v == Qsum v)%Q.
Proof.
  unfold L1norm. induction 1 as [|x v Hx Hv IH]; simpl; [reflexivity|].
  rewrite !Qsum_cons, IH, (Qabs_pos x Hx). reflexivity.
Qed.

Lemma Qsum_scale (s : Q) (v : list Q) :
  (Qsum (map (fun e => e / s) v) == Qsum v / s)%Q.
Proof.
  induction v as [|x v IH]; simpl.
  - unfold Qsum. simpl. unfold Qdiv. ring.
  - rewrite !Qsum_cons, IH. unfold Qdiv. ring.
Qed.

Lemma scale_nonneg (s : Q) (v : list Q) :
  (0 < s)%Q -> Forall (fun e => (0 <= e)%Q) v ->
  Forall (fun e => (0 <= e)%Q) (map (fun e => e / s)%Q v).
Proof.
  intros Hs. induction 1 as [|x v Hx Hv IH]; simpl; constructor; [|exact IH].
  apply Qle_shift_div_l; [exact Hs|]. rewrite Qmult_0_l. exact Hx.
Qed.

(** Entry [j] of a vector, [0] outside it. *)
Definition entry (v : list Q) (j : nat) : Q :=
  match v !! j with Some e => e | None => 0%Q end.

Lemma vec_add_at_in_range i c (v : list Q) :
  0 <= i < Z.of_nat (length v) ->
  exists v', vec_add_at i c v = Some v' /\
    length v' = length v /\
    (Qsum v' == Qsum v + c)%Q /\
    (forall j, entry v' j =
       if decide (j = Z.to_nat i) then (entry v j + c)%Q else entry v j).
Proof.
  intros Hi. unfold vec_add_at.
  assert ((i <? 0) = false) as -> by (apply Z.ltb_ge; lia).
  destruct (v !! Z.to_nat i) as [a|] eqn:Hl.
  - eexists. split; [reflexivity|]. split; [apply length_insert|].
    split; [apply Qsum_insert; exact Hl|].
    intros j. unfold entry. destruct (decide (j = Z.to_nat i)) as [->|Hne].
    + rewrite list_lookup_insert_eq, Hl; [reflexivity|].
      apply lookup_lt_Some in Hl. exact Hl.
    + rewrite list_lookup_insert_ne by congruence. reflexivity.
  - apply lookup_ge_None in Hl. lia.
Qed.

Lemma vec_add_at_out_of_range i c (v : list Q) :
  i < 0 \/ Z.of_nat (length v) <= i -> vec_add_at i c v = None.
Proof.
  intros Hi. unfold vec_add_at. destruct (i <? 0) eqn:E; [reflexivity|].
  apply Z.ltb_ge in E.
  assert (v !! Z.to_nat i = None) as -> by (apply lookup_ge_None; lia).
  reflexivity.
Qed.
End FeatureFacts.

Section FeatureVector.
Local Open Scope Q_scope.

Definition labels_in_range (class_num : Z) (armors : list Detection) : Prop :=
  forall a, In a armors -> (0 <= Detection.label a < class_num)%Z.

Definition confidences_nonneg (armors : list Detection) : Prop :=
  forall a, In a armors -> 0 <= Detection.confidence a.

Lemma vec_add_at_nonneg i c (v v' : list Q) :
  vec_add_at i c v = Some v' -> 0 <= c ->
  Forall (fun e => 0 <= e) v -> Forall (fun e => 0 <= e) v'.
Proof.
  unfold vec_add_at. destruct (i <? 0)%Z; [discriminate|].
  destruct (v !! Z.to_nat i) as [a|] eqn:Hl; [|discriminate].
  intros [= <-] Hc Hv. apply Forall_insert; [exact Hv|].
  rewrite List.Forall_forall in Hv.
  assert (0 <= a) as Ha.
  { apply Hv. apply list_elem_of_In. eapply list_elem_of_lookup_2. exact Hl. }
  replace 0 with (0 + 0) by reflexivity. apply Qplus_le_compat; assumption.
Qed.

Lemma accumulate_in_range (armors : list Detection) : forall v : list Q,
  labels_in_range (Z.of_nat (length v)) armors ->
  exists v', accumulate_armors armors v = Some v' /\
    length v' = length v /\
    Qsum v' == Qsum v + Qsum (map Detection.confidence armors) /\
    (forall j, entry v' j == entry v j + label_score (Z.of_nat j) armors) /\
    (confidences_nonneg armors ->
     Forall (fun e => 0 <= e) v -> Forall (fun e => 0 <= e) v').
Proof.
  induction armors as [|a rest IH]; intros v Hr; simpl.
  - exists v. split; [reflexivity|]. split; [reflexivity|].
    split; [rewrite Qsum_nil; ring|]. split; [intros j; ring|auto].
  - destruct (vec_add_at_in_range (Detection.label a) (Detection.confidence a) v)
      as (v1 & Hv1 & Hlen1 & Hsum1 & Hent1).
    { apply Hr. left. reflexivity. }
    rewrite Hv1. destruct (IH v1) as (v' & Hv' & Hlen & Hsum & Hent & Hnn).
    { rewrite Hlen1. intros b Hb. apply Hr. right. exact Hb. }
    exists v'. split; [exact Hv'|]. split; [congruence|].
    split; [rewrite Hsum, Hsum1, Qsum_cons; ring|]. split.
    + intros j. rewrite Hent, Hent1.
      assert (0 <= Detection.label a)%Z as Hl0 by (apply Hr; left; reflexivity).
      destruct (decide (j = Z.to_nat (Detection.label a))) as [->|Hne].
      * rewrite Z2Nat.id by exact Hl0. rewrite Z.eqb_refl. ring.
      * assert ((Detection.label a =? Z.of_nat j)%Z = false) as ->
          by (apply Z.eqb_neq; lia).
        ring.
    + intros Hc Hv. apply Hnn.
      * intros b Hb. apply Hc. right. exact Hb.
      * apply (vec_add_at_nonneg _ _ _ _ Hv1); [apply Hc; left; reflexivity|exact Hv].
Qed.

Lemma repeat0_nonneg n : Forall (fun e => 0 <= e) (repeat 0 n).
Proof. induction n; simpl; constructor; [apply Qle_refl|assumption]. Qed.

Lemma repeat0_zero n : Forall (fun e => e == 0) (repeat 0 n).
Proof. induction n; simpl; constructor; [reflexivity|assumption]. Qed.

Lemma entry_repeat0 n j : entry (repeat 0 n) j == 0.
Proof.
  unfold entry. destruct (repeat 0 n !! j) as [e|] eqn:He; [|reflexivity].
  apply list_elem_of_lookup_2, list_elem_of_In, repeat_spec in He. rewrite He.
  reflexivity.
Qed.

Lemma entry_scale s (v : list Q) j : entry (map (fun e => e / s) v) j == entry v j / s.
Proof.
  unfold entry. rewrite list_lookup_fmap.
  destruct (v !! j); simpl; [reflexivity|]. unfold Qdiv. ring.
Qed.

(** What [feature] computes for a robot that is detected and carries its
    armors, when every label indexes the vector. *)
Lemma feature_detected class_num r armors :
  (0 <= class_num)%Z ->
  isDetected r = true -> armors_ r = Some armors ->
  labels_in_range class_num armors ->
  exists acc,
    accumulate_armors armors (repeat 0 (Z.to_nat class_num)) = Some acc /\
    length acc = Z.to_nat class_num /\
    Qsum acc == total_confidence r /\
    (forall j, entry acc j == label_score (Z.of_nat j) armors) /\
    (confidences_nonneg armors -> Forall (fun e => 0 <= e) acc) /\
    feature class_num r =
      Returns (if iszero (Qsum acc) then acc
               else map (fun e => e / Qsum acc) acc).
Proof.
  intros Hc Hd Ha Hr.
  destruct (accumulate_in_range armors (repeat 0 (Z.to_nat class_num)))
    as (acc & Hacc & Hlen & Hsum & Hent & Hnn).
  { rewrite repeat_length, Z2Nat.id by exact Hc. exact Hr. }
  exists acc. split; [exact Hacc|]. split; [rewrite Hlen; apply repeat_length|].
  split.
  { rewrite Hsum, Qsum_repeat0. unfold total_confidence, armors_of.
    rewrite Ha. ring. }
  split; [intros j; rewrite Hent, entry_repeat0; ring|].
  split; [intros Hcn; apply Hnn; [exact Hcn|apply repeat0_nonneg]|].
  unfold feature. assert ((class_num <? 0)%Z = false) as -> by (apply Z.ltb_ge; lia).
  rewrite Hd, Ha, Hacc. simpl. destruct (iszero (Qsum acc)); reflexivity.
Qed.
End FeatureVector.

Section FeatureClaim.
Local Open Scope Q_scope.

(** C6. Take a robot that carries its armors whenever it is detected, a
    class count that is not negative and above every armor label, and
    armor confidences that are not negative.  Then [feature] returns a
    vector of [class_num] entries whose L1 norm is 0 or 1.  The vector is
    zero exactly when the robot is not detected or its confidences sum to
    zero; otherwise entry [i] is the summed confidence of the armors with
    label [i] divided by the sum of all confidences. *)
Theorem feature_normalised (class_num : Z) (r : Robot) :
  (0 <= class_num)%Z ->
  (isDetected r = true -> is_Some (armors_ r)) ->
  labels_in_range class_num (armors_of r) ->
  confidences_nonneg (armors_of r) ->
  exists v,
    feature class_num r = Returns v /\
    length v = Z.to_nat class_num /\
    (L1norm v == 0 \/ L1norm v == 1) /\
    (Forall (fun e => e == 0) v <->
     isDetected r = false \/ total_confidence r == 0) /\
    (isDetected r = true -> ~ total_confidence r == 0 ->
     forall i, (0 <= i < class_num)%Z ->
       entry v (Z.to_nat i) == label_score i (armors_of r) / total_confidence r).
Proof.
  intros Hc Harm Hr Hnn.
  destruct (isDetected r) eqn:Hd.
  - destruct (Harm eq_refl) as [armors Ha].
    assert (armors_of r = armors) as Hof by (unfold armors_of; rewrite Ha; reflexivity).
    rewrite Hof in *.
    destruct (feature_detected class_num r armors Hc Hd Ha Hr)
      as (acc & _ & Hlen & Hsum & Hent & Hpos & Hf).
    specialize (Hpos Hnn).
    destruct (iszero (Qsum acc)) eqn:Hz.
    + apply iszero_true in Hz.
      exists acc. split; [exact Hf|]. split; [exact Hlen|].
      split; [left; rewrite L1norm_nonneg_eq by exact Hpos; exact Hz|].
      split.
      * split; [intros _; right; rewrite <- Hsum; exact Hz|].
        intros _. apply Qsum_zero_all; assumption.
      * intros _ Hne. exfalso. apply Hne. rewrite <- Hsum. exact Hz.
    + apply iszero_false in Hz.
      assert (0 < Qsum acc) as Hs.
      { destruct (Qle_lt_or_eq _ _ (Qsum_nonneg acc Hpos)) as [Hlt|Heq];
          [exact Hlt|]. exfalso. apply Hz. symmetry. exact Heq. }
      assert (Qsum (map (fun e => e / Qsum acc) acc) == 1) as Hone.
      { rewrite Qsum_scale. field. exact Hz. }
      exists (map (fun e => e / Qsum acc) acc).
      split; [exact Hf|]. split; [rewrite length_map; exact Hlen|].
      split.
      { right. rewrite L1norm_nonneg_eq by (apply scale_nonneg; assumption).
        exact Hone. }
      split.
      * split.
        -- intros Hall. apply Qsum_all_zero in Hall. rewrite Hone in Hall.
           discriminate Hall.
        -- intros [Hfalse|Hzero]; [discriminate|].
           exfalso. apply Hz. rewrite Hsum. exact Hzero.
      * intros _ _ i Hi. rewrite entry_scale, Hent, Hsum.
        rewrite Z2Nat.id by lia. reflexivity.
  - exists (repeat 0 (Z.to_nat class_num)).
    split.
    { unfold feature. assert ((class_num <? 0)%Z = false) as ->
        by (apply Z.ltb_ge; lia). rewrite Hd. reflexivity. }
    split; [apply repeat_length|].
    split.
    { left. rewrite L1norm_nonneg_eq by apply repeat0_nonneg. apply Qsum_repeat0. }
    split; [split; [intros _; left; reflexivity|intros _; apply repeat0_zero]|].
    intros Hfalse. discriminate.
Qed.

Definition sample_armor (l : Z) (c : Q) : Detection := Detection.mk 1 2 3 4 l c.
Definition sample_car : Detection := Detection.mk 10 20 30 40 0 1.

Lemma feature_normalised_witness :
  let r := Robot_new sample_car [sample_armor 1 (1#2); sample_armor 0 (1#4)] in
  exists v,
    feature 3 r = Returns v /\
    length v = 3%nat /\
    (L1norm v == 0 \/ L1norm v == 1) /\
    (Forall (fun e => e == 0) v <->
     isDetected r = false \/ total_confidence r == 0) /\
    (isDetected r = true -> ~ total_confidence r == 0 ->
     forall i, (0 <= i < 3)%Z ->
       entry v (Z.to_nat i) == label_score i (armors_of r) / total_confidence r).
Proof.
  apply (feature_normalised 3
           (Robot_new sample_car [sample_armor 1 (1#2); sample_armor 0 (1#4)])).
  - lia.
  - intros _. vm_compute. eauto.
  - intros a [<-|[<-|[]]]; simpl; lia.
  - intros a [<-|[<-|[]]]; simpl; discriminate.
Defined.

(** The claim as the specification words it, for every robot and every
    class count, fails where an armor label is not below the class
    count: the vector of two entries is indexed at 5. *)
Lemma feature_label_outside_vector :
  let r := Robot_new sample_car [sample_armor 5 (9#10)] in
  confidences_nonneg (armors_of r) /\
  feature 2 r = Terminates /\
  ~ exists v, feature 2 r = Returns v /\ length v = 2%nat.
Proof.
  split; [|split].
  - intros a [<-|[]]. simpl. discriminate.
  - reflexivity.
  - intros (v & Hv & _). discriminate Hv.
Qed.

(** A robot that got its label from a track and has no armors: [feature]
    reads the empty optional. *)
Example feature_label_without_armors :
  feature 2 (mkRobot None (Some 3%Z) None None None (Some Confirmed)) = Terminates.
Proof. reflexivity. Qed.
End FeatureClaim.

(** ** Properties of the locator *)

Section LocatorUpdate.
Local Open Scope Q_scope.

Lemma Qtrunc_range (q : Q) (n : Z) :
  0 <= q -> q <= inject_Z n -> (0 <= Qtrunc q <= n)%Z.
Proof.
  destruct q as [a b]. unfold Qle, Qtrunc, inject_Z. simpl.
  rewrite Z.mul_1_r. intros Ha Hn.
  rewrite Z.quot_div_nonneg by lia. split.
  - apply Z.div_pos; lia.
  - apply Z.div_le_upper_bound; lia.
Qed.

(** What the bounds test of [update] lets through: a point that is
    written lands on a row in [0, height] and a column in [0, width],
    both ends included. *)
Lemma project_point_range P point row col d :
  project_point P point = Some (row, col, d) ->
  (0 <= row <= image_height_zoomed_ P)%Z /\
  (0 <= col <= image_width_zoomed_ P)%Z.
Proof.
  unfold project_point.
  destruct (iszero (px point) && iszero (py point) && iszero (pz point));
    [discriminate|].
  destruct (Qltb (max_distance_ P) (px point)); [discriminate|].
  destruct (Qltb (px (lidarToCamera P point)) 0) eqn:Hu0; [discriminate|].
  destruct (Qltb (inject_Z (image_width_zoomed_ P)) (px (lidarToCamera P point)))
    eqn:Hu1; [discriminate|].
  destruct (Qltb (py (lidarToCamera P point)) 0) eqn:Hv0; [discriminate|].
  destruct (Qltb (inject_Z (image_height_zoomed_ P)) (py (lidarToCamera P point)))
    eqn:Hv1; [discriminate|].
  simpl. intros [= <- <- <-].
  apply Qltb_ge in Hu0, Hu1, Hv0, Hv1.
  split; apply Qtrunc_range; assumption.
Qed.

(** A projection left of, above, or more than one full image size away
    is skipped. *)
Lemma project_point_skips P point :
  (let uvd := lidarToCamera P point in
   px uvd < 0 \/ inject_Z (image_width_zoomed_ P) < px uvd \/
   py uvd < 0 \/ inject_Z (image_height_zoomed_ P) < py uvd) ->
  project_point P point = None.
Proof.
  cbv zeta. intros Hout. unfold project_point.
  destruct (iszero (px point) && iszero (py point) && iszero (pz point));
    [reflexivity|].
  destruct (Qltb (max_distance_ P) (px point)); [reflexivity|].
  destruct Hout as [Hc|[Hc|[Hc|Hc]]]; apply Qltb_lt in Hc; rewrite Hc;
    rewrite ?orb_true_r; reflexivity.
Qed.

(** The background image never goes down at any pixel when a point is
    written, and it changes only where the new depth is larger. *)
Lemma write_point_background P imgs point r c :
  let background := fst imgs in
  let background' := fst (write_point P imgs point) in
  background' r c = background r c \/ background r c < background' r c.
Proof.
  cbv zeta. destruct imgs as [background depth]. unfold write_point.
  destruct (project_point P point) as [[[row col] d]|]; simpl; [|left; reflexivity].
  destruct (Qltb (background row col) d) eqn:Hlt; simpl; [|left; reflexivity].
  unfold Mat_set. destruct ((r =? row)%Z && (c =? col)%Z) eqn:Hrc;
    [|left; reflexivity].
  apply andb_true_iff in Hrc. destruct Hrc as [Hr Hc].
  apply Z.eqb_eq in Hr, Hc. subst r c. right. apply Qltb_lt. exact Hlt.
Qed.

Lemma write_point_background_le P imgs point r c :
  fst imgs r c <= fst (write_point P imgs point) r c.
Proof.
  destruct (write_point_background P imgs point r c) as [Heq|Hlt].
  - rewrite Heq. apply Qle_refl.
  - apply Qlt_le_weak. exact Hlt.
Qed.

Lemma write_points_background_le P points : forall imgs r c,
  fst imgs r c <= fst (fold_left (write_point P) points imgs) r c.
Proof.
  induction points as [|p rest IH]; intros imgs r c; simpl; [apply Qle_refl|].
  apply Qle_trans with (fst (write_point P imgs p) r c);
    [apply write_point_background_le|apply IH].
Qed.

Lemma update_background cloud L :
  background_depth_image_ (update cloud L) =
  match cloud with
  | Some points =>
      fst (fold_left (write_point (params L)) points
                     (background_depth_image_ L, Mat_zero))
  | None => background_depth_image_ L
  end.
Proof.
  unfold update. destruct cloud as [[|p rest]|]; try reflexivity.
  destruct (fold_left (write_point (params L)) (p :: rest)
                      (background_depth_image_ L, Mat_zero)) as [bg depth].
  reflexivity.
Qed.

Lemma update_params cloud L : params (update cloud L) = params L.
Proof.
  unfold update. destruct cloud as [[|p rest]|]; try reflexivity.
  destruct (fold_left (write_point (params L)) (p :: rest)
                      (background_depth_image_ L, Mat_zero)) as [bg depth].
  reflexivity.
Qed.

Lemma update_background_le cloud L r c :
  background_depth_image_ L r c <= background_depth_image_ (update cloud L) r c.
Proof.
  rewrite update_background. destruct cloud as [points|]; [|apply Qle_refl].
  apply (write_points_background_le (params L) points
           (background_depth_image_ L, Mat_zero)).
Qed.

(** A run of the locator over a sequence of clouds. *)
Definition updates (clouds : list (option (list Point3f))) (L : Locator) : Locator :=
  fold_left (fun L cloud => update cloud L) clouds L.

End LocatorUpdate.

(** *** A small camera for worked examples: a 4 x 4 depth image, no zoom,
    identity intrinsic and extrinsic matrices. *)

Definition identity3 : Matx := [[1; 0; 0]; [0; 1; 0]; [0; 0; 1]]%Q.
Definition identity4 : Matx := [[1; 0; 0; 0]; [0; 1; 0; 0]; [0; 0; 1; 0]; [0; 0; 0; 1]]%Q.

Definition sample_params : Params :=
  mkParams 4 4 1 4 4 2 identity3 identity3 identity4 identity3 [0; 0; 0]%Q identity4
           (1#2) 40 100.

Definition sample_locator : Locator :=
  mkLocator sample_params Mat_zero Mat_zero Mat_zero [] [] [] ∅ ∅.

Section LocatorBounds.
Local Open Scope Q_scope.

(** C2. The bounds test of [update] compares with [>] where the last
    valid column is [width - 1]: a point that projects exactly onto
    [u = image_width_zoomed] is not skipped, and both images are written
    at column 4 of a 4-column image. *)
Theorem update_writes_outside_image :
  let point := mkPoint3f 4 0 1 in
  let L := update (Some [point]) sample_locator in
  image_width_zoomed_ sample_params = 4%Z /\
  lidarToCamera sample_params point = mkPoint3f 4 0 1 /\
  project_point sample_params point = Some (0%Z, 4%Z, 1) /\
  depth_image_ L 0%Z 4%Z = 1 /\
  background_depth_image_ L 0%Z 4%Z = 1.
Proof. vm_compute. repeat split. Qed.

(** The same slip on the rows: [v = image_height_zoomed] passes. *)
Example update_writes_below_image :
  project_point sample_params (mkPoint3f 2 4 1) = Some (4%Z, 2%Z, 1).
Proof. reflexivity. Qed.

Example update_skips_far_right :
  project_point sample_params (mkPoint3f 9 0 2) = None.
Proof. reflexivity. Qed.

Example update_writes_inside :
  project_point sample_params (mkPoint3f 3 2 1) = Some (2%Z, 3%Z, 1).
Proof. reflexivity. Qed.
End LocatorBounds.

(** *** The loop over the cloud under a schedule *)

Section ScheduledLoop.
Local Open Scope Q_scope.

Lemma run_app P s1 s2 st : run P (s1 ++ s2) st = run P s2 (run P s1 st).
Proof. unfold run. apply fold_left_app. Qed.

(** One strand run to its end is the body of the loop run in order. *)
Lemma run_strand P (done rest : list point_state) point imgs :
  run P [length done; length done; length done]
      (imgs, done ++ Fresh point :: rest) =
  (write_point P imgs point, done ++ Finished :: rest).
Proof.
  assert (forall s, (done ++ s :: rest) !! length done = Some s) as Hlook
    by (intros s; apply list_lookup_middle; reflexivity).
  assert (forall s s', <[length done := s']> (done ++ s :: rest) = done ++ s' :: rest)
    as Hins.
  { intros s s'. rewrite insert_app_r_alt by lia.
    replace (length done - length done)%nat with 0%nat by lia. reflexivity. }
  unfold run, write_point. simpl. destruct imgs as [background depth].
  unfold step_at at 3. cbn [fst snd]. rewrite Hlook. cbn [step_point].
  destruct (project_point P point) as [[[row col] d]|]; rewrite Hins.
  - unfold step_at at 2. cbn [fst snd]. rewrite Hlook. cbn [step_point fst snd].
    rewrite Hins. unfold step_at. cbn [fst snd]. rewrite Hlook.
    cbn [step_point fst snd]. rewrite Hins. reflexivity.
  - unfold step_at at 2. cbn [fst snd]. rewrite Hlook. cbn [step_point].
    rewrite Hins. unfold step_at. cbn [fst snd]. rewrite Hlook. cbn [step_point].
    rewrite Hins. reflexivity.
Qed.

Lemma run_in_order P (points : list Point3f) : forall done imgs,
  fst (run P (in_order (length done) (length points)) (imgs, done ++ map Fresh points)) =
  fold_left (write_point P) points imgs.
Proof.
  induction points as [|point rest IH]; intros done imgs; [reflexivity|].
  unfold in_order. simpl length. simpl seq. simpl map.
  change (mbind ?f (?a :: ?l)) with (f a ++ mbind f l).
  rewrite run_app, run_strand.
  change (done ++ Finished :: map Fresh rest)
    with (done ++ [Finished] ++ map Fresh rest).
  rewrite app_assoc.
  replace (S (length done)) with (length (done ++ [Finished]))
    by (rewrite length_app; simpl; lia).
  apply (IH (done ++ [Finished]) (write_point P imgs point)).
Qed.

(** The empty schedule is the loop run in order: [update]. *)
Lemma update_par_in_order cloud L : update_par [] cloud L = update cloud L.
Proof.
  unfold update_par, update, write_points_par.
  destruct cloud as [[|point rest]|]; try reflexivity.
  change ([] ++ in_order 0 (length (point :: rest)))
    with (in_order (length (@nil point_state)) (length (point :: rest))).
  change (map Fresh (point :: rest)) with ([] ++ map Fresh (point :: rest)).
  rewrite run_in_order. reflexivity.
Qed.

(** What every schedule keeps true: no cell is below its value at the
    start, and a strand whose test passed holds more than that value. *)
Definition strand_ok (bg0 : Mat) (s : point_state) : Prop :=
  match s with
  | Tested row col d true => bg0 row col < d
  | _ => True
  end.

Lemma step_at_keeps P bg0 st i :
  (forall r c, bg0 r c <= fst (fst st) r c) -> Forall (strand_ok bg0) (snd st) ->
  (forall r c, bg0 r c <= fst (fst (step_at P st i)) r c) /\
  Forall (strand_ok bg0) (snd (step_at P st i)).
Proof.
  destruct st as [[background depth] strands]. cbn [fst snd]. intros Hle Hok.
  unfold step_at. cbn [fst snd].
  destruct (strands !! i) as [s|] eqn:Hs; [|split; assumption].
  assert (strand_ok bg0 s) as Hsok
    by (rewrite Forall_forall in Hok; apply Hok; eapply list_elem_of_lookup_2; eauto).
  destruct s as [point|row col d larger|row col d|]; cbn [step_point fst snd].
  - destruct (project_point P point) as [[[row col] d]|]; cbn [fst snd].
    + split; [exact Hle|]. apply Forall_insert; [exact Hok|].
      simpl. destruct (Qltb (background row col) d) eqn:Hlt; [|exact I].
      apply Qltb_lt in Hlt. eapply Qle_lt_trans; [apply Hle|exact Hlt].
    + split; [exact Hle|]. apply Forall_insert; [exact Hok|exact I].
  - split; [|apply Forall_insert; [exact Hok|exact I]].
    intros r c. destruct larger; [|apply Hle].
    unfold Mat_set. destruct ((r =? row)%Z && (c =? col)%Z) eqn:E; [|apply Hle].
    apply andb_true_iff in E. destruct E as [Hr Hc].
    apply Z.eqb_eq in Hr, Hc. subst r c. apply Qlt_le_weak. exact Hsok.
  - split; [exact Hle|]. apply Forall_insert; [exact Hok|exact I].
  - split; [exact Hle|]. apply Forall_insert; [exact Hok|exact I].
Qed.

Lemma run_keeps P bg0 schedule : forall st,
  (forall r c, bg0 r c <= fst (fst st) r c) -> Forall (strand_ok bg0) (snd st) ->
  forall r c, bg0 r c <= fst (fst (run P schedule st)) r c.
Proof.
  induction schedule as [|i rest IH]; intros st Hle Hok; [exact Hle|].
  simpl. destruct (step_at_keeps P bg0 st i Hle Hok) as [Hle' Hok'].
  apply IH; assumption.
Qed.

Lemma update_par_background_le schedule cloud L r c :
  background_depth_image_ L r c <= background_depth_image_ (update_par schedule cloud L) r c.
Proof.
  unfold update_par. destruct cloud as [[|point rest]|]; try apply Qle_refl.
  pose proof (run_keeps (params L) (background_depth_image_ L)
                (schedule ++ in_order 0 (length (point :: rest)))
                ((background_depth_image_ L, Mat_zero), map Fresh (point :: rest))) as Hrun.
  unfold write_points_par.
  destruct (run (params L) (schedule ++ in_order 0 (length (point :: rest)))
                (background_depth_image_ L, Mat_zero, map Fresh (point :: rest)))
    as [[background depth] strands].
  cbn [fst snd background_depth_image_] in *. apply Hrun.
  - intros. apply Qle_refl.
  - apply Forall_forall. intros s Hs. apply list_elem_of_fmap in Hs.
    destruct Hs as (p & -> & _). exact I.
Qed.

(** C8. The background is a running maximum only when the loop over the
    cloud runs in order.  Under every schedule a cell ends an update no
    lower than it began, but the test and the write of the cell are
    separate steps: when two points of one cloud fall on pixel (1, 1) with
    depths 10 and 5 and both tests read the cell before either write, the
    cell holds 10 and is then overwritten by 5.  Run in order the same
    cloud leaves 10. *)
Theorem update_race_loses_maximum :
  (forall schedule cloud L v u,
     background_depth_image_ L v u <=
     background_depth_image_ (update_par schedule cloud L) v u) /\
  let points := [mkPoint3f 10 10 10; mkPoint3f 5 5 5] in
  let start := ((Mat_zero, Mat_zero), map Fresh points) in
  project_point sample_params (mkPoint3f 10 10 10) = Some (1%Z, 1%Z, 10) /\
  project_point sample_params (mkPoint3f 5 5 5) = Some (1%Z, 1%Z, 5) /\
  fst (fst (run sample_params [0; 1; 0]%nat start)) 1%Z 1%Z = 10 /\
  fst (fst (run sample_params [0; 1; 0; 1]%nat start)) 1%Z 1%Z = 5 /\
  background_depth_image_
    (update_par [0; 1; 0; 1]%nat (Some points) sample_locator) 1%Z 1%Z = 5 /\
  background_depth_image_ (update (Some points) sample_locator) 1%Z 1%Z = 10.
Proof.
  split; [intros; apply update_par_background_le|].
  vm_compute. repeat split.
Qed.
End ScheduledLoop.

Section LocatorIndex.

Lemma elem_of_pixels rows cols i j :
  (i, j) ∈ pixels rows cols <-> (0 <= i < rows) /\ (0 <= j < cols).
Proof.
  unfold pixels. rewrite list_elem_of_bind. split.
  - intros (i' & Hj & Hi). apply elem_of_seqZ in Hi.
    apply list_elem_of_fmap in Hj. destruct Hj as (j' & [= -> ->] & Hj).
    apply elem_of_seqZ in Hj. lia.
  - intros [Hi Hj]. exists i. split.
    + apply list_elem_of_fmap. exists j. split; [reflexivity|].
      apply elem_of_seqZ. lia.
    + apply elem_of_seqZ. lia.
Qed.

Lemma elem_of_rect_pixels rect v u :
  (v, u) ∈ rect_pixels rect <->
  (y_ rect <= v < y_ rect + height_ rect) /\ (x_ rect <= u < x_ rect + width_ rect).
Proof.
  unfold rect_pixels. rewrite list_elem_of_bind. split.
  - intros (v' & Hu & Hv). apply elem_of_seqZ in Hv.
    apply list_elem_of_fmap in Hu. destruct Hu as (u' & [= -> ->] & Hu).
    apply elem_of_seqZ in Hu. lia.
  - intros [Hv Hu]. exists v. split.
    + apply list_elem_of_fmap. exists u. split; [reflexivity|].
      apply elem_of_seqZ. lia.
    + apply elem_of_seqZ. lia.
Qed.

(** The intersection with the image rectangle lies inside the image. *)
Lemma Rect_inter_inside a W H v u :
  (v, u) ∈ rect_pixels (Rect_inter a (mkRect 0 0 W H)) ->
  (0 <= v < H) /\ (0 <= u < W).
Proof.
  rewrite elem_of_rect_pixels. unfold Rect_inter. simpl.
  destruct ((Z.min (x_ a + width_ a) (0 + W) - Z.max (x_ a) 0 <=? 0) ||
            (Z.min (y_ a + height_ a) (0 + H) - Z.max (y_ a) 0 <=? 0)) eqn:E;
    simpl; lia.
Qed.

Lemma zoom_inside P rect v u :
  (v, u) ∈ rect_pixels (zoom P rect) ->
  (0 <= v < image_height_zoomed_ P) /\ (0 <= u < image_width_zoomed_ P).
Proof. unfold zoom. apply Rect_inter_inside. Qed.

Lemma emplace_same `{Countable K} {V} (k : K) (v : V) (m : gmap K V) :
  is_Some (emplace k v m !! k).
Proof.
  unfold emplace. destruct (m !! k) as [w|] eqn:E.
  - rewrite E. eauto.
  - rewrite lookup_insert_eq. eauto.
Qed.

Lemma emplace_keeps `{Countable K} {V} (k k' : K) (v : V) (m : gmap K V) :
  is_Some (m !! k') -> is_Some (emplace k v m !! k').
Proof.
  intros Hk'. unfold emplace. destruct (m !! k) as [w|] eqn:E; [exact Hk'|].
  destruct (decide (k = k')) as [->|Hne].
  - rewrite lookup_insert_eq. eauto.
  - rewrite lookup_insert_ne by exact Hne. exact Hk'.
Qed.

Lemma collect_pixel_keeps P diff acc pixel k :
  is_Some (snd acc !! k) -> is_Some (snd (collect_pixel P diff acc pixel) !! k).
Proof.
  destruct acc as [cloud pmap], pixel as [i j]. unfold collect_pixel.
  destruct (iszero (diff i j)); simpl; [auto|]. apply emplace_keeps.
Qed.

Lemma collect_pixels_keys P diff (l : list (Z * Z)) : forall acc,
  (forall k, is_Some (snd acc !! k) ->
             is_Some (snd (fold_left (collect_pixel P diff) l acc) !! k)) /\
  (forall i j, (i, j) ∈ l -> iszero (diff i j) = false ->
               is_Some (snd (fold_left (collect_pixel P diff) l acc) !! (j, i))).
Proof.
  induction l as [|pixel rest IH]; intros acc; simpl.
  - split; [auto|]. intros i j Hin. inversion Hin.
  - destruct (IH (collect_pixel P diff acc pixel)) as [Hkeep Hnew]. split.
    + intros k Hk. apply Hkeep. apply collect_pixel_keeps. exact Hk.
    + intros i j Hin Hnz. apply elem_of_cons in Hin. destruct Hin as [<-|Hin].
      * apply Hkeep. destruct acc as [cloud pmap]. unfold collect_pixel.
        rewrite Hnz. simpl. apply emplace_same.
      * apply Hnew; assumption.
Qed.

(** Every foreground pixel of the difference image gets an index. *)
Lemma collect_foreground_complete P diff i j :
  0 <= i < image_height_zoomed_ P -> 0 <= j < image_width_zoomed_ P ->
  iszero (diff i j) = false ->
  is_Some (snd (collect_foreground P diff) !! (j, i)).
Proof.
  intros Hi Hj Hnz. unfold collect_foreground.
  apply collect_pixels_keys; [|exact Hnz]. apply elem_of_pixels. lia.
Qed.

Variable extract : list Point3f -> list (list Z).

Lemma cluster_fields L :
  params (cluster extract L) = params L /\
  diff_depth_image_ (cluster extract L) = diff_depth_image_ L /\
  point_index_map_ (cluster extract L) =
    snd (collect_foreground (params L) (diff_depth_image_ L)).
Proof.
  unfold cluster.
  destruct (collect_foreground (params L) (diff_depth_image_ L)) as [cloud pmap].
  destruct cloud; simpl; auto.
Qed.

(** The pixel-to-index map covers the foreground of the image. *)
Definition index_complete (L : Locator) : Prop :=
  forall v u,
    0 <= v < image_height_zoomed_ (params L) ->
    0 <= u < image_width_zoomed_ (params L) ->
    iszero (diff_depth_image_ L v u) = false ->
    is_Some (point_index_map_ L !! (u, v)).

Lemma cluster_index_complete L : index_complete (cluster extract L).
Proof.
  intros v u Hv Hu Hnz.
  destruct (cluster_fields L) as (HP & Hd & Hm).
  rewrite HP in Hv, Hu. rewrite Hd in Hnz. rewrite Hm.
  apply collect_foreground_complete; assumption.
Qed.

Lemma group_pixels_return L (l : list (Z * Z)) : forall candidates,
  (forall v u, (v, u) ∈ l -> iszero (diff_depth_image_ L v u) = false ->
               is_Some (point_index_map_ L !! (u, v))) ->
  exists candidates',
    fold_left (group_pixel L) l (Returns candidates) = Returns candidates'.
Proof.
  induction l as [|[v u] rest IH]; intros candidates Hkeys; simpl; [eauto|].
  assert (forall v' u', (v', u') ∈ rest ->
            iszero (diff_depth_image_ L v' u') = false ->
            is_Some (point_index_map_ L !! (u', v'))) as Hrest.
  { intros v' u' Hin. apply Hkeys. apply elem_of_cons. right. exact Hin. }
  destruct (iszero (diff_depth_image_ L v u)) eqn:Hz.
  - apply IH. exact Hrest.
  - destruct (Hkeys v u) as [index Hindex];
      [apply elem_of_cons; left; reflexivity|exact Hz|].
    rewrite Hindex. apply IH. exact Hrest.
Qed.

Lemma group_pixels_background L (l : list (Z * Z)) : forall candidates,
  (forall v u, (v, u) ∈ l -> iszero (diff_depth_image_ L v u) = true) ->
  fold_left (group_pixel L) l (Returns candidates) = Returns candidates.
Proof.
  induction l as [|[v u] rest IH]; intros candidates Hzero; simpl; [reflexivity|].
  rewrite (Hzero v u) by (apply elem_of_cons; left; reflexivity).
  apply IH. intros v' u' Hin. apply Hzero. apply elem_of_cons. right. exact Hin.
Qed.

Lemma search_returns L robot :
  index_complete L -> exists robot', search L robot = Returns robot'.
Proof.
  intros Hidx. unfold search. destruct (rect_ robot) as [r|]; [|eauto].
  destruct (group_pixels_return L
              (rect_pixels (zoom (params L) (Rect_of_Rect2f r))) [])
    as [candidates Hc].
  { intros v u Hin Hnz. apply zoom_inside in Hin. apply Hidx; tauto. }
  change (group_points L (zoom (params L) (Rect_of_Rect2f r)) = Returns candidates)
    in Hc.
  cbv zeta. rewrite Hc. simpl. destruct candidates; eauto.
Qed.

Lemma search_all_returns L robots :
  index_complete L -> exists robots', search_all L robots = Returns robots'.
Proof.
  intros Hidx. induction robots as [|r rest [rest' IH]]; simpl; [eauto|].
  destruct (search_returns L r Hidx) as [r' Hr]. rewrite Hr, IH. simpl. eauto.
Qed.

(** C10. After [cluster] every pixel of the image whose difference depth
    is not zero has a key in the pixel-to-index map; hence [search], run
    on that state for any robot or list of robots, finds every key it
    looks up and returns. *)
Theorem cluster_then_search_finds_keys (L : Locator) (robot : Robot)
        (robots : list Robot) :
  (forall v u,
     0 <= v < image_height_zoomed_ (params L) ->
     0 <= u < image_width_zoomed_ (params L) ->
     iszero (diff_depth_image_ (cluster extract L) v u) = false ->
     is_Some (point_index_map_ (cluster extract L) !! (u, v))) /\
  (exists robot', search (cluster extract L) robot = Returns robot') /\
  (exists robots', search_all (cluster extract L) robots = Returns robots').
Proof.
  pose proof (cluster_index_complete L) as Hidx.
  split; [|split].
  - intros v u Hv Hu. apply Hidx; destruct (cluster_fields L) as (-> & _); assumption.
  - apply search_returns. exact Hidx.
  - apply search_all_returns. exact Hidx.
Qed.
End LocatorIndex.

Section LocatorMissingData.

Lemma search_no_rect L robot : rect_ robot = None -> search L robot = Returns robot.
Proof. intros Hr. unfold search. rewrite Hr. reflexivity. Qed.

Lemma search_no_candidates L robot r :
  rect_ robot = Some r ->
  (forall v u, (v, u) ∈ rect_pixels (zoom (params L) (Rect_of_Rect2f r)) ->
               iszero (diff_depth_image_ L v u) = true) ->
  search L robot = Returns robot.
Proof.
  intros Hr Hzero. unfold search. rewrite Hr. cbv zeta.
  unfold group_points. rewrite group_pixels_background by exact Hzero.
  reflexivity.
Qed.

(** C9. Missing data ends no call and sets no output.  [update] on a null
    or an empty cloud leaves the depth image and the difference image
    zero at every pixel.  [search] on a robot without rectangle, or whose
    scaled rectangle holds no foreground pixel (in particular an empty
    rectangle), returns the robot as it was, so a location that was unset
    stays unset. *)
Theorem locator_missing_data (L : Locator) (robot : Robot) :
  (forall cloud, cloud = None \/ cloud = Some [] ->
     forall v u,
       depth_image_ (update cloud L) v u = 0%Q /\
       diff_depth_image_ (update cloud L) v u = 0%Q) /\
  (rect_ robot = None -> search L robot = Returns robot) /\
  (forall r, rect_ robot = Some r ->
     (forall v u, (v, u) ∈ rect_pixels (zoom (params L) (Rect_of_Rect2f r)) ->
                  iszero (diff_depth_image_ L v u) = true) ->
     search L robot = Returns robot).
Proof.
  split; [|split].
  - intros cloud [->| ->] v u; split; reflexivity.
  - apply search_no_rect.
  - intros r. apply search_no_candidates.
Qed.

(** A rectangle that misses the image: the scaled rectangle is empty and
    the robot comes back unchanged. *)
Example search_rect_off_image :
  let robot := Robot_new (Detection.mk 50 60 4 4 0 1) [] in
  search sample_locator robot = Returns robot /\ location_ robot = None.
Proof. vm_compute. split; reflexivity. Qed.
End LocatorMissingData.

(** ** Properties of the tracker *)

Section CostFacts.
Local Open Scope R_scope.

Lemma distance_score_near D d : d < D -> distance_score D d = 1.
Proof. intros Hd. unfold distance_score. destruct (Rlt_dec d D); [reflexivity|lra]. Qed.

Lemma distance_score_middle D d :
  D <= d < 2 * D -> distance_score D d = 15 / 10 - d / (2 * D).
Proof.
  intros [H1 H2]. unfold distance_score.
  destruct (Rlt_dec d D); [lra|]. destruct (Rlt_dec d (2 * D)); [|lra].
  unfold Rdiv. ring.
Qed.

Lemma distance_score_far D d :
  2 * D <= d -> D <= d -> distance_score D d = 5 / 10 * exp (2 - d / D).
Proof.
  intros H2 H1. unfold distance_score.
  destruct (Rlt_dec d D); [lra|]. destruct (Rlt_dec d (2 * D)); [lra|]. reflexivity.
Qed.

Lemma distance_score_at_D D : 0 < D -> distance_score D D = 1.
Proof.
  intros HD. rewrite distance_score_middle by lra. field. lra.
Qed.

Lemma distance_score_at_2D D : 0 < D -> distance_score D (2 * D) = 5 / 10.
Proof.
  intros HD. rewrite distance_score_far by lra.
  replace (2 - 2 * D / D) with 0 by (field; lra). rewrite exp_0. lra.
Qed.

Lemma distance_score_continuous_D D : 0 < D -> continuity_pt (distance_score D) D.
Proof.
  intros HD. unfold continuity_pt, continue_in, limit1_in, limit_in.
  simpl. unfold R_dist. intros eps Heps.
  exists (Rmin D (2 * D * eps)). split.
  { apply Rmin_glb_lt; [exact HD|]. apply Rmult_lt_0_compat; lra. }
  intros x [_ Hx]. rewrite distance_score_at_D by exact HD.
  assert (Rabs (x - D) < D) as HxD by (eapply Rlt_le_trans; [exact Hx|apply Rmin_l]).
  assert (Rabs (x - D) < 2 * D * eps) as Hxe
    by (eapply Rlt_le_trans; [exact Hx|apply Rmin_r]).
  apply Rabs_def2 in HxD. apply Rabs_def2 in Hxe.
  destruct (Rlt_dec x D) as [Hlt|Hge].
  - rewrite distance_score_near by exact Hlt.
    replace (1 - 1) with 0 by ring. rewrite Rabs_R0. exact Heps.
  - rewrite distance_score_middle by lra.
    replace (15 / 10 - x / (2 * D) - 1) with (- ((x - D) / (2 * D))) by (field; lra).
    rewrite Rabs_Ropp, Rabs_pos_eq.
    + apply Rmult_lt_reg_r with (2 * D); [lra|].
      unfold Rdiv. rewrite Rmult_assoc, Rinv_l by lra. lra.
    + apply Rmult_le_pos; [lra|]. left. apply Rinv_0_lt_compat. lra.
Qed.

Lemma distance_score_continuous_2D D :
  0 < D -> continuity_pt (distance_score D) (2 * D).
Proof.
  intros HD. unfold continuity_pt, continue_in, limit1_in, limit_in.
  simpl. unfold R_dist. intros eps Heps.
  exists (Rmin D (2 * D * eps)). split.
  { apply Rmin_glb_lt; [exact HD|]. apply Rmult_lt_0_compat; lra. }
  intros x [_ Hx]. rewrite distance_score_at_2D by exact HD.
  assert (Rabs (x - 2 * D) < D) as HxD
    by (eapply Rlt_le_trans; [exact Hx|apply Rmin_l]).
  assert (Rabs (x - 2 * D) < 2 * D * eps) as Hxe
    by (eapply Rlt_le_trans; [exact Hx|apply Rmin_r]).
  apply Rabs_def2 in HxD. apply Rabs_def2 in Hxe.
  destruct (Rlt_dec x (2 * D)) as [Hlt|Hge].
  - rewrite distance_score_middle by lra.
    replace (15 / 10 - x / (2 * D) - 5 / 10) with ((2 * D - x) / (2 * D)) by (field; lra).
    rewrite Rabs_pos_eq.
    + apply Rmult_lt_reg_r with (2 * D); [lra|].
      unfold Rdiv. rewrite Rmult_assoc, Rinv_l by lra. lra.
    + apply Rmult_le_pos; [lra|]. left. apply Rinv_0_lt_compat. lra.
  - rewrite distance_score_far by lra.
    set (t := (x - 2 * D) / D).
    assert (0 <= t) as Ht.
    { unfold t. apply Rmult_le_pos; [lra|]. left. apply Rinv_0_lt_compat. lra. }
    assert (t < 2 * eps) as Hte.
    { unfold t. apply Rmult_lt_reg_r with D; [lra|].
      unfold Rdiv. rewrite Rmult_assoc, Rinv_l by lra. lra. }
    replace (2 - x / D) with (- t) by (unfold t; field; lra).
    pose proof (exp_ineq1_le (- t)) as Hexp.
    assert (exp (- t) <= 1) as Hle1.
    { rewrite <- exp_0. destruct Ht as [Ht|Ht].
      - left. apply exp_increasing. lra.
      - rewrite <- Ht. rewrite Ropp_0. lra. }
    rewrite Rabs_left1 by lra. lra.
Qed.

Context {F : Type} `{TrackFilter F}.


(** The cost of a located robot whose feature has the size of the track
    feature: the conditional expression at the distance to the track, and
    the cosine of the two features moved into [0, 1], each by its weight. *)
Lemma calculateCost_located (T : Tracker F) (track : Track F) (robot : Robot)
      (location : Point3f) (feature_robot : list Q) :
  location_ robot = Some location ->
  feature (class_num_ T) robot = Returns feature_robot ->
  length feature_robot = length (track_feature track) ->
  let p := track_location track in
  let d := sqrt ((Q2R (px location) - Q2R (px p)) * (Q2R (px location) - Q2R (px p)) +
                 (Q2R (py location) - Q2R (py p)) * (Q2R (py location) - Q2R (py p)) +
                 (Q2R (pz location) - Q2R (pz p)) * (Q2R (pz location) - Q2R (pz p))) in
  let cosine :=
    Rdot (map Q2R feature_robot) (map Q2R (track_feature track)) /
    (Rnorm (map Q2R feature_robot) * Rnorm (map Q2R (track_feature track))) in
  calculateCost T track robot =
  Returns (distance_score (Q2R (distance_thresh_ T)) d * Q2R (distance_weight_ T) +
           (cosine + 1) / 2 * Q2R (feature_weight_ T)).
Proof.
  intros Hl Hf Hlen. cbv zeta. unfold calculateCost, isLocated, distance_score_of.
  rewrite Hl. rewrite bool_decide_eq_true_2 by (eexists; reflexivity).
  cbn [negb andb]. rewrite Hf. cbn [obind].
  rewrite !length_map, Hlen, Nat.eqb_refl. cbn [negb].
  reflexivity.
Qed.

End CostFacts.

(** *** A stand-in filter for worked examples: it keeps the last observed
    location and feature, and reads the label off the largest entry. *)

Record LastSeen := mkLastSeen { seen_location : Point3f; seen_feature : list Q }.

Fixpoint argmax_from (best : nat * Q) (i : nat) (v : list Q) : nat :=
  match v with
  | [] => fst best
  | e :: rest => argmax_from (if Qltb (snd best) e then (i, e) else best) (S i) rest
  end.

Definition argmax (v : list Q) : Z :=
  match v with
  | [] => 0
  | e :: rest => Z.of_nat (argmax_from (O, e) 1 rest)
  end.

Definition LastSeen_filter : TrackFilter LastSeen :=
  {| filter_predict f _ := f;
     filter_update _ location feat := mkLastSeen location feat;
     filter_init location feat _ _ _ _ := mkLastSeen location feat;
     filter_location := seen_location;
     filter_label f := argmax (seen_feature f);
     filter_feature := seen_feature |}.

Section TrackerExamples.
Local Existing Instance LastSeen_filter.

Definition sample_tracker (tracks : list (Track LastSeen)) : Tracker LastSeen :=
  mkTracker 3 2 3 5 (1#2) 1 1 (mkPoint3f (1#10) (1#10) (1#10)) 100 1 7 tracks.

Definition sample_track (id : Z) (state : TrackState) (init_count miss_count : Z)
  : Track LastSeen :=
  mkTrack id state init_count miss_count
          (mkLastSeen (mkPoint3f 0 0 0) [0; 1; 0]%Q).

(** A robot seen with one armor of label 1 and located at (3, 4, 0). *)
Definition sample_robot : Robot :=
  setLocation (mkPoint3f 3 4 0) (Robot_new sample_car [sample_armor 1 (9#10)]).

End TrackerExamples.

Section TrackerFacts.
Context {F : Type} `{TrackFilter F}.
Variable kNotMatched : Z.
Variable auction : list (list R) -> Z -> list Z.

Lemma mark_matched_filter (T : Tracker F) location feat track :
  ekf_ (mark_matched T location feat track) = filter_update (ekf_ track) location feat.
Proof.
  unfold mark_matched, isTentative. simpl.
  destruct (TrackState_eqb (state_ track) Tentative); [|reflexivity].
  simpl. destruct (init_thresh_ T <=? init_count_ track + 1); reflexivity.
Qed.

(** What the matched and located branch leaves in [miss_count_]: zero for a
    track that entered Tentative, the old value otherwise. *)
Lemma mark_matched_miss_count (T : Tracker F) location feat track :
  miss_count_ (mark_matched T location feat track) =
  if isTentative track then 0 else miss_count_ track.
Proof.
  unfold mark_matched, isTentative. simpl.
  destruct (TrackState_eqb (state_ track) Tentative); reflexivity.
Qed.

Lemma mark_matched_state (T : Tracker F) location feat track :
  state_ (mark_matched T location feat track) =
  match state_ track with
  | Tentative =>
      if init_thresh_ T <=? init_count_ track + 1 then Confirmed else Tentative
  | s => s
  end.
Proof.
  destruct track as [id s init_count miss_count ekf].
  unfold mark_matched, isTentative, track_update, set_init_count, set_miss_count,
    setState. simpl.
  destruct s; simpl; try reflexivity.
  destruct (init_thresh_ T <=? init_count + 1); reflexivity.
Qed.

Lemma mark_missed_state (T : Tracker F) track :
  state_ (mark_missed T track) =
  match state_ track with
  | Tentative => Deleted
  | Confirmed =>
      if miss_thresh_ T <=? miss_count_ track + 1 then Deleted else Confirmed
  | Deleted => Deleted
  end.
Proof.
  destruct track as [id s init_count miss_count ekf].
  unfold mark_missed, isTentative, isConfirmed, set_miss_count, setState. simpl.
  destruct s; simpl; try reflexivity.
  destruct (miss_thresh_ T <=? miss_count + 1); reflexivity.
Qed.

Lemma assign_no_deleted (T T' : Tracker F) timestamp tracks robots robots' match_result :
  assign kNotMatched T timestamp tracks robots match_result = Returns (T', robots') ->
  Forall (fun track => state_ track <> Deleted) (tracks_ T').
Proof.
  unfold assign.
  destruct (match_loop kNotMatched T 0 match_result (tracks, robots, []))
    as [[[tracks1 robots1] matched]|]; simpl; [|discriminate].
  destruct (erase_all (sort_desc matched) (seqZ 0 (Z.of_nat (length robots1))))
    as [unmatched|]; simpl; [|discriminate].
  destruct (init_loop T timestamp unmatched (tracks1, robots1, latest_id_ T))
    as [[[tracks2 robots2] latest]|]; simpl; [|discriminate].
  intros [= <- _]. simpl. apply List.Forall_forall. intros track Hin.
  apply list_elem_of_In, list_elem_of_filter in Hin. destruct Hin as [Hnot _].
  unfold isDeleted in Hnot. intros Hdel. rewrite Hdel in Hnot. discriminate.
Qed.

(** C7. When [Tracker::update] returns, no track of the list is Deleted.
    The tracks that the update deletes are the unmatched Tentative ones and
    the unmatched Confirmed ones whose [miss_count_] reaches
    [miss_thresh_]. *)
Theorem update_leaves_no_deleted_track
        (T T' : Tracker F) (robots robots' : list Robot) (timestamp : Z) :
  Tracker_update kNotMatched auction T robots timestamp = Returns (T', robots') ->
  Forall (fun track => state_ track <> Deleted) (tracks_ T') /\
  (forall track, state_ track = Tentative -> state_ (mark_missed T track) = Deleted) /\
  (forall track, state_ track = Confirmed ->
     miss_thresh_ T <= miss_count_ track + 1 ->
     state_ (mark_missed T track) = Deleted).
Proof.
  intros Hret. split; [|split].
  - unfold Tracker_update in Hret.
    destruct (cost_matrix T (map (track_predict timestamp) (tracks_ T)) robots)
      as [cost|]; simpl in Hret; [|discriminate].
    eapply assign_no_deleted. exact Hret.
  - intros track Hs. rewrite mark_missed_state, Hs. reflexivity.
  - intros track Hs Hm. rewrite mark_missed_state, Hs.
    destruct (miss_thresh_ T <=? miss_count_ track + 1) eqn:E; [reflexivity|].
    apply Z.leb_gt in E. lia.
Qed.

Lemma cost_entry_returns (T : Tracker F) track robot v :
  feature (class_num_ T) robot = Returns v ->
  length v = length (track_feature track) ->
  exists c, calculateCost T track robot = Returns c.
Proof.
  intros Hf Hlen. unfold calculateCost.
  destruct (negb (isLocated robot) && negb (isDetected robot)); [eauto|].
  rewrite Hf. simpl. rewrite !length_map, Hlen, Nat.eqb_refl. simpl. eauto.
Qed.

(** One track and one robot: the update is the assignment phase run on the
    one-entry cost matrix. *)
Lemma Tracker_update_single (T : Tracker F) track robot c timestamp :
  tracks_ T = [track] ->
  calculateCost T (track_predict timestamp track) robot = Returns c ->
  Tracker_update kNotMatched auction T [robot] timestamp =
  assign kNotMatched T timestamp [track_predict timestamp track] [robot]
         (auction [[c]] (max_iter_ T)).
Proof.
  intros Ht Hc. unfold Tracker_update, cost_matrix. rewrite Ht. simpl.
  rewrite Hc. reflexivity.
Qed.
End TrackerFacts.

Section TrackerRuns.
Local Existing Instance LastSeen_filter.

(** An assignment routine that answers with a fixed result. *)
Definition fixed_auction (result : list Z) : list (list R) -> Z -> list Z :=
  fun _ _ => result.

(** Three tracks and no robot: the Tentative track and the Confirmed track
    with two misses are deleted and erased, the third track stays with one
    miss. *)
Lemma update_leaves_no_deleted_track_witness :
  let T := sample_tracker [sample_track 0 Tentative 1 0;
                           sample_track 1 Confirmed 2 2;
                           sample_track 2 Confirmed 2 0] in
  let T' := sample_tracker [sample_track 2 Confirmed 2 1] in
  Tracker_update (-1) (fixed_auction [-1; -1; -1]) T [] 5 = Returns (T', []) /\
  Forall (fun track => state_ track <> Deleted) (tracks_ T').
Proof.
  assert (Tracker_update (-1) (fixed_auction [-1; -1; -1])
            (sample_tracker [sample_track 0 Tentative 1 0;
                             sample_track 1 Confirmed 2 2;
                             sample_track 2 Confirmed 2 0]) [] 5 =
          Returns (sample_tracker [sample_track 2 Confirmed 2 1], [])) as Hret.
  { vm_compute. reflexivity. }
  split; [exact Hret|].
  exact (proj1 (update_leaves_no_deleted_track (-1) (fixed_auction [-1; -1; -1])
                  _ _ _ _ _ Hret)).
Defined.

Lemma sample_robot_feature :
  exists v, feature 3 sample_robot = Returns v /\ length v = 3%nat.
Proof. eexists. split; [vm_compute; reflexivity|reflexivity]. Qed.

(** C1. A Confirmed track that has one miss is matched to a located robot:
    the update returns, the filter of the track holds the location of the
    robot, and [miss_count_] is still 1. *)
Theorem confirmed_match_keeps_miss_count :
  let T := sample_tracker [sample_track 0 Confirmed 2 1] in
  exists T' robots' track,
    Tracker_update (-1) (fixed_auction [0]) T [sample_robot] 5 = Returns (T', robots') /\
    tracks_ T' = [track] /\
    state_ track = Confirmed /\
    location_ sample_robot = Some (track_location track) /\
    track_location track = mkPoint3f 3 4 0 /\
    miss_count_ track = 1.
Proof.
  cbv zeta. destruct sample_robot_feature as (v & Hv & Hlen).
  assert (length v =
          length (track_feature (track_predict 5 (sample_track 0 Confirmed 2 1))))
    as Hlen' by exact Hlen.
  destruct (cost_entry_returns (sample_tracker [sample_track 0 Confirmed 2 1])
              (track_predict 5 (sample_track 0 Confirmed 2 1)) sample_robot v Hv Hlen')
    as [c Hc].
  rewrite (Tracker_update_single (-1) (fixed_auction [0])
             (sample_tracker [sample_track 0 Confirmed 2 1])
             (sample_track 0 Confirmed 2 1) sample_robot c 5 eq_refl Hc).
  unfold fixed_auction.
  eexists _, _, _. split; [vm_compute; reflexivity|].
  repeat split.
Qed.
End TrackerRuns.

Section CostRuns.
Local Existing Instance LastSeen_filter.
Local Open Scope R_scope.


(** A tracker whose distance threshold is zero and that weighs the
    distance alone, and a robot located where the track is. *)
Definition zero_thresh_tracker : Tracker LastSeen :=
  mkTracker 3 2 3 5 (1#2) 1 0 (mkPoint3f (1#10) (1#10) (1#10)) 100 0 7 [].

Definition robot_at_origin : Robot :=
  setLocation (mkPoint3f 0 0 0) (Robot_new sample_car [sample_armor 1 (9#10)]).

End CostRuns.

Section LocatorRun.
(** Two frames on the small camera: a far point fills the background at
    pixel (1, 1), a nearer point on the same ray is foreground in the second
    frame; clustering indexes it and the search places the robot on it. *)
Example locate_moving_point :
  let L1 := update (Some [mkPoint3f 10 10 10]) sample_locator in
  let L2 := update (Some [mkPoint3f 5 5 5]) L1 in
  let L3 := cluster (fun _ => [[0]]) L2 in
  background_depth_image_ L2 1 1 = 10%Q /\
  diff_depth_image_ L2 1 1 = 5%Q /\
  cloud_foreground_ L3 = [mkPoint3f 5 5 5] /\
  point_index_map_ L3 !! (1, 1) = Some 0 /\
  exists robot',
    search L3 (Robot_new (Detection.mk 0 0 4 4 0 1) []) = Returns robot' /\
    location_ robot' = Some (mkPoint3f 5 5 5).
Proof.
  vm_compute. repeat split. eexists. split; reflexivity.
Qed.
End LocatorRun.

Section MissCount.
Context {F : Type} `{TrackFilter F}.

(** A Tentative track has no miss on record. *)
Definition tentative_fresh (track : Track F) : Prop :=
  state_ track = Tentative -> miss_count_ track = 0.

Lemma track_new_fresh location feat timestamp id max_acc tau noise :
  tentative_fresh (track_new location feat timestamp id max_acc tau noise).
Proof. intros _. reflexivity. Qed.

Lemma track_predict_fresh timestamp (track : Track F) :
  tentative_fresh track -> tentative_fresh (track_predict timestamp track).
Proof. intros Hf. exact Hf. Qed.

Lemma mark_missed_fresh (T : Tracker F) track :
  tentative_fresh track -> tentative_fresh (mark_missed T track).
Proof.
  intros Hf Hs. rewrite mark_missed_state in Hs.
  destruct (state_ track); try discriminate.
  destruct (miss_thresh_ T <=? miss_count_ track + 1); discriminate.
Qed.

Lemma mark_matched_fresh (T : Tracker F) location feat track :
  tentative_fresh track -> tentative_fresh (mark_matched T location feat track).
Proof.
  intros Hf Hs. rewrite mark_matched_state in Hs. rewrite mark_matched_miss_count.
  unfold isTentative. destruct (state_ track) eqn:E; simpl; try discriminate.
  reflexivity.
Qed.

(** On such tracks the assignment [miss_count_ = 0] of the matched branch
    changes nothing: it sits in the Tentative branch, where the counter is
    zero already, and a Confirmed track keeps the misses it has. *)
Lemma mark_matched_never_resets (T : Tracker F) location feat track :
  tentative_fresh track ->
  miss_count_ (mark_matched T location feat track) = miss_count_ track.
Proof.
  intros Hf. rewrite mark_matched_miss_count. unfold isTentative.
  destruct (state_ track) eqn:E; simpl; try reflexivity.
  symmetry. apply Hf. exact E.
Qed.
End MissCount.

(** *** [Tracker::update] returns on well-formed assignments *)

Section EraseFacts.

Lemma erase_at_returns (v : list Z) : forall (i : nat) a,
  v !! i = Some a -> erase_at i v = Returns (take i v ++ drop (S i) v).
Proof.
  induction v as [|b rest IH]; intros [|i] a Hl; simpl in *; try discriminate.
  - rewrite drop_0. reflexivity.
  - rewrite (IH i a Hl). reflexivity.
Qed.

Lemma elem_of_insert_desc a b (v : list Z) : b ∈ insert_desc a v <-> b = a \/ b ∈ v.
Proof.
  induction v as [|c rest IH]; simpl.
  - rewrite list_elem_of_singleton. split; [auto|intros [?|Hn]; [auto|inversion Hn]].
  - destruct (c <? a); rewrite !elem_of_cons; [tauto|]. rewrite IH. tauto.
Qed.

Lemma elem_of_sort_desc b (v : list Z) : b ∈ sort_desc v <-> b ∈ v.
Proof.
  induction v as [|a rest IH]; simpl; [reflexivity|].
  rewrite elem_of_insert_desc, elem_of_cons, IH. reflexivity.
Qed.

(** Decreasing, without repetition. *)
Inductive strictly_desc : list Z -> Prop :=
| strictly_desc_nil : strictly_desc []
| strictly_desc_cons a v :
    Forall (fun b => b < a) v -> strictly_desc v -> strictly_desc (a :: v).

Lemma insert_desc_strict a (v : list Z) :
  a ∉ v -> strictly_desc v -> strictly_desc (insert_desc a v).
Proof.
  intros Hnot Hs. induction Hs as [|b rest Hlt Hs IH]; simpl.
  - repeat constructor.
  - apply not_elem_of_cons in Hnot. destruct Hnot as [Hne Hnot].
    destruct (b <? a) eqn:E.
    + apply Z.ltb_lt in E. constructor; [|constructor; assumption].
      constructor; [exact E|]. eapply Forall_impl; [exact Hlt|]. simpl. lia.
    + apply Z.ltb_ge in E. constructor; [|apply IH; exact Hnot].
      apply Forall_forall. intros c Hc. apply elem_of_insert_desc in Hc.
      destruct Hc as [->|Hc]; [lia|].
      rewrite Forall_forall in Hlt. apply Hlt. exact Hc.
Qed.

Lemma sort_desc_strict (v : list Z) : NoDup v -> strictly_desc (sort_desc v).
Proof.
  induction 1 as [|a rest Hnot Hnd IH]; simpl; [constructor|].
  apply insert_desc_strict; [|exact IH]. rewrite elem_of_sort_desc. exact Hnot.
Qed.

(** Erasing decreasing positions below [bound] from a vector that still
    holds [i] at every position [i < bound]. *)
Lemma erase_all_returns (matched : list Z) : forall (unmatched : list Z) (bound : Z),
  strictly_desc matched ->
  Forall (fun m => 0 <= m < bound) matched ->
  (forall i : nat, Z.of_nat i < bound -> unmatched !! i = Some (Z.of_nat i)) ->
  NoDup unmatched ->
  exists rest,
    erase_all matched unmatched = Returns rest /\
    (forall e, e ∈ rest <-> e ∈ unmatched /\ e ∉ matched).
Proof.
  induction matched as [|m ms IH]; intros unmatched bound Hdesc Hrange Hprefix Hnd; simpl.
  - exists unmatched. split; [reflexivity|]. intros e. split; [|tauto].
    intros He. split; [exact He|]. apply not_elem_of_nil.
  - inversion Hdesc as [|? ? Hlt Hdesc']; subst.
    inversion Hrange as [|? ? Hm Hrange']; subst.
    assert (unmatched !! Z.to_nat m = Some m) as Hat.
    { rewrite <- (Z2Nat.id m) at 2 by lia. apply Hprefix. lia. }
    unfold erase. assert ((m <? 0) = false) as -> by (apply Z.ltb_ge; lia).
    rewrite (erase_at_returns _ _ _ Hat). simpl.
    pose proof (take_drop_middle _ _ _ Hat) as Hsplit.
    assert (NoDup (take (Z.to_nat m) unmatched ++ m :: drop (S (Z.to_nat m)) unmatched))
      as Hnd' by (rewrite Hsplit; exact Hnd).
    apply NoDup_app in Hnd'. destruct Hnd' as (Hnd1 & Hdisj & Hnd2).
    apply NoDup_cons in Hnd2. destruct Hnd2 as [Hm2 Hnd2].
    destruct (IH (take (Z.to_nat m) unmatched ++ drop (S (Z.to_nat m)) unmatched) m)
      as (rest & Hrest & Hiff).
    + exact Hdesc'.
    + rewrite Forall_forall in Hlt, Hrange'. apply Forall_forall. intros b Hb.
      specialize (Hlt b Hb). specialize (Hrange' b Hb). simpl in *. lia.
    + intros i Hi. rewrite lookup_app_l.
      * rewrite lookup_take_lt by lia. apply Hprefix. lia.
      * rewrite length_take. apply lookup_lt_Some in Hat. lia.
    + apply NoDup_app. split; [exact Hnd1|]. split; [|exact Hnd2].
      intros e He1 He2. apply (Hdisj e He1). right. exact He2.
    + exists rest. split; [exact Hrest|]. intros e. rewrite Hiff. split.
      * intros [He Hnot]. apply elem_of_app in He. split.
        -- rewrite <- Hsplit. apply elem_of_app.
           destruct He as [He|He]; [left; exact He|right].
           apply elem_of_cons. right. exact He.
        -- apply not_elem_of_cons. split; [|exact Hnot]. intros ->.
           destruct He as [He|He]; [|exact (Hm2 He)].
           apply (Hdisj m He). apply elem_of_cons. left. reflexivity.
      * intros [He Hnot]. apply not_elem_of_cons in Hnot. destruct Hnot as [Hne Hnot].
        split; [|exact Hnot]. rewrite <- Hsplit in He. apply elem_of_app in He.
        apply elem_of_app. destruct He as [He|He]; [left; exact He|].
        apply elem_of_cons in He. destruct He as [->|He]; [contradiction|].
        right. exact He.
Qed.

Lemma seqZ_prefix (n : Z) (i : nat) :
  Z.of_nat i < n -> seqZ 0 n !! i = Some (Z.of_nat i).
Proof.
  intros Hi. rewrite lookup_seqZ_lt by lia. f_equal; lia.
Qed.

Lemma erase_matched_returns (matched : list Z) (n : Z) :
  NoDup matched -> Forall (fun m => 0 <= m < n) matched ->
  exists rest,
    erase_all (sort_desc matched) (seqZ 0 n) = Returns rest /\
    (forall e, e ∈ rest <-> 0 <= e < n /\ e ∉ matched).
Proof.
  intros Hnd Hrange.
  destruct (erase_all_returns (sort_desc matched) (seqZ 0 n) n) as (rest & Hrest & Hiff).
  - apply sort_desc_strict. exact Hnd.
  - apply Forall_forall. intros m Hm. rewrite elem_of_sort_desc in Hm.
    rewrite Forall_forall in Hrange. exact (Hrange m Hm).
  - intros i Hi. apply seqZ_prefix. exact Hi.
  - apply NoDup_seqZ.
  - exists rest. split; [exact Hrest|]. intros e. rewrite Hiff, elem_of_seqZ.
    rewrite elem_of_sort_desc. split; intros [? ?]; split; auto; lia.
Qed.
End EraseFacts.

Section UpdateReturns.
Context {F : Type} `{TrackFilter F}.
Variable kNotMatched : Z.
Variable auction : list (list R) -> Z -> list Z.

(** The robot indices of an assignment, sentinels left out. *)
Definition matched_of (match_result : list Z) : list Z :=
  filter (fun e => e <> kNotMatched) match_result.

(** An assignment is well formed for [n_tracks] tracks and [n_robots]
    robots: no longer than the track list, every entry the sentinel or a
    robot index, and no robot given to two tracks. *)
Definition well_formed (n_tracks n_robots : nat) (match_result : list Z) : Prop :=
  (length match_result <= n_tracks)%nat /\
  Forall (fun e => e = kNotMatched \/ 0 <= e < Z.of_nat n_robots) match_result /\
  NoDup (matched_of match_result).

Lemma feature_setTrack class_num (track : Track F) robot :
  is_Some (label_ robot) ->
  feature class_num (setTrack track robot) = feature class_num robot.
Proof.
  intros [l Hl]. unfold feature, setTrack, isDetected.
  destruct (isConfirmed track); simpl; rewrite Hl; reflexivity.
Qed.

Lemma match_loop_returns (T : Tracker F) (match_result : list Z) :
  forall (track_id : nat) tracks robots matched,
    (track_id + length match_result <= length tracks)%nat ->
    Forall (fun e => e = kNotMatched \/ 0 <= e < Z.of_nat (length robots)) match_result ->
    NoDup (matched ++ matched_of match_result) ->
    (forall (j : nat) robot, robots !! j = Some robot -> Z.of_nat j ∉ matched ->
       exists v, feature (class_num_ T) robot = Returns v) ->
    exists tracks' robots',
      match_loop kNotMatched T track_id match_result (tracks, robots, matched) =
        Returns (tracks', robots', matched ++ matched_of match_result) /\
      length tracks' = length tracks /\
      length robots' = length robots /\
      (forall (j : nat) robot, robots' !! j = Some robot ->
         Z.of_nat j ∉ matched ++ matched_of match_result ->
         exists v, feature (class_num_ T) robot = Returns v).
Proof.
  induction match_result as [|robot_id rest IH];
    intros track_id tracks robots matched Hlen Hrange Hnd Hfeat.
  - exists tracks, robots. simpl. unfold matched_of. simpl. rewrite app_nil_r.
    repeat split; try reflexivity. exact Hfeat.
  - simpl in Hlen. inversion Hrange as [|? ? Hid Hrange']; subst.
    destruct (tracks !! track_id) as [track|] eqn:Htrack;
      [|apply lookup_ge_None in Htrack; lia].
    simpl. rewrite Htrack.
    destruct (robot_id =? kNotMatched) eqn:Hk.
    + apply Z.eqb_eq in Hk.
      assert (matched_of (robot_id :: rest) = matched_of rest) as Hm.
      { unfold matched_of. rewrite filter_cons_False; [reflexivity|]. intros Hne. auto. }
      rewrite Hm in *. simpl.
      destruct (IH (S track_id) (<[track_id := mark_missed T track]> tracks)
                   robots matched) as (tracks' & robots' & Hloop & Hlt & Hlr & Hf').
      * rewrite length_insert. lia.
      * exact Hrange'.
      * exact Hnd.
      * exact Hfeat.
      * exists tracks', robots'. rewrite length_insert in Hlt. auto.
    + apply Z.eqb_neq in Hk. destruct Hid as [Hid|Hid]; [contradiction|].
      assert (matched_of (robot_id :: rest) = robot_id :: matched_of rest) as Hm.
      { unfold matched_of. rewrite filter_cons_True; [reflexivity|exact Hk]. }
      rewrite Hm in *.
      assert ((robot_id <? 0) = false) as -> by (apply Z.ltb_ge; lia).
      destruct (robots !! Z.to_nat robot_id) as [robot|] eqn:Hrobot;
        [|apply lookup_ge_None in Hrobot; lia].
      assert (robot_id ∉ matched) as Hfresh.
      { apply NoDup_app in Hnd. destruct Hnd as (_ & Hdisj & _).
        intros Hin. apply (Hdisj robot_id Hin). apply elem_of_cons. left. reflexivity. }
      assert (exists track',
                match location_ robot with
                | Some location =>
                    obind (feature (class_num_ T) robot) (fun feat =>
                      Returns (mark_matched T location feat track))
                | None => Returns track
                end = Returns track') as [track' Htrack'].
      { destruct (location_ robot) as [location|]; [|eauto].
        destruct (Hfeat (Z.to_nat robot_id) robot Hrobot) as [v Hv].
        - rewrite Z2Nat.id by lia. exact Hfresh.
        - rewrite Hv. simpl. eauto. }
      rewrite Htrack'. simpl.
      destruct (IH (S track_id) (<[track_id := track']> tracks)
                   (<[Z.to_nat robot_id := setTrack track' robot]> robots)
                   (matched ++ [robot_id]))
        as (tracks' & robots' & Hloop & Hlt & Hlr & Hf').
      * rewrite length_insert. lia.
      * rewrite length_insert. exact Hrange'.
      * rewrite <- app_assoc. exact Hnd.
      * intros j r Hj Hnot. rewrite not_elem_of_app in Hnot.
        destruct Hnot as [Hnot Hne]. rewrite list_elem_of_singleton in Hne.
        rewrite list_lookup_insert_ne in Hj by lia.
        exact (Hfeat j r Hj Hnot).
      * rewrite <- app_assoc in Hloop, Hf'. simpl in Hloop, Hf'.
        rewrite !length_insert in *.
        exists tracks', robots'. auto.
Qed.

Lemma init_loop_returns (T : Tracker F) timestamp (unmatched : list Z) :
  forall tracks robots latest_id,
    (forall index, index ∈ unmatched -> 0 <= index < Z.of_nat (length robots)) ->
    (forall (j : nat) robot, robots !! j = Some robot -> Z.of_nat j ∈ unmatched ->
       exists v, feature (class_num_ T) robot = Returns v) ->
    exists st', init_loop T timestamp unmatched (tracks, robots, latest_id) = Returns st'.
Proof.
  induction unmatched as [|index rest IH]; intros tracks robots latest_id Hrange Hfeat;
    simpl; [eauto|].
  assert (0 <= index < Z.of_nat (length robots)) as Hindex
    by (apply Hrange; apply elem_of_cons; left; reflexivity).
  destruct (robots !! Z.to_nat index) as [robot|] eqn:Hrobot;
    [|apply lookup_ge_None in Hrobot; lia].
  assert (forall index', index' ∈ rest -> index' ∈ index :: rest) as Hsub
    by (intros index' Hin; apply elem_of_cons; right; exact Hin).
  destruct (label_ robot) as [l|] eqn:Hlabel;
    [destruct (location_ robot) as [location|] eqn:Hloc|].
  - destruct (Hfeat (Z.to_nat index) robot Hrobot) as [v Hv].
    { rewrite Z2Nat.id by lia. apply elem_of_cons. left. reflexivity. }
    rewrite Hv. simpl. apply IH.
    + intros index' Hin. rewrite length_insert. apply Hrange, Hsub, Hin.
    + intros j r Hj Hin. destruct (decide (j = Z.to_nat index)) as [->|Hne].
      * rewrite list_lookup_insert_eq in Hj by (apply lookup_lt_Some in Hrobot; lia).
        injection Hj as <-. rewrite feature_setTrack by (rewrite Hlabel; eauto).
        eauto.
      * rewrite list_lookup_insert_ne in Hj by congruence.
        apply (Hfeat j r Hj), Hsub, Hin.
  - simpl. apply IH; [intros index' Hin; apply Hrange, Hsub, Hin|].
    intros j r Hj Hin. apply (Hfeat j r Hj), Hsub, Hin.
  - simpl. apply IH; [intros index' Hin; apply Hrange, Hsub, Hin|].
    intros j r Hj Hin. apply (Hfeat j r Hj), Hsub, Hin.
Qed.

(** The phase after the auction returns on every well-formed assignment,
    when [feature] returns for each robot. *)
Lemma assign_returns (T : Tracker F) timestamp tracks robots match_result :
  well_formed (length tracks) (length robots) match_result ->
  Forall (fun robot => exists v, feature (class_num_ T) robot = Returns v) robots ->
  exists T' robots',
    assign kNotMatched T timestamp tracks robots match_result = Returns (T', robots').
Proof.
  intros (Hlen & Hrange & Hnd) Hfeat. unfold assign.
  destruct (match_loop_returns T match_result 0 tracks robots [])
    as (tracks1 & robots1 & Hloop & Hlt & Hlr & Hf1).
  - simpl. lia.
  - exact Hrange.
  - exact Hnd.
  - intros j robot Hj _. rewrite Forall_forall in Hfeat. apply Hfeat.
    eapply list_elem_of_lookup_2. exact Hj.
  - rewrite Hloop. simpl.
    destruct (erase_matched_returns (matched_of match_result)
                (Z.of_nat (length robots1))) as (unmatched & Herase & Hiff).
    + exact Hnd.
    + rewrite Hlr. apply Forall_forall. intros m Hm. unfold matched_of in Hm.
      apply list_elem_of_filter in Hm. destruct Hm as [Hne Hm].
      rewrite Forall_forall in Hrange. destruct (Hrange m Hm); [contradiction|lia].
    + rewrite Herase. simpl.
      destruct (init_loop_returns T timestamp unmatched tracks1 robots1 (latest_id_ T))
        as [[[tracks2 robots2] latest] Hinit].
      * intros index Hin. apply Hiff in Hin. tauto.
      * intros j robot Hj Hin. apply Hiff in Hin. apply (Hf1 j robot Hj). tauto.
      * rewrite Hinit. simpl. eauto.
Qed.

Lemma sequence_returns {A} (l : list (outcome A)) :
  Forall (fun o => exists a, o = Returns a) l -> exists r, sequence l = Returns r.
Proof.
  induction 1 as [|o rest [a ->] _ [r IH]]; simpl; [eauto|].
  rewrite IH. simpl. eauto.
Qed.

Lemma cost_matrix_returns (T : Tracker F) tracks robots :
  Forall (fun robot =>
            exists v, feature (class_num_ T) robot = Returns v /\
                      Forall (fun track => length (track_feature track) = length v) tracks)
         robots ->
  exists cost, cost_matrix T tracks robots = Returns cost.
Proof.
  intros Hfeat. unfold cost_matrix. apply sequence_returns.
  apply Forall_forall. intros row Hrow. apply list_elem_of_fmap in Hrow.
  destruct Hrow as (track & -> & Htrack). apply sequence_returns.
  apply Forall_forall. intros entry Hentry. apply list_elem_of_fmap in Hentry.
  destruct Hentry as (robot & -> & Hrobot).
  rewrite Forall_forall in Hfeat. destruct (Hfeat robot Hrobot) as (v & Hv & Hlen).
  rewrite Forall_forall in Hlen.
  apply (cost_entry_returns T track robot v Hv). symmetry. apply Hlen. exact Htrack.
Qed.

(** X1. [Tracker::update] returns when [feature] returns for each robot with
    the length of the track features, and the auction answers with a
    well-formed assignment. *)
Lemma Tracker_update_returns (T : Tracker F) robots timestamp :
  Forall (fun robot =>
            exists v, feature (class_num_ T) robot = Returns v /\
                      Forall (fun track => length (track_feature track) = length v)
                             (map (track_predict timestamp) (tracks_ T)))
         robots ->
  (forall cost, well_formed (length (tracks_ T)) (length robots)
                            (auction cost (max_iter_ T))) ->
  exists T' robots',
    Tracker_update kNotMatched auction T robots timestamp = Returns (T', robots').
Proof.
  intros Hfeat Hauction. unfold Tracker_update.
  destruct (cost_matrix_returns T _ robots Hfeat) as [cost Hcost].
  rewrite Hcost. simpl. apply assign_returns.
  - rewrite length_map. apply Hauction.
  - eapply Forall_impl; [exact Hfeat|]. simpl. intros robot (v & Hv & _). eauto.
Qed.
End UpdateReturns.


(** The earlier class resets its miss counter on every update, whatever
    the state of the track. *)
Lemma legacy_update_resets (tr : LegacyTrack.t) :
  LegacyTrack.time_since_update (LegacyTrack.update tr) = 0.
Proof. reflexivity. Qed.

(** * Further properties of the tracker *)

Section TrackerInvariants.
Context {F : Type} `{TrackFilter F}.
Variable kNotMatched : Z.
Variable auction : list (list R) -> Z -> list Z.

(** A property of single tracks that the three ways in which
    [Tracker::update] makes or changes a track all keep. *)
Definition track_invariant (T : Tracker F) (P : Track F -> Prop) : Prop :=
  (forall timestamp track, P track -> P (track_predict timestamp track)) /\
  (forall track, P track -> P (mark_missed T track)) /\
  (forall location feat track, P track -> P (mark_matched T location feat track)) /\
  (forall location feat timestamp id,
     P (track_new location feat timestamp id (max_acc_ T) (tau_ T)
                  (measurement_noise_ T))).

Lemma match_step_Forall (T : Tracker F) (P : Track F -> Prop)
      tracks robots matched track_id robot_id tracks' robots' matched' :
  track_invariant T P ->
  Forall P tracks ->
  match_step kNotMatched T (tracks, robots, matched) track_id robot_id =
    Returns (tracks', robots', matched') ->
  Forall P tracks'.
Proof.
  intros (_ & Hmiss & Hmatch & _) Hall. unfold match_step.
  destruct (tracks !! track_id) as [track|] eqn:Htrack; [|discriminate].
  assert (P track) as Htr.
  { rewrite Forall_forall in Hall. apply Hall. eapply list_elem_of_lookup_2. exact Htrack. }
  destruct (robot_id =? kNotMatched).
  - intros [= <- _ _]. apply Forall_insert; [exact Hall|]. apply Hmiss. exact Htr.
  - destruct (robot_id <? 0); [discriminate|].
    destruct (robots !! Z.to_nat robot_id) as [robot|]; [|discriminate].
    destruct (location_ robot) as [location|].
    + destruct (feature (class_num_ T) robot) as [feat|]; simpl; [|discriminate].
      intros [= <- _ _]. apply Forall_insert; [exact Hall|]. apply Hmatch. exact Htr.
    + simpl. intros [= <- _ _]. apply Forall_insert; assumption.
Qed.

Lemma match_loop_Forall (T : Tracker F) (P : Track F -> Prop) (match_result : list Z) :
  track_invariant T P ->
  forall track_id tracks robots matched tracks' robots' matched',
    Forall P tracks ->
    match_loop kNotMatched T track_id match_result (tracks, robots, matched) =
      Returns (tracks', robots', matched') ->
    Forall P tracks'.
Proof.
  intros Hinv. induction match_result as [|robot_id rest IH];
    intros track_id tracks robots matched tracks' robots' matched' Hall;
    cbn [match_loop].
  - intros [= <- _ _]. exact Hall.
  - destruct (match_step kNotMatched T (tracks, robots, matched) track_id robot_id)
      as [[[tracks1 robots1] matched1]|] eqn:Hstep; simpl; [|discriminate].
    apply IH. eapply match_step_Forall; eauto.
Qed.

Lemma init_loop_Forall (T : Tracker F) (P : Track F -> Prop) timestamp
      (unmatched : list Z) :
  track_invariant T P ->
  forall tracks robots latest tracks' robots' latest',
    Forall P tracks ->
    init_loop T timestamp unmatched (tracks, robots, latest) =
      Returns (tracks', robots', latest') ->
    Forall P tracks'.
Proof.
  intros Hinv. induction unmatched as [|index rest IH];
    intros tracks robots latest tracks' robots' latest' Hall; cbn [init_loop].
  - intros [= <- _ _]. exact Hall.
  - unfold init_step.
    destruct (robots !! Z.to_nat index) as [robot|]; simpl; [|discriminate].
    destruct (label_ robot) as [l|]; [destruct (location_ robot) as [location|]|];
      simpl; try (apply IH; exact Hall).
    destruct (feature (class_num_ T) robot) as [feat|]; simpl; [|discriminate].
    apply IH. apply Forall_app. split; [exact Hall|]. constructor; [|constructor].
    apply Hinv.
Qed.

Lemma assign_Forall (T T' : Tracker F) (P : Track F -> Prop) timestamp
      tracks robots robots' match_result :
  track_invariant T P ->
  Forall P tracks ->
  assign kNotMatched T timestamp tracks robots match_result = Returns (T', robots') ->
  Forall P (tracks_ T').
Proof.
  intros Hinv Hall. unfold assign.
  destruct (match_loop kNotMatched T 0 match_result (tracks, robots, []))
    as [[[tracks1 robots1] matched]|] eqn:Hloop; simpl; [|discriminate].
  destruct (erase_all (sort_desc matched) (seqZ 0 (Z.of_nat (length robots1))))
    as [unmatched|]; simpl; [|discriminate].
  destruct (init_loop T timestamp unmatched (tracks1, robots1, latest_id_ T))
    as [[[tracks2 robots2] latest]|] eqn:Hinit; simpl; [|discriminate].
  intros [= <- _]. simpl.
  assert (Forall P tracks2) as Hall2.
  { eapply init_loop_Forall; [exact Hinv| |exact Hinit].
    eapply match_loop_Forall; [exact Hinv|exact Hall|exact Hloop]. }
  apply Forall_forall. intros track Hin. apply list_elem_of_filter in Hin.
  rewrite Forall_forall in Hall2. apply Hall2. tauto.
Qed.

(** Every track that [Tracker::update] leaves in the list has a property
    that the tracks had before and that single-track steps keep. *)
Lemma Tracker_update_Forall (T T' : Tracker F) (P : Track F -> Prop)
      robots robots' timestamp :
  track_invariant T P ->
  Forall P (tracks_ T) ->
  Tracker_update kNotMatched auction T robots timestamp = Returns (T', robots') ->
  Forall P (tracks_ T').
Proof.
  intros Hinv Hall. unfold Tracker_update.
  destruct (cost_matrix T (map (track_predict timestamp) (tracks_ T)) robots)
    as [cost|]; simpl; [|discriminate].
  apply assign_Forall; [exact Hinv|].
  apply Forall_fmap. eapply Forall_impl; [exact Hall|].
  intros track Htr. simpl. apply Hinv. exact Htr.
Qed.

Lemma Tracker_update_thresholds (T T' : Tracker F) robots robots' timestamp :
  Tracker_update kNotMatched auction T robots timestamp = Returns (T', robots') ->
  miss_thresh_ T' = miss_thresh_ T /\ init_thresh_ T' = init_thresh_ T /\
  class_num_ T' = class_num_ T.
Proof.
  unfold Tracker_update, assign.
  destruct (cost_matrix T (map (track_predict timestamp) (tracks_ T)) robots)
    as [cost|]; simpl; [|discriminate].
  destruct (match_loop kNotMatched T 0 (auction cost (max_iter_ T))
              (map (track_predict timestamp) (tracks_ T), robots, []))
    as [[[tracks1 robots1] matched]|]; simpl; [|discriminate].
  destruct (erase_all (sort_desc matched) (seqZ 0 (Z.of_nat (length robots1))))
    as [unmatched|]; simpl; [|discriminate].
  destruct (init_loop T timestamp unmatched (tracks1, robots1, latest_id_ T))
    as [[[tracks2 robots2] latest]|]; simpl; [|discriminate].
  intros [= <- _]. simpl. auto.
Qed.

(** A Confirmed track has fewer misses than the threshold. *)
Definition misses_below_threshold (T : Tracker F) (track : Track F) : Prop :=
  state_ track = Confirmed -> miss_count_ track < miss_thresh_ T.

Lemma misses_below_threshold_invariant (T : Tracker F) :
  0 < miss_thresh_ T -> track_invariant T (misses_below_threshold T).
Proof.
  intros Hpos. unfold track_invariant, misses_below_threshold. repeat split.
  - intros timestamp track Hp. exact Hp.
  - intros track Hp. rewrite mark_missed_state.
    destruct track as [id s ic mc e]. simpl in *.
    unfold mark_missed, isTentative, isConfirmed, set_miss_count, setState. simpl.
    destruct s; simpl; try discriminate.
    destruct (miss_thresh_ T <=? mc + 1) eqn:E; simpl; [discriminate|].
    intros _. apply Z.leb_gt in E. exact E.
  - intros location feat track Hp. rewrite mark_matched_state, mark_matched_miss_count.
    unfold isTentative. destruct (state_ track) eqn:Hs; simpl.
    + intros _. apply Hp. reflexivity.
    + intros _. exact Hpos.
    + discriminate.
  - intros location feat timestamp id. simpl. discriminate.
Qed.
End TrackerInvariants.


Section TrackerIds.
Context {F : Type} `{TrackFilter F}.
Variable kNotMatched : Z.
Variable auction : list (list R) -> Z -> list Z.

(** Two robots with the same rectangle, confidence and armors. *)
Definition same_detection (r r' : Robot) : Prop :=
  rect_ r' = rect_ r /\ confidence_ r' = confidence_ r /\ armors_ r' = armors_ r.

Lemma same_detection_refl (robots : list Robot) : Forall2 same_detection robots robots.
Proof.
  apply Forall2_same_length_lookup_2; [reflexivity|].
  intros i r r' Hr Hr'. rewrite Hr in Hr'. injection Hr' as <-.
  unfold same_detection. auto.
Qed.

Lemma same_detection_trans (a b c : list Robot) :
  Forall2 same_detection a b -> Forall2 same_detection b c ->
  Forall2 same_detection a c.
Proof.
  intros Hab. revert c. induction Hab as [|x y a b Hxy Hab IH]; intros c Hbc.
  - inversion Hbc. constructor.
  - inversion Hbc as [|? z ? c' Hyz Hbc']; subst. constructor; [|apply IH; exact Hbc'].
    unfold same_detection in *. destruct Hxy as (? & ? & ?), Hyz as (? & ? & ?).
    repeat split; congruence.
Qed.

Lemma same_detection_setTrack (robots : list Robot) i robot (track : Track F) :
  robots !! i = Some robot ->
  Forall2 same_detection robots (<[i := setTrack track robot]> robots).
Proof.
  intros Hrobot.
  apply Forall2_same_length_lookup_2; [rewrite length_insert; reflexivity|].
  intros j r r' Hr Hr'. destruct (decide (j = i)) as [->|Hne].
  - rewrite list_lookup_insert_eq in Hr' by (apply lookup_lt_Some in Hrobot; lia).
    injection Hr' as <-. rewrite Hrobot in Hr. injection Hr as <-.
    apply setTrack_keeps_detection.
  - rewrite list_lookup_insert_ne in Hr' by congruence.
    rewrite Hr in Hr'. injection Hr' as <-. unfold same_detection. auto.
Qed.

Lemma mark_missed_id (T : Tracker F) track :
  track_id_ (mark_missed T track) = track_id_ track.
Proof.
  destruct track as [id s ic mc e].
  unfold mark_missed, isTentative, isConfirmed, set_miss_count, setState. simpl.
  destruct s; simpl; try reflexivity.
  destruct (miss_thresh_ T <=? mc + 1); reflexivity.
Qed.

Lemma mark_matched_id (T : Tracker F) location feat track :
  track_id_ (mark_matched T location feat track) = track_id_ track.
Proof.
  destruct track as [id s ic mc e].
  unfold mark_matched, isTentative, track_update, set_init_count, set_miss_count,
    setState. simpl.
  destruct s; simpl; try reflexivity.
  destruct (init_thresh_ T <=? ic + 1); reflexivity.
Qed.

Lemma insert_same_id (tracks : list (Track F)) i track track' :
  tracks !! i = Some track -> track_id_ track' = track_id_ track ->
  map track_id_ (<[i := track']> tracks) = map track_id_ tracks.
Proof.
  intros Hl Hid. change (map track_id_) with (fmap (M:=list) (@track_id_ F)).
  rewrite list_fmap_insert, Hid. apply list_insert_id.
  rewrite list_lookup_fmap, Hl. reflexivity.
Qed.

Lemma match_step_shape (T : Tracker F) tracks robots matched track_id robot_id
      tracks' robots' matched' :
  match_step kNotMatched T (tracks, robots, matched) track_id robot_id =
    Returns (tracks', robots', matched') ->
  map track_id_ tracks' = map track_id_ tracks /\
  Forall2 same_detection robots robots'.
Proof.
  unfold match_step.
  destruct (tracks !! track_id) as [track|] eqn:Htrack; [|discriminate].
  destruct (robot_id =? kNotMatched).
  - intros [= <- <- _]. split; [|apply same_detection_refl].
    eapply insert_same_id; [exact Htrack|apply mark_missed_id].
  - destruct (robot_id <? 0); [discriminate|].
    destruct (robots !! Z.to_nat robot_id) as [robot|] eqn:Hrobot; [|discriminate].
    destruct (location_ robot) as [location|].
    + destruct (feature (class_num_ T) robot) as [feat|]; simpl; [|discriminate].
      intros [= <- <- _]. split; [|apply same_detection_setTrack; exact Hrobot].
      eapply insert_same_id; [exact Htrack|apply mark_matched_id].
    + simpl. intros [= <- <- _]. split; [|apply same_detection_setTrack; exact Hrobot].
      eapply insert_same_id; [exact Htrack|reflexivity].
Qed.

Lemma match_loop_shape (T : Tracker F) (match_result : list Z) :
  forall track_id tracks robots matched tracks' robots' matched',
    match_loop kNotMatched T track_id match_result (tracks, robots, matched) =
      Returns (tracks', robots', matched') ->
    map track_id_ tracks' = map track_id_ tracks /\
    Forall2 same_detection robots robots'.
Proof.
  induction match_result as [|robot_id rest IH];
    intros track_id tracks robots matched tracks' robots' matched'; cbn [match_loop].
  - intros [= <- <- _]. split; [reflexivity|apply same_detection_refl].
  - destruct (match_step kNotMatched T (tracks, robots, matched) track_id robot_id)
      as [[[tracks1 robots1] matched1]|] eqn:Hstep; simpl; [|discriminate].
    intros Hloop. apply match_step_shape in Hstep. apply IH in Hloop.
    destruct Hstep as [Hid1 Hr1], Hloop as [Hid2 Hr2].
    split; [congruence|]. eapply same_detection_trans; eassumption.
Qed.

Lemma init_loop_shape (T : Tracker F) timestamp (unmatched : list Z) :
  forall tracks robots latest tracks' robots' latest',
    init_loop T timestamp unmatched (tracks, robots, latest) =
      Returns (tracks', robots', latest') ->
    exists new,
      tracks' = tracks ++ new /\
      map track_id_ new = seqZ latest (Z.of_nat (length new)) /\
      latest' = latest + Z.of_nat (length new) /\
      Forall (fun track => state_ track = Tentative) new /\
      Forall2 same_detection robots robots'.
Proof.
  induction unmatched as [|index rest IH];
    intros tracks robots latest tracks' robots' latest'; cbn [init_loop].
  - intros [= <- <- <-]. exists []. rewrite app_nil_r. simpl.
    repeat split; [lia|constructor|apply same_detection_refl].
  - unfold init_step.
    destruct (robots !! Z.to_nat index) as [robot|] eqn:Hrobot; simpl; [|discriminate].
    destruct (label_ robot) as [l|]; [destruct (location_ robot) as [location|]|];
      simpl; try (apply IH).
    destruct (feature (class_num_ T) robot) as [feat|]; simpl; [|discriminate].
    intros Hloop. apply IH in Hloop.
    destruct Hloop as (new & -> & Hids & -> & Htent & Hrob).
    eexists (_ :: new). rewrite <- app_assoc. simpl. split; [reflexivity|].
    split.
    { rewrite Hids. replace (Z.of_nat (S (length new))) with (Z.succ (Z.of_nat (length new)))
        by lia. rewrite (seqZ_cons latest) by lia. f_equal. f_equal; lia. }
    split; [lia|]. split; [constructor; [reflexivity|exact Htent]|].
    eapply same_detection_trans; [|exact Hrob].
    apply same_detection_setTrack. exact Hrobot.
Qed.

(** The parts of [Tracker::update] put together: the surviving tracks are
    old tracks (predicted, then marked) or new Tentative tracks numbered from
    [latest_id_] on, and the robots keep their detection. *)
Lemma Tracker_update_shape (T T' : Tracker F) robots robots' timestamp :
  Tracker_update kNotMatched auction T robots timestamp = Returns (T', robots') ->
  exists old new,
    map track_id_ old = map track_id_ (tracks_ T) /\
    map track_id_ new = seqZ (latest_id_ T) (Z.of_nat (length new)) /\
    latest_id_ T' = latest_id_ T + Z.of_nat (length new) /\
    tracks_ T' = filter (fun track => isDeleted track = false) (old ++ new) /\
    Forall (fun track => state_ track = Tentative) new /\
    Forall2 same_detection robots robots'.
Proof.
  unfold Tracker_update, assign.
  destruct (cost_matrix T (map (track_predict timestamp) (tracks_ T)) robots)
    as [cost|]; simpl; [|discriminate].
  destruct (match_loop kNotMatched T 0 (auction cost (max_iter_ T))
              (map (track_predict timestamp) (tracks_ T), robots, []))
    as [[[tracks1 robots1] matched]|] eqn:Hloop; simpl; [|discriminate].
  destruct (erase_all (sort_desc matched) (seqZ 0 (Z.of_nat (length robots1))))
    as [unmatched|]; simpl; [|discriminate].
  destruct (init_loop T timestamp unmatched (tracks1, robots1, latest_id_ T))
    as [[[tracks2 robots2] latest]|] eqn:Hinit; simpl; [|discriminate].
  intros [= <- <-]. simpl.
  apply match_loop_shape in Hloop. destruct Hloop as [Hid1 Hr1].
  apply init_loop_shape in Hinit.
  destruct Hinit as (new & -> & Hids & -> & Htent & Hr2).
  exists tracks1, new. repeat split; try assumption.
  - rewrite Hid1. rewrite map_map. reflexivity.
  - eapply same_detection_trans; eassumption.
Qed.
End TrackerIds.


Section TrackerGuarantees.
Context {F : Type} `{TrackFilter F}.
Variable kNotMatched : Z.
Variable auction : list (list R) -> Z -> list Z.

(** X2. With a positive miss threshold, [Tracker::update] keeps every Confirmed
    track of the list below the threshold: a Confirmed track that reaches it
    is deleted in the same call, and a track is promoted with no miss on
    record. *)
Theorem confirmed_tracks_stay_below_miss_thresh
        (T T' : Tracker F) (robots robots' : list Robot) (timestamp : Z) :
  0 < miss_thresh_ T ->
  Forall (misses_below_threshold T) (tracks_ T) ->
  Tracker_update kNotMatched auction T robots timestamp = Returns (T', robots') ->
  miss_thresh_ T' = miss_thresh_ T /\
  Forall (misses_below_threshold T') (tracks_ T').
Proof.
  intros Hpos Hall Hret.
  destruct (Tracker_update_thresholds kNotMatched auction T T' robots robots'
              timestamp Hret) as (Hm & _ & _).
  split; [exact Hm|].
  pose proof (Tracker_update_Forall kNotMatched auction T T' _ robots robots' timestamp
                (misses_below_threshold_invariant T Hpos) Hall Hret) as Hall'.
  eapply Forall_impl; [exact Hall'|]. intros track Htr.
  unfold misses_below_threshold in *. rewrite Hm. exact Htr.
Qed.

Lemma erase_at_length (index : nat) : forall v v',
  erase_at index v = Returns v' -> length v = S (length v').
Proof.
  induction index as [|i IH]; intros [|a v] v'; simpl; try discriminate.
  - intros [= <-]. reflexivity.
  - destruct (erase_at i v) as [r|] eqn:Hr; simpl; [|discriminate].
    intros [= <-]. simpl. f_equal. apply IH. exact Hr.
Qed.

Lemma erase_all_length (matched : list Z) : forall v v',
  erase_all matched v = Returns v' -> (length v' <= length v)%nat.
Proof.
  induction matched as [|m rest IH]; intros v v'; simpl.
  - intros [= <-]. lia.
  - unfold erase. destruct (m <? 0); simpl; [discriminate|].
    destruct (erase_at (Z.to_nat m) v) as [v1|] eqn:He; simpl; [|discriminate].
    intros Hrest. apply IH in Hrest. apply erase_at_length in He. lia.
Qed.

Lemma init_loop_count (T : Tracker F) timestamp (unmatched : list Z) :
  forall tracks robots latest tracks' robots' latest',
    init_loop T timestamp unmatched (tracks, robots, latest) =
      Returns (tracks', robots', latest') ->
    latest <= latest' <= latest + Z.of_nat (length unmatched).
Proof.
  induction unmatched as [|index rest IH];
    intros tracks robots latest tracks' robots' latest'; cbn [init_loop].
  - intros [= _ _ <-]. simpl. lia.
  - unfold init_step.
    destruct (robots !! Z.to_nat index) as [robot|]; simpl; [|discriminate].
    destruct (label_ robot) as [l|]; [destruct (location_ robot) as [location|]|];
      simpl; try (intros Hloop; apply IH in Hloop; simpl length; lia).
    destruct (feature (class_num_ T) robot) as [feat|]; simpl; [|discriminate].
    intros Hloop. apply IH in Hloop. simpl length. lia.
Qed.

(** [latest_id_] goes up by one for each new track, at most once for each
    robot. *)
Lemma Tracker_update_latest (T T' : Tracker F) robots robots' timestamp :
  Tracker_update kNotMatched auction T robots timestamp = Returns (T', robots') ->
  latest_id_ T <= latest_id_ T' <= latest_id_ T + Z.of_nat (length robots).
Proof.
  unfold Tracker_update, assign.
  destruct (cost_matrix T (map (track_predict timestamp) (tracks_ T)) robots)
    as [cost|]; simpl; [|discriminate].
  destruct (match_loop kNotMatched T 0 (auction cost (max_iter_ T))
              (map (track_predict timestamp) (tracks_ T), robots, []))
    as [[[tracks1 robots1] matched]|] eqn:Hloop; simpl; [|discriminate].
  destruct (erase_all (sort_desc matched) (seqZ 0 (Z.of_nat (length robots1))))
    as [unmatched|] eqn:He; simpl; [|discriminate].
  destruct (init_loop T timestamp unmatched (tracks1, robots1, latest_id_ T))
    as [[[tracks2 robots2] latest]|] eqn:Hinit; simpl; [|discriminate].
  intros [= <- <-]. simpl.
  apply match_loop_shape in Hloop. destruct Hloop as [_ Hr1].
  apply Forall2_length in Hr1.
  apply erase_all_length in He. rewrite length_seqZ in He.
  apply init_loop_count in Hinit. lia.
Qed.

(** X3. While the counter [latest_id_] stays within its type (at most one
    new id for each robot, up to [limit], the largest value of the type),
    the track ids stay pairwise different and below [latest_id_], which
    never decreases and does not pass [limit]. *)
Theorem track_ids_stay_unique
        (T T' : Tracker F) (robots robots' : list Robot) (timestamp limit : Z) :
  NoDup (map track_id_ (tracks_ T)) ->
  Forall (fun track => track_id_ track < latest_id_ T) (tracks_ T) ->
  latest_id_ T + Z.of_nat (length robots) <= limit ->
  Tracker_update kNotMatched auction T robots timestamp = Returns (T', robots') ->
  NoDup (map track_id_ (tracks_ T')) /\
  Forall (fun track => track_id_ track < latest_id_ T') (tracks_ T') /\
  latest_id_ T <= latest_id_ T' <= limit.
Proof.
  intros Hnd Hlt Hlimit Hret.
  pose proof (Tracker_update_latest T T' robots robots' timestamp Hret) as Hrange.
  destruct (Tracker_update_shape kNotMatched auction T T' robots robots' timestamp Hret)
    as (old & new & Hold & Hnew & Hlatest & Htracks & _ & _).
  assert (map track_id_ (old ++ new) =
          map track_id_ (tracks_ T) ++ seqZ (latest_id_ T) (Z.of_nat (length new)))
    as Hids by (rewrite map_app, Hold, Hnew; reflexivity).
  assert (Forall (fun id => id < latest_id_ T') (map track_id_ (old ++ new))) as Hbelow.
  { rewrite Hids. apply Forall_app. split.
    - apply Forall_fmap. eapply Forall_impl; [exact Hlt|]. simpl. intros. lia.
    - apply Forall_forall. intros id Hid. apply elem_of_seqZ in Hid. lia. }
  split; [|split; [|lia]].
  - rewrite Htracks. apply sublist_NoDup with (map track_id_ (old ++ new)).
    + rewrite Hids. apply NoDup_app. split; [exact Hnd|]. split; [|apply NoDup_seqZ].
      intros id Hid Hid'. apply elem_of_seqZ in Hid'.
      apply list_elem_of_fmap in Hid. destruct Hid as (track & -> & Htrack).
      rewrite Forall_forall in Hlt. specialize (Hlt track Htrack). simpl in Hlt. lia.
    + apply fmap_sublist. apply sublist_filter.
  - rewrite Htracks. apply Forall_forall. intros track Hin.
    apply list_elem_of_filter in Hin. destruct Hin as [_ Hin].
    rewrite Forall_forall in Hbelow. apply Hbelow.
    apply list_elem_of_fmap. exists track. auto.
Qed.

(** X4. [Tracker::update] gives back as many robots as it got, in the same
    order, each with its rectangle, confidence and armors untouched: it
    writes labels, locations and track states only. *)
Theorem update_keeps_robot_detections
        (T T' : Tracker F) (robots robots' : list Robot) (timestamp : Z) :
  Tracker_update kNotMatched auction T robots timestamp = Returns (T', robots') ->
  length robots' = length robots /\
  Forall2 same_detection robots robots'.
Proof.
  intros Hret.
  destruct (Tracker_update_shape kNotMatched auction T T' robots robots' timestamp Hret)
    as (old & new & _ & _ & _ & _ & _ & Hrob).
  split; [symmetry; eapply Forall2_length; exact Hrob|exact Hrob].
Qed.

End TrackerGuarantees.

(** X6. For a one-to-one assignment the erasing of matched positions, largest
    first, leaves exactly the robot indices that no track was matched to. *)
Theorem unmatched_indices_are_the_rest (matched : list Z) (n : Z) :
  NoDup matched -> Forall (fun m => 0 <= m < n) matched ->
  exists unmatched,
    erase_all (sort_desc matched) (seqZ 0 n) = Returns unmatched /\
    NoDup unmatched /\
    (forall e, e ∈ unmatched <-> 0 <= e < n /\ e ∉ matched).
Proof.
  intros Hnd Hrange.
  destruct (erase_matched_returns matched n Hnd Hrange) as (unmatched & Hret & Hiff).
  exists unmatched. split; [exact Hret|]. split; [|exact Hiff].
  clear Hiff. revert Hret. generalize (NoDup_seqZ 0 n). generalize (seqZ 0 n).
  induction (sort_desc matched) as [|m ms IH]; intros l Hl; simpl.
  - intros [= <-]. exact Hl.
  - unfold erase. destruct (m <? 0); simpl; [discriminate|].
    destruct (erase_at (Z.to_nat m) l) as [l'|] eqn:He; simpl; [|discriminate].
    apply IH. clear IH. revert l l' Hl He.
    induction (Z.to_nat m) as [|i IHi]; intros [|a l] l' Hl; simpl; try discriminate.
    + intros [= <-]. apply NoDup_cons in Hl. tauto.
    + destruct (erase_at i l) as [r|] eqn:Hr; simpl; [|discriminate].
      intros [= <-]. apply NoDup_cons in Hl. destruct Hl as [Ha Hl].
      assert (forall b, b ∈ r -> b ∈ l) as Hsub.
      { clear -Hr. revert l r Hr. induction i as [|i IH]; intros [|c l] r; simpl;
          try discriminate.
        - intros [= <-] b Hb. apply elem_of_cons. right. exact Hb.
        - destruct (erase_at i l) as [r'|] eqn:Hr'; simpl; [|discriminate].
          intros [= <-] b Hb. apply elem_of_cons in Hb. apply elem_of_cons.
          destruct Hb as [->|Hb]; [left; reflexivity|right; eapply IH; eauto]. }
      apply NoDup_cons. split; [intros Hin; apply Ha, Hsub, Hin|].
      eapply IHi; eauto.
Qed.


(** * Further properties of the locator *)

Section LocatorFrames.
Local Open Scope Q_scope.


(** The closed box of rows [0 .. height] and columns [0 .. width] that the
    bounds test of [update] lets points into. *)
Definition in_closed_box (P : Params) (v u : Z) : Prop :=
  (0 <= v <= image_height_zoomed_ P)%Z /\ (0 <= u <= image_width_zoomed_ P)%Z.


(** A strand past the bounds test holds a pixel of the closed box. *)
Definition strand_inside (P : Params) (s : point_state) : Prop :=
  match s with
  | Tested row col _ _ | Stored row col _ => in_closed_box P row col
  | _ => True
  end.

Lemma Mat_set_other (m : Mat) row col d v u :
  ~ (v = row /\ u = col) -> Mat_set m row col d v u = m v u.
Proof.
  intros Hne. unfold Mat_set.
  destruct ((v =? row)%Z && (u =? col)%Z) eqn:E; [|reflexivity].
  apply andb_true_iff in E. destruct E as [Hv Hu].
  apply Z.eqb_eq in Hv, Hu. tauto.
Qed.

Lemma step_at_frame P st i v u :
  ~ in_closed_box P v u -> Forall (strand_inside P) (snd st) ->
  fst (fst (step_at P st i)) v u = fst (fst st) v u /\
  snd (fst (step_at P st i)) v u = snd (fst st) v u /\
  Forall (strand_inside P) (snd (step_at P st i)).
Proof.
  destruct st as [[background depth] strands]. cbn [fst snd]. intros Hout Hin.
  unfold step_at. cbn [fst snd].
  destruct (strands !! i) as [s|] eqn:Hs; [|auto].
  assert (strand_inside P s) as Hsin
    by (rewrite Forall_forall in Hin; apply Hin; eapply list_elem_of_lookup_2; eauto).
  destruct s as [point|row col d larger|row col d|]; cbn [step_point fst snd].
  - destruct (project_point P point) as [[[row col] d]|] eqn:Hp; cbn [fst snd].
    + split; [reflexivity|]. split; [reflexivity|].
      apply Forall_insert; [exact Hin|]. simpl. apply project_point_range in Hp.
      exact Hp.
    + split; [reflexivity|]. split; [reflexivity|].
      apply Forall_insert; [exact Hin|exact I].
  - split; [|split; [reflexivity|apply Forall_insert; [exact Hin|exact Hsin]]].
    destruct larger; [|reflexivity]. apply Mat_set_other.
    intros [-> ->]. apply Hout. exact Hsin.
  - split; [reflexivity|]. split; [|apply Forall_insert; [exact Hin|exact I]].
    apply Mat_set_other. intros [-> ->]. apply Hout. exact Hsin.
  - split; [reflexivity|]. split; [reflexivity|].
    apply Forall_insert; [exact Hin|exact I].
Qed.

Lemma run_frame P schedule v u : forall st,
  ~ in_closed_box P v u -> Forall (strand_inside P) (snd st) ->
  fst (fst (run P schedule st)) v u = fst (fst st) v u /\
  snd (fst (run P schedule st)) v u = snd (fst st) v u.
Proof.
  induction schedule as [|i rest IH]; intros st Hout Hin; [auto|].
  simpl. destruct (step_at_frame P st i v u Hout Hin) as (Hb & Hd & Hin').
  destruct (IH (step_at P st i) Hout Hin') as [-> ->]. auto.
Qed.



Lemma push_bounded {A} (queue : list A) (frame : A) (queue_size : Z) :
  (Z.of_nat (length (if (queue_size <? Z.of_nat (length (queue ++ [frame])))%Z
                     then tail (queue ++ [frame]) else queue ++ [frame])) <=
   Z.max (Z.of_nat (length queue)) queue_size)%Z.
Proof.
  destruct (queue_size <? Z.of_nat (length (queue ++ [frame])))%Z eqn:E.
  - destruct queue as [|f fs]; simpl; [lia|]. rewrite length_app. simpl. lia.
  - apply Z.ltb_ge in E. lia.
Qed.

Lemma update_queue_length cloud L :
  (Z.of_nat (length (depth_images_ (update cloud L))) <=
   Z.max (Z.of_nat (length (depth_images_ L))) (queue_size_ (params L)))%Z.
Proof.
  unfold update. destruct cloud as [[|p rest]|]; cbn [depth_images_]; try lia.
  destruct (fold_left (write_point (params L)) (p :: rest)
              (background_depth_image_ L, Mat_zero)) as [bg depth].
  cbn [depth_images_]. apply push_bounded.
Qed.


(** X9. A call of [update] on a null or an empty cloud leaves the queue of
    depth frames as it is; a call on a cloud with points puts the new depth
    image at the back and drops the front frame when the queue is then
    longer than [queue_size_].  So after any run of updates the queue holds
    at most [queue_size_] frames, or no more than it held at the start. *)
Theorem queue_stays_bounded (clouds : list (option (list Point3f))) (L : Locator) :
  (forall L', depth_images_ (update None L') = depth_images_ L' /\
              depth_images_ (update (Some []) L') = depth_images_ L') /\
  (forall L' point rest,
     let L'' := update (Some (point :: rest)) L' in
     let pushed := depth_images_ L' ++ [depth_image_ L''] in
     depth_images_ L'' =
     if (queue_size_ (params L') <? Z.of_nat (length pushed))%Z
     then tail pushed else pushed) /\
  (Z.of_nat (length (depth_images_ (updates clouds L))) <=
   Z.max (Z.of_nat (length (depth_images_ L))) (queue_size_ (params L)))%Z.
Proof.
  split; [intros L'; split; reflexivity|]. split.
  - intros L' point rest. cbv zeta. unfold update.
    destruct (fold_left (write_point (params L')) (point :: rest)
                (background_depth_image_ L', Mat_zero)) as [bg depth].
    reflexivity.
  - revert L. unfold updates. induction clouds as [|cloud rest IH]; intros L; simpl.
    + lia.
    + specialize (IH (update cloud L)). rewrite update_params in IH.
      pose proof (update_queue_length cloud L). lia.
Qed.
End LocatorFrames.


Section LocatorForeground.
Local Open Scope Q_scope.

(** What a pixel of the difference image can hold: zero, or the value of a
    queued frame at that pixel, inside the image, not [iszero], whose
    distance to the background lies in the band of the two thresholds. *)
Definition foreground_ok (P : Params) (background : Mat) (frames : list Mat)
           (diff : Mat) : Prop :=
  forall v u,
    diff v u = 0 \/
    ((0 <= v < image_height_zoomed_ P)%Z /\ (0 <= u < image_width_zoomed_ P)%Z /\
     iszero (diff v u) = false /\
     min_depth_diff_ P <= background v u - diff v u /\
     background v u - diff v u <= max_depth_diff_ P /\
     exists frame, frame ∈ frames /\ frame v u = diff v u).

Lemma diff_pixels_ok P background frames image (l : list (Z * Z)) : forall diff,
  image ∈ frames ->
  (forall i j, (i, j) ∈ l ->
     (0 <= i < image_height_zoomed_ P)%Z /\ (0 <= j < image_width_zoomed_ P)%Z) ->
  foreground_ok P background frames diff ->
  foreground_ok P background frames
    (fold_left
       (fun diff_image '(i, j) =>
          let value := image i j in
          if iszero value then diff_image
          else
            let diff := (background i j - value)%Q in
            if Qle_bool (min_depth_diff_ P) diff && Qle_bool diff (max_depth_diff_ P)
            then Mat_set diff_image i j value
            else diff_image)
       l diff).
Proof.
  intros diff Himg. revert diff.
  induction l as [|[i j] rest IH]; intros diff Hin Hok; simpl; [exact Hok|].
  apply IH; [intros i' j' Hin'; apply Hin; apply elem_of_cons; right; exact Hin'|].
  destruct (iszero (image i j)) eqn:Hz; [exact Hok|].
  destruct (Qle_bool (min_depth_diff_ P) (background i j - image i j) &&
            Qle_bool (background i j - image i j) (max_depth_diff_ P)) eqn:Hband;
    [|exact Hok].
  apply andb_true_iff in Hband. destruct Hband as [Hmin Hmax].
  apply Qle_bool_iff in Hmin, Hmax.
  intros v u. unfold Mat_set.
  destruct ((v =? i)%Z && (u =? j)%Z) eqn:E; [|apply Hok].
  apply andb_true_iff in E. destruct E as [Hv Hu].
  apply Z.eqb_eq in Hv, Hu. subst v u. right.
  destruct (Hin i j) as [Hi Hj]; [apply elem_of_cons; left; reflexivity|].
  repeat split; try assumption; try lia. exists image. auto.
Qed.

Lemma diff_frames_ok P background frames (queue : list Mat) : forall diff,
  (forall frame, frame ∈ queue -> frame ∈ frames) ->
  foreground_ok P background frames diff ->
  foreground_ok P background frames (fold_left (diff_frame P background) queue diff).
Proof.
  induction queue as [|image rest IH]; intros diff Hsub Hok; simpl; [exact Hok|].
  apply IH; [intros frame Hin; apply Hsub; apply elem_of_cons; right; exact Hin|].
  unfold diff_frame. apply diff_pixels_ok.
  - apply Hsub. apply elem_of_cons. left. reflexivity.
  - intros i j Hin. apply elem_of_pixels in Hin. exact Hin.
  - exact Hok.
Qed.

(** X10. After [update] every pixel of the difference image that is not zero
    lies inside the image, repeats the depth of one of the queued frames and
    is nearer than the background by an amount between [min_depth_diff_] and
    [max_depth_diff_]. *)
Theorem foreground_lies_in_band (cloud : option (list Point3f)) (L : Locator) :
  foreground_ok (params L)
                (background_depth_image_ (update cloud L))
                (depth_images_ (update cloud L))
                (diff_depth_image_ (update cloud L)).
Proof.
  unfold update. destruct cloud as [[|p rest]|];
    try (intros v u; left; reflexivity).
  destruct (fold_left (write_point (params L)) (p :: rest)
              (background_depth_image_ L, Mat_zero)) as [bg depth].
  cbn [background_depth_image_ depth_images_ diff_depth_image_ params].
  apply diff_frames_ok; [auto|]. intros v u. left. reflexivity.
Qed.

(** X11. [zoom] gives the null rectangle or a rectangle with positive sides
    that lies inside the zoomed image. *)
Theorem zoom_lies_inside_image (P : Params) (rect : Rect) :
  zoom P rect = mkRect 0 0 0 0 \/
  ((0 <= x_ (zoom P rect))%Z /\ (0 <= y_ (zoom P rect))%Z /\
   (0 < width_ (zoom P rect))%Z /\ (0 < height_ (zoom P rect))%Z /\
   (x_ (zoom P rect) + width_ (zoom P rect) <= image_width_zoomed_ P)%Z /\
   (y_ (zoom P rect) + height_ (zoom P rect) <= image_height_zoomed_ P)%Z).
Proof.
  unfold zoom, Rect_inter. cbv zeta. cbn [x_ y_ width_ height_].
  match goal with
  | |- context [if ?c then _ else _] => destruct c eqn:E
  end; [left; reflexivity|right].
  apply orb_false_iff in E. destruct E as [Ew Eh].
  apply Z.leb_gt in Ew, Eh. cbn [x_ y_ width_ height_]. lia.
Qed.
End LocatorForeground.

Section ClusterIndex.
Variable extract : list Point3f -> list (list Z).

(** The foreground point that [cluster] and [search] compute for a pixel. *)
Definition pixel_point (P : Params) (diff : Mat) (u v : Z) : Point3f :=
  cameraToLidar P (mkPoint3f (inject_Z u) (inject_Z v) (diff v u)).

(** What the first loop of [cluster] keeps true of the cloud and the
    map: each key is a foreground pixel of the list, its value is the
    position of the point of that pixel in the cloud, and no two keys
    share a value. *)
Definition index_ok (P : Params) (diff : Mat) (all : list (Z * Z))
           (acc : list Point3f * gmap (Z * Z) Z) : Prop :=
  (forall u v idx, snd acc !! (u, v) = Some idx ->
     (v, u) ∈ all /\ iszero (diff v u) = false /\ 0 <= idx /\
     fst acc !! Z.to_nat idx = Some (pixel_point P diff u v)) /\
  (forall k1 k2 idx, snd acc !! k1 = Some idx -> snd acc !! k2 = Some idx -> k1 = k2).

Lemma collect_pixel_ok P diff all acc i j :
  (i, j) ∈ all -> index_ok P diff all acc ->
  index_ok P diff all (collect_pixel P diff acc (i, j)).
Proof.
  intros Hin [Hkeys Hinj]. destruct acc as [cloud pmap]. unfold collect_pixel.
  destruct (iszero (diff i j)) eqn:Hz; [split; assumption|].
  simpl in *. unfold emplace.
  assert (forall u v idx, pmap !! (u, v) = Some idx ->
            (v, u) ∈ all /\ iszero (diff v u) = false /\ 0 <= idx /\
            (cloud ++ [cameraToLidar P (mkPoint3f (inject_Z j) (inject_Z i) (diff i j))])
              !! Z.to_nat idx = Some (pixel_point P diff u v)) as Hold.
  { intros u v idx Hl. destruct (Hkeys u v idx Hl) as (Ha & Hb & Hc & Hd).
    repeat split; try assumption. rewrite lookup_app_l; [exact Hd|].
    apply lookup_lt_Some in Hd. exact Hd. }
  destruct (pmap !! (j, i)) as [old|] eqn:Hold_key; simpl; [split; assumption|].
  unfold index_ok. cbn [fst snd]. rewrite length_app. simpl. split.
  - intros u v idx Hl. destruct (decide ((j, i) = (u, v))) as [[= <- <-]|Hne].
    + rewrite lookup_insert_eq in Hl. injection Hl as <-.
      repeat split; try assumption; try lia.
      replace (Z.to_nat (Z.of_nat (length cloud + 1) - 1)) with (length cloud) by lia.
      rewrite lookup_app_r by lia. rewrite Nat.sub_diag. reflexivity.
    + rewrite lookup_insert_ne in Hl by exact Hne. apply Hold. exact Hl.
  - assert (forall k idx, pmap !! k = Some idx ->
              idx <> Z.of_nat (length cloud + 1) - 1) as Hfresh.
    { intros [u v] idx Hl Heq. destruct (Hkeys u v idx Hl) as (_ & _ & Hc & Hd).
      apply lookup_lt_Some in Hd. lia. }
    intros k1 k2 idx H1 H2.
    destruct (decide ((j, i) = k1)) as [<-|Hne1];
      destruct (decide ((j, i) = k2)) as [<-|Hne2]; try reflexivity.
    + rewrite lookup_insert_eq in H1. injection H1 as <-.
      rewrite lookup_insert_ne in H2 by exact Hne2. exfalso. eapply Hfresh; eauto.
    + rewrite lookup_insert_eq in H2. injection H2 as <-.
      rewrite lookup_insert_ne in H1 by exact Hne1. exfalso. eapply Hfresh; eauto.
    + rewrite lookup_insert_ne in H1 by exact Hne1.
      rewrite lookup_insert_ne in H2 by exact Hne2. eapply Hinj; eauto.
Qed.

Lemma collect_pixels_ok P diff all (l : list (Z * Z)) : forall acc,
  (forall pixel, pixel ∈ l -> pixel ∈ all) ->
  index_ok P diff all acc -> index_ok P diff all (fold_left (collect_pixel P diff) l acc).
Proof.
  induction l as [|[i j] rest IH]; intros acc Hsub Hok; simpl; [exact Hok|].
  apply IH; [intros pixel Hin; apply Hsub; apply elem_of_cons; right; exact Hin|].
  apply collect_pixel_ok; [|exact Hok]. apply Hsub. apply elem_of_cons. left. reflexivity.
Qed.

Lemma cluster_cloud_and_map L :
  cloud_foreground_ (cluster extract L) =
    fst (collect_foreground (params L) (diff_depth_image_ L)) /\
  point_index_map_ (cluster extract L) =
    snd (collect_foreground (params L) (diff_depth_image_ L)).
Proof.
  unfold cluster.
  destruct (collect_foreground (params L) (diff_depth_image_ L)) as [cloud pmap].
  destruct cloud; simpl; auto.
Qed.

(** X12. After [cluster], a key [(u, v)] of the pixel map is a pixel of the
    image whose difference depth is not zero, and its value is the position
    in the foreground cloud of the point back-projected from that pixel;
    different pixels have different positions. *)
Theorem cluster_index_points_into_cloud (L : Locator) (u v idx : Z) :
  point_index_map_ (cluster extract L) !! (u, v) = Some idx ->
  (0 <= v < image_height_zoomed_ (params L)) /\
  (0 <= u < image_width_zoomed_ (params L)) /\
  iszero (diff_depth_image_ L v u) = false /\
  0 <= idx /\
  cloud_foreground_ (cluster extract L) !! Z.to_nat idx =
    Some (pixel_point (params L) (diff_depth_image_ L) u v) /\
  (forall u' v', point_index_map_ (cluster extract L) !! (u', v') = Some idx ->
                 u' = u /\ v' = v).
Proof.
  destruct (cluster_cloud_and_map L) as [-> ->]. intros Hl.
  destruct (collect_pixels_ok (params L) (diff_depth_image_ L)
              (pixels (image_height_zoomed_ (params L)) (image_width_zoomed_ (params L)))
              (pixels (image_height_zoomed_ (params L)) (image_width_zoomed_ (params L)))
              ([], ∅)) as [Hkeys Hinj].
  - auto.
  - split; [intros u0 v0 idx0 Hl0|intros k1 k2 idx0 Hl0]; simpl in Hl0;
      rewrite lookup_empty in Hl0; discriminate.
  - fold (collect_foreground (params L) (diff_depth_image_ L)) in Hkeys, Hinj.
    destruct (Hkeys u v idx Hl) as (Hin & Hnz & Hidx & Hpoint).
    apply elem_of_pixels in Hin. destruct Hin as [Hv Hu].
    repeat split; try assumption; try lia.
    + assert ((u', v') = (u, v)) as Heq by (eapply Hinj; eauto). congruence.
    + assert ((u', v') = (u, v)) as Heq by (eapply Hinj; eauto). congruence.
Qed.
End ClusterIndex.


Section SearchResult.


Lemma max_from_member first (rest : Candidates.t) :
  Candidates.max_from first rest ∈ first :: rest.
Proof.
  revert first. induction rest as [|q rest IH]; intros first; simpl.
  - apply elem_of_cons. left. reflexivity.
  - specialize (IH (if (length (snd first) <? length (snd q))%nat then q else first)).
    apply elem_of_cons in IH. destruct IH as [Heq|Hin].
    + rewrite Heq. destruct (length (snd first) <? length (snd q))%nat.
      * apply elem_of_cons. right. apply elem_of_cons. left. reflexivity.
      * apply elem_of_cons. left. reflexivity.
    + apply elem_of_cons. right. apply elem_of_cons. right. exact Hin.
Qed.

End SearchResult.


Section LargestCluster.

(** The cluster ids of a candidate map increase strictly along the list. *)
Inductive ids_increase : Candidates.t -> Prop :=
| ids_increase_nil : ids_increase []
| ids_increase_cons k pts m :
    Forall (fun q => k < fst q) m -> ids_increase m -> ids_increase ((k, pts) :: m).

Lemma push_above k0 k p (m : Candidates.t) :
  k0 < k -> Forall (fun q => k0 < fst q) m ->
  Forall (fun q => k0 < fst q) (Candidates.push k p m).
Proof.
  intros Hk Hall. induction Hall as [|[k' pts] m' Hq Hall IH]; simpl.
  - repeat constructor. exact Hk.
  - simpl in Hq. destruct (k <? k'); [|destruct (k =? k')].
    + constructor; [exact Hk|]. constructor; assumption.
    + constructor; assumption.
    + constructor; assumption.
Qed.

Lemma push_ids_increase k p (m : Candidates.t) :
  ids_increase m -> ids_increase (Candidates.push k p m).
Proof.
  induction 1 as [|k' pts m' Hab Hs IH]; simpl.
  - repeat constructor.
  - destruct (k <? k') eqn:E1; [|destruct (k =? k') eqn:E2].
    + apply Z.ltb_lt in E1. constructor; [|constructor; assumption].
      constructor; [exact E1|]. eapply Forall_impl; [exact Hab|]. simpl. intros. lia.
    + constructor; assumption.
    + apply Z.ltb_ge in E1. apply Z.eqb_neq in E2.
      constructor; [|exact IH]. apply push_above; [lia|exact Hab].
Qed.

Lemma group_pixels_ids_increase L (l : list (Z * Z)) : forall candidates candidates',
  ids_increase candidates ->
  fold_left (group_pixel L) l (Returns candidates) = Returns candidates' ->
  ids_increase candidates'.
Proof.
  induction l as [|[v u] rest IH]; intros candidates candidates' Hinc; simpl.
  - intros [= <-]. exact Hinc.
  - destruct (iszero (diff_depth_image_ L v u)); [apply IH; exact Hinc|].
    destruct (point_index_map_ L !! (u, v)) as [index|].
    + apply IH. apply push_ids_increase. exact Hinc.
    + intros Hfold. exfalso. clear -Hfold.
      induction rest as [|[v' u'] rest IHr]; simpl in Hfold; [discriminate|auto].
Qed.

Lemma max_from_largest (m : Candidates.t) : forall (best : Z * list Point3f) seen,
  ids_increase (best :: m) ->
  (forall q, q ∈ seen ->
     (length (snd q) <= length (snd best))%nat /\
     (length (snd q) = length (snd best) -> fst best <= fst q)) ->
  forall q, q ∈ seen ++ best :: m ->
    (length (snd q) <= length (snd (Candidates.max_from best m)))%nat /\
    (length (snd q) = length (snd (Candidates.max_from best m)) ->
     fst (Candidates.max_from best m) <= fst q).
Proof.
  induction m as [|p m' IH]; intros best seen Hinc Hseen q Hq; simpl.
  - apply elem_of_app in Hq. destruct Hq as [Hq|Hq]; [exact (Hseen q Hq)|].
    apply list_elem_of_singleton in Hq. subst q. split; [lia|intros _; lia].
  - inversion Hinc as [|kb pb mm Hab Hinc']; subst.
    inversion Hinc' as [|kp pp mm' Habp Hinc'']; subst.
    inversion Hab as [|? ? Hbp Hab']; subst. simpl in Hbp.
    destruct (length (snd (kb, pb)) <? length (snd (kp, pp)))%nat eqn:E; simpl in E.
    + apply Nat.ltb_lt in E.
      apply (IH (kp, pp) (seen ++ [(kb, pb)])); [exact Hinc'| |].
      * intros q' Hq'. apply elem_of_app in Hq'. destruct Hq' as [Hq'|Hq'].
        -- destruct (Hseen q' Hq') as [Hle _]. simpl in *. split; lia.
        -- apply list_elem_of_singleton in Hq'. subst q'. simpl. split; lia.
      * rewrite <- app_assoc. exact Hq.
    + apply Nat.ltb_ge in E.
      apply (IH (kb, pb) (seen ++ [(kp, pp)])).
      * constructor; assumption.
      * intros q' Hq'. apply elem_of_app in Hq'. destruct Hq' as [Hq'|Hq'].
        -- exact (Hseen q' Hq').
        -- apply list_elem_of_singleton in Hq'. subst q'. simpl. split; [exact E|lia].
      * apply elem_of_app in Hq. apply elem_of_app.
        destruct Hq as [Hq|Hq]; [left; apply elem_of_app; left; exact Hq|].
        apply elem_of_cons in Hq. destruct Hq as [->|Hq];
          [right; apply elem_of_cons; left; reflexivity|].
        apply elem_of_cons in Hq. destruct Hq as [->|Hq].
        -- left. apply elem_of_app. right. apply list_elem_of_singleton. reflexivity.
        -- right. apply elem_of_cons. right. exact Hq.
Qed.

End LargestCluster.

Section SearchedCluster.
Local Open Scope Q_scope.

(** The arithmetic mean of a list of points, coordinate by coordinate. *)
Definition mean_point (points : list Point3f) : Point3f :=
  let n := inject_Z (Z.of_nat (length points)) in
  mkPoint3f (Qsum (map px points) / n) (Qsum (map py points) / n)
            (Qsum (map pz points) / n).

(** The cluster id of the foreground point of pixel [(u, v)]; -1 stands
    for a point that the extraction put in no cluster. *)
Definition cluster_of (L : Locator) (u v : Z) : Z :=
  match point_index_map_ L !! (u, v) with
  | Some index =>
      match index_cluster_map_ L !! index with
      | Some c => c
      | None => -1
      end
  | None => -1
  end.

Definition in_cluster (L : Locator) (c : Z) (pixel : Z * Z) : bool :=
  negb (iszero (diff_depth_image_ L (fst pixel) (snd pixel))) &&
  (c =? cluster_of L (snd pixel) (fst pixel))%Z.

(** The foreground points of a rectangle that belong to cluster [c], in
    the order of the pixels. *)
Definition cluster_points (L : Locator) (rect : Rect) (c : Z) : list Point3f :=
  map (fun pixel => pixel_point (params L) (diff_depth_image_ L) (snd pixel) (fst pixel))
      (List.filter (in_cluster L c) (rect_pixels rect)).

(** The points stored under an id of the candidate map. *)
Fixpoint points_of (k : Z) (m : Candidates.t) : list Point3f :=
  match m with
  | [] => []
  | (k', pts) :: m' => if (k =? k')%Z then pts else points_of k m'
  end.

Lemma fold_sum_points (points : list Point3f) : forall s,
  fold_left (fun s p => mkPoint3f (px s + px p) (py s + py p) (pz s + pz p)) points s =
  mkPoint3f (fold_left Qplus (map px points) (px s))
            (fold_left Qplus (map py points) (py s))
            (fold_left Qplus (map pz points) (pz s)).
Proof.
  induction points as [|p rest IH]; intros s; simpl; [destruct s; reflexivity|].
  rewrite IH. reflexivity.
Qed.

Lemma centroid_mean (points : list Point3f) : centroid points = mean_point points.
Proof. unfold centroid, mean_point. cbv zeta. rewrite fold_sum_points. reflexivity. Qed.

Lemma points_of_above k (m : Candidates.t) :
  Forall (fun q => (k < fst q)%Z) m -> points_of k m = [].
Proof.
  induction 1 as [|[k' pts] m' Hq Hall IH]; simpl; [reflexivity|].
  simpl in Hq. assert ((k =? k')%Z = false) as -> by (apply Z.eqb_neq; lia). exact IH.
Qed.

Lemma points_of_push (m : Candidates.t) k p k' :
  ids_increase m ->
  points_of k' (Candidates.push k p m) =
  if (k' =? k)%Z then points_of k' m ++ [p] else points_of k' m.
Proof.
  induction 1 as [|k0 pts m' Hab Hinc IH]; simpl.
  - destruct (k' =? k)%Z; reflexivity.
  - destruct (k <? k0)%Z eqn:E1; [|destruct (k =? k0)%Z eqn:E2]; simpl.
    + apply Z.ltb_lt in E1. destruct (k' =? k)%Z eqn:E; [|reflexivity].
      apply Z.eqb_eq in E. subst k'.
      assert ((k =? k0)%Z = false) as -> by (apply Z.eqb_neq; lia).
      rewrite points_of_above; [reflexivity|].
      eapply Forall_impl; [exact Hab|]. simpl. intros. lia.
    + apply Z.eqb_eq in E2. subst k0. destruct (k' =? k)%Z; reflexivity.
    + apply Z.eqb_neq in E2. rewrite IH.
      destruct (k' =? k0)%Z eqn:E0; [|reflexivity].
      apply Z.eqb_eq in E0. subst k'.
      assert ((k0 =? k)%Z = false) as -> by (apply Z.eqb_neq; lia). reflexivity.
Qed.

Lemma points_of_elem (m : Candidates.t) k pts :
  ids_increase m -> (k, pts) ∈ m -> points_of k m = pts.
Proof.
  induction 1 as [|k0 pts0 m' Hab Hinc IH]; intros Hin; [inversion Hin|].
  apply elem_of_cons in Hin. destruct Hin as [[= -> ->]|Hin]; simpl.
  - rewrite Z.eqb_refl. reflexivity.
  - assert ((k =? k0)%Z = false) as ->.
    { apply Z.eqb_neq. rewrite Forall_forall in Hab. specialize (Hab _ Hin).
      simpl in Hab. lia. }
    apply IH. exact Hin.
Qed.

Lemma elem_points_of (m : Candidates.t) k :
  points_of k m <> [] -> (k, points_of k m) ∈ m.
Proof.
  induction m as [|[k' pts] m' IH]; simpl; [congruence|].
  destruct (k =? k')%Z eqn:E.
  - apply Z.eqb_eq in E. subst k'. intros _. apply elem_of_cons. left. reflexivity.
  - intros Hne. apply elem_of_cons. right. apply IH. exact Hne.
Qed.

Lemma group_pixels_stop L (l : list (Z * Z)) :
  fold_left (group_pixel L) l Terminates = Terminates.
Proof. induction l as [|[v u] rest IH]; simpl; [reflexivity|exact IH]. Qed.

(** The loops of [search] put under each id the foreground points of that
    cluster, in the order of the pixels. *)
Lemma group_pixels_points L (l : list (Z * Z)) : forall c0 c1,
  ids_increase c0 ->
  fold_left (group_pixel L) l (Returns c0) = Returns c1 ->
  forall k,
    points_of k c1 =
    points_of k c0 ++
    map (fun pixel => pixel_point (params L) (diff_depth_image_ L) (snd pixel) (fst pixel))
        (List.filter (in_cluster L k) l).
Proof.
  induction l as [|[v u] rest IH]; intros c0 c1 Hinc; simpl.
  - intros [= <-] k. rewrite app_nil_r. reflexivity.
  - unfold in_cluster at 1. cbn [fst snd].
    destruct (iszero (diff_depth_image_ L v u)) eqn:Hz; simpl.
    + intros Hfold k. apply (IH c0 c1 Hinc Hfold).
    + unfold cluster_of. destruct (point_index_map_ L !! (u, v)) as [index|];
        [|rewrite group_pixels_stop; discriminate].
      intros Hfold k.
      rewrite (IH _ c1 (push_ids_increase _ _ c0 Hinc) Hfold k).
      rewrite (points_of_push c0 _ _ k Hinc).
      destruct (k =? _)%Z; simpl; [rewrite <- app_assoc|]; reflexivity.
Qed.

(** What [search] does on a rectangle with a foreground pixel. *)
Lemma search_picks_cluster (L : Locator) (robot : Robot) (r : Rect2f) :
  index_complete L ->
  rect_ robot = Some r ->
  (exists v u, (v, u) ∈ rect_pixels (zoom (params L) (Rect_of_Rect2f r)) /\
               iszero (diff_depth_image_ L v u) = false) ->
  let rect := zoom (params L) (Rect_of_Rect2f r) in
  exists c,
    search L robot =
      Returns (setLocation (lidarToWorld (params L) (centroid (cluster_points L rect c)))
                           robot) /\
    cluster_points L rect c <> [] /\
    forall c',
      (length (cluster_points L rect c') <= length (cluster_points L rect c))%nat /\
      (length (cluster_points L rect c') = length (cluster_points L rect c) ->
       (c <= c')%Z).
Proof.
  intros Hidx Hr (v0 & u0 & Hin0 & Hnz0) rect. fold rect in Hin0.
  unfold search. rewrite Hr. cbv zeta. fold rect.
  destruct (group_pixels_return L (rect_pixels rect) []) as [candidates Hc].
  { intros v u Hin Hnz. apply zoom_inside in Hin. apply Hidx; tauto. }
  assert (ids_increase candidates) as Hinc
    by (eapply group_pixels_ids_increase; [|exact Hc]; constructor).
  assert (forall k, points_of k candidates = cluster_points L rect k) as Hpts
    by (intros k; apply (group_pixels_points L (rect_pixels rect) [] candidates);
        [constructor|exact Hc]).
  change (group_points L rect = Returns candidates) in Hc. rewrite Hc. cbn [obind].
  (* the cluster of the given foreground pixel is not empty *)
  assert (cluster_points L rect (cluster_of L u0 v0) <> []) as Hne0.
  { unfold cluster_points. intros Habs. apply map_eq_nil in Habs.
    assert (In (v0, u0) (List.filter (in_cluster L (cluster_of L u0 v0))
                                     (rect_pixels rect))) as Hmem.
    { apply filter_In. split; [apply list_elem_of_In; exact Hin0|].
      unfold in_cluster. cbn [fst snd]. rewrite Hnz0, Z.eqb_refl. reflexivity. }
    rewrite Habs in Hmem. exact Hmem. }
  assert (forall c', cluster_points L rect c' <> [] ->
                     (c', cluster_points L rect c') ∈ candidates) as Hmem.
  { intros c' Hne. rewrite <- Hpts. apply elem_points_of. rewrite Hpts. exact Hne. }
  destruct candidates as [|first rest];
    [specialize (Hmem _ Hne0); inversion Hmem|].
  pose proof (max_from_member first rest) as Hwin.
  pose proof (max_from_largest rest first [] Hinc) as Hbest.
  destruct (Candidates.max_from first rest) as [c pts] eqn:Hmax. cbn [snd fst] in *.
  assert (pts = cluster_points L rect c) as ->.
  { rewrite <- Hpts. symmetry. apply points_of_elem; assumption. }
  assert (forall q, q ∈ first :: rest ->
            (length (snd q) <= length (cluster_points L rect c))%nat /\
            (length (snd q) = length (cluster_points L rect c) -> (c <= fst q)%Z))
    as Hall.
  { intros q Hq. apply Hbest; [intros q' Hq'; inversion Hq'|exact Hq]. }
  assert (cluster_points L rect c <> []) as Hne.
  { destruct (Hall _ (Hmem _ Hne0)) as [Hle _]. cbn [snd] in Hle.
    destruct (cluster_points L rect (cluster_of L u0 v0)); [congruence|].
    destruct (cluster_points L rect c); [simpl in Hle; lia|discriminate]. }
  exists c. split; [reflexivity|]. split; [exact Hne|].
  intros c'. destruct (cluster_points L rect c') as [|p ps] eqn:Hc'.
  - split; [simpl; lia|]. intros Hlen.
    destruct (cluster_points L rect c); [congruence|discriminate].
  - rewrite <- Hc'. apply (Hall (c', cluster_points L rect c')).
    apply Hmem. rewrite Hc'. discriminate.
Qed.

(** X13. On a state whose pixel map covers the foreground, [search] on a robot
    whose zoomed rectangle holds a foreground pixel returns the robot with
    only its location changed: it is [lidarToWorld] of the arithmetic mean
    of a non-empty list of points, each back-projected from a foreground
    pixel of that rectangle. *)
Theorem search_locates_on_foreground (L : Locator) (robot : Robot) (r : Rect2f) :
  index_complete L ->
  rect_ robot = Some r ->
  (exists v u, (v, u) ∈ rect_pixels (zoom (params L) (Rect_of_Rect2f r)) /\
               iszero (diff_depth_image_ L v u) = false) ->
  exists points,
    search L robot =
      Returns (mkRobot (rect_ robot) (label_ robot) (confidence_ robot) (armors_ robot)
                       (Some (lidarToWorld (params L)
                                (mkPoint3f
                                   (Qsum (map px points) /
                                    inject_Z (Z.of_nat (length points)))
                                   (Qsum (map py points) /
                                    inject_Z (Z.of_nat (length points)))
                                   (Qsum (map pz points) /
                                    inject_Z (Z.of_nat (length points))))))
                       (track_state_ robot)) /\
    points <> [] /\
    forall point, point ∈ points ->
      exists v u, (v, u) ∈ rect_pixels (zoom (params L) (Rect_of_Rect2f r)) /\
                  iszero (diff_depth_image_ L v u) = false /\
                  point = cameraToLidar (params L)
                            (mkPoint3f (inject_Z u) (inject_Z v)
                                       (diff_depth_image_ L v u)).
Proof.
  intros Hidx Hr Hfg.
  destruct (search_picks_cluster L robot r Hidx Hr Hfg) as (c & Hs & Hne & _).
  exists (cluster_points L (zoom (params L) (Rect_of_Rect2f r)) c).
  split; [|split; [exact Hne|]].
  - rewrite Hs, centroid_mean. reflexivity.
  - intros point Hpt. unfold cluster_points in Hpt.
    apply list_elem_of_fmap in Hpt. destruct Hpt as ([v u] & -> & Hin).
    apply list_elem_of_In, filter_In in Hin. destruct Hin as [Hin Hc].
    unfold in_cluster in Hc. cbn [fst snd] in Hc.
    apply andb_true_iff in Hc. destruct Hc as [Hnz _].
    apply negb_true_iff in Hnz.
    exists v, u. split; [apply list_elem_of_In; exact Hin|].
    split; [exact Hnz|reflexivity].
Qed.

(** X14. The points that [search] averages are the foreground points of one
    cluster of the rectangle, a cluster with the most points there; when
    several clusters have the most, the one with the smallest id is taken,
    so the unclustered points (id -1) win a tie. *)
Theorem search_takes_largest_cluster (L : Locator) (robot : Robot) (r : Rect2f) :
  index_complete L ->
  rect_ robot = Some r ->
  (exists v u, (v, u) ∈ rect_pixels (zoom (params L) (Rect_of_Rect2f r)) /\
               iszero (diff_depth_image_ L v u) = false) ->
  let rect := zoom (params L) (Rect_of_Rect2f r) in
  exists c,
    search L robot =
      Returns (mkRobot (rect_ robot) (label_ robot) (confidence_ robot) (armors_ robot)
                       (Some (lidarToWorld (params L)
                                           (mean_point (cluster_points L rect c))))
                       (track_state_ robot)) /\
    cluster_points L rect c <> [] /\
    forall c',
      (length (cluster_points L rect c') <= length (cluster_points L rect c))%nat /\
      (length (cluster_points L rect c') = length (cluster_points L rect c) ->
       (c <= c')%Z).
Proof.
  intros Hidx Hr Hfg rect.
  destruct (search_picks_cluster L robot r Hidx Hr Hfg) as (c & Hs & Hne & Hbest).
  exists c. split; [|split; [exact Hne|exact Hbest]].
  fold rect in Hs. rewrite Hs, centroid_mean. reflexivity.
Qed.
End SearchedCluster.


(** * Further properties of the robot entity *)

Section RobotVote.
Local Open Scope Q_scope.

Lemma label_score_shift car l armors :
  label_score l (map (shift_armor car) armors) = label_score l armors.
Proof.
  induction armors as [|a rest IH]; simpl; [reflexivity|].
  rewrite IH. reflexivity.
Qed.

Lemma label_score_nonneg l armors :
  confidences_nonneg armors -> 0 <= label_score l armors.
Proof.
  intros Hnn. induction armors as [|a rest IH]; simpl; [apply Qle_refl|].
  assert (0 <= label_score l rest) as Hrest
    by (apply IH; intros b Hb; apply Hnn; right; exact Hb).
  destruct (Detection.label a =? l)%Z; [|exact Hrest].
  replace 0 with (0 + 0) by reflexivity. apply Qplus_le_compat; [|exact Hrest].
  apply Hnn. left. reflexivity.
Qed.

Lemma label_score_absent l armors :
  ~ In l (map Detection.label armors) -> label_score l armors = 0.
Proof.
  induction armors as [|a rest IH]; simpl; [reflexivity|]. intros Hnot.
  assert ((Detection.label a =? l)%Z = false) as -> by (apply Z.eqb_neq; tauto).
  apply IH. tauto.
Qed.

Lemma winner_dominates l armors i :
  confidences_nonneg armors -> is_winner l armors ->
  label_score i armors <= label_score l armors.
Proof.
  intros Hnn (_ & Hmax & _).
  destruct (in_dec Z.eq_dec i (map Detection.label armors)) as [Hin|Hnot].
  - apply Hmax. exact Hin.
  - rewrite (label_score_absent i armors Hnot). apply label_score_nonneg. exact Hnn.
Qed.

(** X15. The label voted by [setDetection] is the index of a largest entry of
    the feature vector of the robot: the vote and the feature agree. *)
Theorem label_is_largest_feature_entry
        (car : Detection) (armors : list Detection) (class_num : Z) :
  armors <> [] ->
  labels_in_range class_num armors ->
  confidences_nonneg armors ->
  exists l v,
    label_ (Robot_new car armors) = Some l /\
    (0 <= l < class_num)%Z /\
    feature class_num (Robot_new car armors) = Returns v /\
    forall i, (0 <= i < class_num)%Z ->
      entry v (Z.to_nat i) <= entry v (Z.to_nat l).
Proof.
  intros Hne Hrange Hnn. destruct armors as [|a0 rest]; [contradiction|].
  destruct (max_element_winner (a0 :: rest) a0 rest eq_refl)
    as (l & s & Hmax & Hs & Hwin).
  assert (Robot_new car (a0 :: rest) =
          mkRobot (Some (car_rect car)) (Some l)
                  (Some (s / inject_Z (count_label l (a0 :: rest))))
                  (Some (map (shift_armor car) (a0 :: rest))) None None) as Hrobot.
  { unfold Robot_new, setDetection. rewrite Hmax. reflexivity. }
  rewrite Hrobot.
  assert (0 <= l < class_num)%Z as Hl.
  { destruct Hwin as (Hin & _). apply in_map_iff in Hin.
    destruct Hin as (a & <- & Ha). apply Hrange. exact Ha. }
  destruct (feature_detected class_num
              (mkRobot (Some (car_rect car)) (Some l)
                       (Some (s / inject_Z (count_label l (a0 :: rest))))
                       (Some (map (shift_armor car) (a0 :: rest))) None None)
              (map (shift_armor car) (a0 :: rest)))
    as (acc & _ & _ & _ & Hent & Hpos & Hf); try reflexivity; try lia.
  { intros a Ha. apply in_map_iff in Ha. destruct Ha as (b & <- & Hb).
    simpl. apply Hrange. exact Hb. }
  assert (forall i, (0 <= i)%Z ->
            entry acc (Z.to_nat i) == label_score i (a0 :: rest)) as Hent'.
  { intros i Hi. rewrite Hent, Z2Nat.id by exact Hi. rewrite label_score_shift.
    reflexivity. }
  assert (Forall (fun e => 0 <= e) acc) as Hacc.
  { apply Hpos. intros a Ha. apply in_map_iff in Ha. destruct Ha as (b & <- & Hb).
    simpl. apply Hnn. exact Hb. }
  exists l. eexists. split; [reflexivity|]. split; [exact Hl|]. split; [exact Hf|].
  intros i Hi.
  assert (entry acc (Z.to_nat i) <= entry acc (Z.to_nat l)) as Hle.
  { rewrite !Hent' by lia. apply winner_dominates; assumption. }
  destruct (iszero (Qsum acc)) eqn:Hz; [exact Hle|].
  apply iszero_false in Hz.
  assert (0 < Qsum acc) as Hsum.
  { destruct (Qle_lt_or_eq _ _ (Qsum_nonneg acc Hacc)) as [Hlt|Heq]; [exact Hlt|].
    exfalso. apply Hz. symmetry. exact Heq. }
  rewrite !entry_scale. unfold Qdiv. apply Qmult_le_compat_r; [exact Hle|].
  apply Qlt_le_weak. apply Qinv_lt_0_compat. exact Hsum.
Qed.

Lemma count_label_cons l a rest :
  count_label l (a :: rest) =
  if (Detection.label a =? l)%Z then (1 + count_label l rest)%Z else count_label l rest.
Proof.
  unfold count_label. destruct (Detection.label a =? l)%Z eqn:E.
  - apply Z.eqb_eq in E. rewrite filter_cons_True by exact E. simpl length. lia.
  - apply Z.eqb_neq in E. rewrite filter_cons_False by exact E. reflexivity.
Qed.

Lemma label_score_between lo hi l armors :
  (forall a, In a armors -> lo <= Detection.confidence a <= hi) ->
  inject_Z (count_label l armors) * lo <= label_score l armors /\
  label_score l armors <= inject_Z (count_label l armors) * hi.
Proof.
  intros Hb. induction armors as [|a rest IH].
  - simpl. unfold count_label. simpl. split; rewrite Qmult_0_l; apply Qle_refl.
  - destruct IH as [IHlo IHhi]; [intros b Hin; apply Hb; right; exact Hin|].
    destruct (Hb a (or_introl eq_refl)) as [Hlo Hhi].
    rewrite count_label_cons. simpl label_score.
    destruct (Detection.label a =? l)%Z; [|split; assumption].
    rewrite inject_Z_plus. split.
    + rewrite Qmult_plus_distr_l, Qmult_1_l. apply Qplus_le_compat; assumption.
    + rewrite Qmult_plus_distr_l, Qmult_1_l. apply Qplus_le_compat; assumption.
Qed.

(** X16. The confidence that [setDetection] gives a robot is a mean of armor
    confidences: it lies between any two bounds that hold for all armors. *)
Theorem confidence_within_armor_bounds
        (car : Detection) (armors : list Detection) (lo hi : Q) :
  armors <> [] ->
  (forall a, In a armors -> lo <= Detection.confidence a <= hi) ->
  exists c, confidence_ (Robot_new car armors) = Some c /\ lo <= c /\ c <= hi.
Proof.
  intros Hne Hb. destruct armors as [|a0 rest]; [contradiction|].
  destruct (max_element_winner (a0 :: rest) a0 rest eq_refl)
    as (l & s & Hmax & Hs & Hwin).
  unfold Robot_new, setDetection. rewrite Hmax. simpl confidence_.
  eexists. split; [reflexivity|].
  assert (0 < inject_Z (count_label l (a0 :: rest))) as Hcount.
  { rewrite <- (Zlt_Qlt 0). apply count_label_pos. apply Hwin. }
  destruct (label_score_between lo hi l (a0 :: rest) Hb) as [Hlo Hhi].
  rewrite Hs. split.
  - apply Qle_shift_div_l; [exact Hcount|]. rewrite Qmult_comm. exact Hlo.
  - apply Qle_shift_div_r; [exact Hcount|]. rewrite Qmult_comm. exact Hhi.
Qed.
End RobotVote.

Section RobotAfterTrack.
Context {F : Type} `{TrackFilter F}.

Lemma setTrack_detected (track : Track F) (r : Robot) :
  isDetected (setTrack track r) = true.
Proof.
  unfold setTrack, isDetected. destruct (isConfirmed track); simpl; [reflexivity|].
  destruct (label_ r); reflexivity.
Qed.

(** X17. [feature] after [setTrack]: unchanged for a robot that had a label; for
    a robot without armors the call no longer returns, because the label
    that the track supplied makes [feature] read the missing armors. *)
Theorem feature_after_setTrack (track : Track F) (r : Robot) (class_num : Z) :
  (is_Some (label_ r) ->
   feature class_num (setTrack track r) = feature class_num r) /\
  (armors_ r = None -> feature class_num (setTrack track r) = Terminates).
Proof.
  split.
  - intros [l Hl]. unfold feature, setTrack, isDetected.
    destruct (isConfirmed track); simpl; rewrite Hl; reflexivity.
  - intros Ha. unfold feature. destruct (class_num <? 0)%Z; [reflexivity|].
    rewrite setTrack_detected. simpl.
    destruct (setTrack_keeps_detection track r) as (_ & _ & ->). rewrite Ha.
    reflexivity.
Qed.
End RobotAfterTrack.


(** * Further properties of the matching score *)

Section ScoreShape.
Local Open Scope R_scope.

Lemma div_mul_cancel D a : 0 < D -> a / D * D = a.
Proof. intros HD. field. lra. Qed.

Lemma distance_score_middle_bounds D d :
  0 < D -> D <= d < 2 * D ->
  5 / 10 < 15 / 10 - d / (2 * D) <= 1.
Proof.
  intros HD [H1 H2].
  pose proof (div_mul_cancel (2 * D) d) as Hc.
  assert (d / (2 * D) < 1) as Hlt.
  { apply Rmult_lt_reg_r with (2 * D); [lra|]. rewrite Hc; lra. }
  assert (5 / 10 <= d / (2 * D)) as Hge.
  { apply Rmult_le_reg_r with (2 * D); [lra|]. rewrite Hc; lra. }
  lra.
Qed.

Lemma distance_score_far_bounds D d :
  0 < D -> 2 * D <= d -> 0 < 5 / 10 * exp (2 - d / D) <= 5 / 10.
Proof.
  intros HD Hd. pose proof (exp_pos (2 - d / D)) as Hpos.
  assert (2 <= d / D) as Hge.
  { apply Rmult_le_reg_r with D; [lra|]. rewrite div_mul_cancel; lra. }
  assert (exp (2 - d / D) <= 1) as Hle.
  { rewrite <- exp_0. destruct (Rle_lt_or_eq_dec _ _ Hge) as [Hlt|Heq].
    - left. apply exp_increasing. lra.
    - right. f_equal. lra. }
  lra.
Qed.

Lemma div_le_compat D a b : 0 < D -> a <= b -> a / D <= b / D.
Proof.
  intros HD Hab. unfold Rdiv. apply Rmult_le_compat_r; [|exact Hab].
  left. apply Rinv_0_lt_compat. exact HD.
Qed.

(** X18. For a positive threshold the distance score never rises with the
    distance, and it stays in (0, 1]: a nearer robot never scores less. *)
Theorem distance_score_never_rises (D d1 d2 : R) :
  0 < D -> d1 <= d2 ->
  distance_score D d2 <= distance_score D d1 /\
  0 < distance_score D d2 <= 1.
Proof.
  intros HD Hd.
  assert (forall d, 0 < distance_score D d <= 1) as Hrange.
  { intros d. destruct (Rlt_dec d D) as [Hn|Hn].
    - rewrite distance_score_near by exact Hn. lra.
    - destruct (Rlt_dec d (2 * D)) as [Hm|Hm].
      + rewrite distance_score_middle by lra.
        pose proof (distance_score_middle_bounds D d HD). lra.
      + rewrite distance_score_far by lra.
        pose proof (distance_score_far_bounds D d HD). lra. }
  split; [|apply Hrange].
  destruct (Rlt_dec d1 D) as [Hn1|Hn1].
  - rewrite (distance_score_near D d1) by exact Hn1. apply Hrange.
  - destruct (Rlt_dec d1 (2 * D)) as [Hm1|Hm1].
    + rewrite (distance_score_middle D d1) by lra.
      destruct (Rlt_dec d2 (2 * D)) as [Hm2|Hm2].
      * rewrite (distance_score_middle D d2) by lra.
        pose proof (div_le_compat (2 * D) d1 d2). lra.
      * rewrite (distance_score_far D d2) by lra.
        pose proof (distance_score_far_bounds D d2 HD).
        pose proof (distance_score_middle_bounds D d1 HD). lra.
    + rewrite (distance_score_far D d1), (distance_score_far D d2) by lra.
      pose proof (div_le_compat D d1 d2 HD Hd) as Hdiv.
      assert (exp (2 - d2 / D) <= exp (2 - d1 / D)) as Hexp.
      { destruct (Rle_lt_or_eq_dec _ _ Hdiv) as [Hlt|Heq].
        - left. apply exp_increasing. lra.
        - right. f_equal. lra. }
      lra.
Qed.

Lemma norm3_triangle (a1 a2 a3 b1 b2 b3 : R) :
  sqrt ((a1 + b1) * (a1 + b1) + (a2 + b2) * (a2 + b2) + (a3 + b3) * (a3 + b3)) <=
  sqrt (a1 * a1 + a2 * a2 + a3 * a3) + sqrt (b1 * b1 + b2 * b2 + b3 * b3).
Proof.
  set (A := a1 * a1 + a2 * a2 + a3 * a3).
  set (B := b1 * b1 + b2 * b2 + b3 * b3).
  set (S := a1 * b1 + a2 * b2 + a3 * b3).
  assert (0 <= A) as HA by (unfold A; nra).
  assert (0 <= B) as HB by (unfold B; nra).
  assert (S * S <= A * B) as HCS.
  { unfold S, A, B.
    pose proof (Rle_0_sqr (a1 * b2 - a2 * b1)).
    pose proof (Rle_0_sqr (a1 * b3 - a3 * b1)).
    pose proof (Rle_0_sqr (a2 * b3 - a3 * b2)).
    unfold Rsqr in *. nra. }
  assert (S <= sqrt A * sqrt B) as HS.
  { rewrite <- sqrt_mult by assumption.
    destruct (Rle_dec S 0) as [Hneg|Hpos].
    - pose proof (sqrt_pos (A * B)). lra.
    - rewrite <- (sqrt_square S) by lra. apply sqrt_le_1_alt. exact HCS. }
  pose proof (sqrt_pos A) as HsA. pose proof (sqrt_pos B) as HsB.
  rewrite <- (sqrt_square (sqrt A + sqrt B)) by lra.
  apply sqrt_le_1_alt.
  pose proof (sqrt_sqrt A HA). pose proof (sqrt_sqrt B HB).
  replace ((a1 + b1) * (a1 + b1) + (a2 + b2) * (a2 + b2) + (a3 + b3) * (a3 + b3))
    with (A + B + 2 * S) by (unfold A, B, S; ring).
  nra.
Qed.

(** X19. [calculateDistance] is a metric on the points: symmetric, not
    negative, zero exactly for two points with equal coordinates, and it
    satisfies the triangle inequality. *)
Theorem calculateDistance_is_a_distance (p1 p2 p3 : Point3f) :
  calculateDistance p1 p2 = calculateDistance p2 p1 /\
  0 <= calculateDistance p1 p2 /\
  (calculateDistance p1 p2 = 0 <->
   (px p1 == px p2)%Q /\ (py p1 == py p2)%Q /\ (pz p1 == pz p2)%Q) /\
  calculateDistance p1 p3 <= calculateDistance p1 p2 + calculateDistance p2 p3.
Proof.
  assert (calculateDistance p1 p3 <= calculateDistance p1 p2 + calculateDistance p2 p3)
    as Htriangle.
  {
    unfold calculateDistance. cbv zeta.
    match goal with
    | |- sqrt ?e <= _ =>
        replace e with
          ((Q2R (px p1) - Q2R (px p2) + (Q2R (px p2) - Q2R (px p3))) *
           (Q2R (px p1) - Q2R (px p2) + (Q2R (px p2) - Q2R (px p3))) +
           (Q2R (py p1) - Q2R (py p2) + (Q2R (py p2) - Q2R (py p3))) *
           (Q2R (py p1) - Q2R (py p2) + (Q2R (py p2) - Q2R (py p3))) +
           (Q2R (pz p1) - Q2R (pz p2) + (Q2R (pz p2) - Q2R (pz p3))) *
           (Q2R (pz p1) - Q2R (pz p2) + (Q2R (pz p2) - Q2R (pz p3)))) by ring
    end.
    apply norm3_triangle. }
  revert Htriangle.
  unfold calculateDistance. cbv zeta. intros Htriangle.
  set (a := Q2R (px p1) - Q2R (px p2)).
  set (b := Q2R (py p1) - Q2R (py p2)).
  set (c := Q2R (pz p1) - Q2R (pz p2)).
  assert (0 <= a * a + b * b + c * c) as Hnn by nra.
  split; [|split; [apply sqrt_pos|split; [|exact Htriangle]]].
  - f_equal. unfold a, b, c. ring.
  - split.
    + intros H0. apply sqrt_eq_0 in H0; [|exact Hnn].
      assert (a = 0 /\ b = 0 /\ c = 0) as (Ha & Hb & Hc) by (repeat split; nra).
      unfold a, b, c in *. repeat split; apply eqR_Qeq; lra.
    + intros (Hx & Hy & Hz). apply Qeq_eqR in Hx, Hy, Hz.
      replace (a * a + b * b + c * c) with 0; [apply sqrt_0|].
      unfold a, b, c. rewrite Hx, Hy, Hz. ring.
Qed.
End ScoreShape.

(** * The earlier track class, frame by frame *)

Section LegacyLifecycle.
Import LegacyTrack.

(** A frame in which the track gets no detection: [predit], then
    [mark_missed]. *)
Definition legacy_miss (tr : LegacyTrack.t) : LegacyTrack.t :=
  mark_missed (predit tr).

Lemma legacy_miss_survives tr :
  LegacyTrack.state tr = Confirmed ->
  time_since_update tr + 1 <= _max_age tr ->
  LegacyTrack.state (legacy_miss tr) = Confirmed /\
  time_since_update (legacy_miss tr) = time_since_update tr + 1 /\
  _max_age (legacy_miss tr) = _max_age tr.
Proof.
  intros Hs Hage. destruct tr as [h a t s ni ma]. simpl in *. subst s.
  unfold legacy_miss, mark_missed, predit. simpl.
  assert ((ma <? t + 1) = false) as -> by (apply Z.ltb_ge; lia).
  simpl. auto.
Qed.

Lemma legacy_miss_dies tr :
  LegacyTrack.state tr = Confirmed ->
  _max_age tr < time_since_update tr + 1 ->
  LegacyTrack.state (legacy_miss tr) = Deleted.
Proof.
  intros Hs Hage. destruct tr as [h a t s ni ma]. simpl in *. subst s.
  unfold legacy_miss, mark_missed, predit. simpl.
  assert ((ma <? t + 1) = true) as -> by (apply Z.ltb_lt; lia).
  reflexivity.
Qed.

Lemma legacy_miss_deleted tr :
  LegacyTrack.state tr = Deleted -> LegacyTrack.state (legacy_miss tr) = Deleted.
Proof.
  intros Hs. destruct tr as [h a t s ni ma]. simpl in *. subst s.
  unfold legacy_miss, mark_missed, predit. simpl.
  destruct (ma <? t + 1); reflexivity.
Qed.

Lemma legacy_misses_count (n : nat) : forall tr,
  LegacyTrack.state tr = Confirmed ->
  (time_since_update tr + Z.of_nat n <= _max_age tr) ->
  LegacyTrack.state (Nat.iter n legacy_miss tr) = Confirmed /\
  time_since_update (Nat.iter n legacy_miss tr) = time_since_update tr + Z.of_nat n /\
  _max_age (Nat.iter n legacy_miss tr) = _max_age tr.
Proof.
  induction n as [|n IH]; intros tr Hs Hage.
  - simpl. repeat split; try assumption; lia.
  - destruct (IH tr Hs) as (Hs' & Ht' & Hm'); [lia|].
    change (Nat.iter (S n) legacy_miss tr) with (legacy_miss (Nat.iter n legacy_miss tr)).
    destruct (legacy_miss_survives (Nat.iter n legacy_miss tr) Hs') as (H1 & H2 & H3);
      [lia|].
    repeat split; [exact H1|lia|congruence].
Qed.

Lemma legacy_deleted_stays (n : nat) : forall tr,
  LegacyTrack.state tr = Deleted ->
  LegacyTrack.state (Nat.iter n legacy_miss tr) = Deleted.
Proof.
  induction n as [|n IH]; intros tr Hs; [exact Hs|].
  change (Nat.iter (S n) legacy_miss tr) with (legacy_miss (Nat.iter n legacy_miss tr)).
  apply legacy_miss_deleted. apply IH. exact Hs.
Qed.

(** X20. A Confirmed track of the earlier class that was just updated survives
    [_max_age] frames without detection and is Deleted from the next one
    on: it is the run of consecutive misses that counts. *)
Theorem legacy_track_dies_after_max_age (tr : LegacyTrack.t) (n : nat) :
  LegacyTrack.state (LegacyTrack.update tr) = Confirmed ->
  0 <= _max_age tr ->
  LegacyTrack.state (Nat.iter n legacy_miss (LegacyTrack.update tr)) =
  if Z.of_nat n <=? _max_age tr then Confirmed else Deleted.
Proof.
  intros Hs Hage. destruct (Z.of_nat n <=? _max_age tr) eqn:E.
  - apply Z.leb_le in E.
    apply (legacy_misses_count n (LegacyTrack.update tr) Hs). simpl. lia.
  - apply Z.leb_gt in E.
    assert (exists k, n = (k + S (Z.to_nat (_max_age tr)))%nat) as [k ->]
      by (exists (n - S (Z.to_nat (_max_age tr)))%nat; lia).
    rewrite Nat.iter_add. apply legacy_deleted_stays.
    change (Nat.iter (S (Z.to_nat (_max_age tr))) legacy_miss (LegacyTrack.update tr))
      with (legacy_miss (Nat.iter (Z.to_nat (_max_age tr)) legacy_miss
                                  (LegacyTrack.update tr))).
    destruct (legacy_misses_count (Z.to_nat (_max_age tr)) (LegacyTrack.update tr) Hs)
      as (Hs' & Ht' & Hm'); [simpl; lia|].
    apply legacy_miss_dies; [exact Hs'|]. rewrite Ht', Hm'. simpl. lia.
Qed.

(** A frame in which the track gets a detection: [predit], then [update]. *)
Definition legacy_hit (tr : LegacyTrack.t) : LegacyTrack.t :=
  LegacyTrack.update (predit tr).

(** X21. A new track of the earlier class is Tentative with one hit on
    record.  After [k] frames with a detection each it has [1 + k] hits and
    no frame since its last update, and it is Confirmed exactly when [k] is
    at least 1 and [1 + k] reaches [_n_init]: the hit of the constructor
    counts, but the threshold is only tested in [update]. *)
Theorem legacy_track_confirms_after_n_init (n_init max_age : Z) (k : nat) :
  let tr := Nat.iter k legacy_hit (LegacyTrack_new n_init max_age) in
  hits tr = 1 + Z.of_nat k /\
  _n_init tr = n_init /\
  time_since_update tr = 0 /\
  LegacyTrack.state tr =
    if (0 <? Z.of_nat k) && (n_init <=? 1 + Z.of_nat k) then Confirmed else Tentative.
Proof.
  induction k as [|k IH]; [simpl; auto|].
  cbv zeta in *.
  change (Nat.iter (S k) legacy_hit (LegacyTrack_new n_init max_age))
    with (legacy_hit (Nat.iter k legacy_hit (LegacyTrack_new n_init max_age))).
  destruct (Nat.iter k legacy_hit (LegacyTrack_new n_init max_age)) as [h a t s ni ma].
  simpl in IH. destruct IH as (-> & -> & -> & ->).
  unfold legacy_hit, LegacyTrack.update, predit. cbn [hits _n_init time_since_update
    LegacyTrack.state age _max_age].
  split; [lia|]. split; [reflexivity|]. split; [reflexivity|].
  assert ((0 <? Z.of_nat (S k)) = true) as -> by (apply Z.ltb_lt; lia).
  replace (1 + Z.of_nat (S k)) with (1 + Z.of_nat k + 1) by lia.
  destruct (0 <? Z.of_nat k) eqn:Ek; simpl.
  - destruct (n_init <=? 1 + Z.of_nat k) eqn:E1; simpl.
    + assert ((n_init <=? 1 + Z.of_nat k + 1) = true) as ->
        by (apply Z.leb_le; apply Z.leb_le in E1; lia).
      reflexivity.
    + destruct (n_init <=? 1 + Z.of_nat k + 1); reflexivity.
  - destruct (n_init <=? 1 + Z.of_nat k + 1); reflexivity.
Qed.
End LegacyLifecycle.


(** * The pair hash *)

Lemma lxor_below (n a b : Z) :
  0 <= n -> 0 <= a < 2 ^ n -> 0 <= b < 2 ^ n -> 0 <= Z.lxor a b < 2 ^ n.
Proof.
  intros Hn Ha Hb.
  assert (0 <= Z.lxor a b) as Hnn by (apply Z.lxor_nonneg; split; intros; lia).
  split; [exact Hnn|].
  destruct (Z.eq_dec (Z.lxor a b) 0) as [->|Hne]; [apply Z.pow_pos_nonneg; lia|].
  assert (0 < n) as Hpos.
  { destruct (Z.eq_dec n 0) as [->|Hn0]; [|lia]. exfalso. apply Hne.
    change (2 ^ 0) with 1 in Ha, Hb.
    assert (a = 0) as -> by lia. assert (b = 0) as -> by lia. reflexivity. }
  apply Z.log2_lt_pow2; [lia|].
  apply Z.le_lt_trans with (Z.max (Z.log2 a) (Z.log2 b)); [apply Z.log2_lxor; lia|].
  apply Z.max_lub_lt.
  - destruct (Z.eq_dec a 0) as [->|Ha0]; [simpl; lia|]. apply Z.log2_lt_pow2; lia.
  - destruct (Z.eq_dec b 0) as [->|Hb0]; [simpl; lia|]. apply Z.log2_lt_pow2; lia.
Qed.

(** X22. The pair hash stays within [size_t], but it is symmetric: a pair and
    its mirror image always collide, and every pair of two equal components
    hashes to zero. *)
Theorem PairHash_is_symmetric {T : Type} (hash : T -> Z) (a b : T) :
  PairHash hash hash (a, b) = PairHash hash hash (b, a) /\
  PairHash hash hash (a, a) = 0 /\
  (0 <= hash a < 2 ^ 64 -> 0 <= hash b < 2 ^ 64 ->
   0 <= PairHash hash hash (a, b) < 2 ^ 64).
Proof.
  unfold PairHash. simpl. split; [apply Z.lxor_comm|]. split; [apply Z.lxor_nilpotent|].
  intros Ha Hb. apply lxor_below; [lia|exact Ha|exact Hb].
Qed.

(** * The cluster ids of the foreground points *)

Section ClusterIds.

Lemma emplace_lookup `{Countable K} {V} (k k' : K) (v : V) (m : gmap K V) :
  emplace k v m !! k' =
  match m !! k' with
  | Some w => Some w
  | None => if decide (k = k') then Some v else None
  end.
Proof.
  unfold emplace. destruct (m !! k) as [w|] eqn:Hk.
  - destruct (m !! k') as [w'|] eqn:Hk'; [reflexivity|].
    destruct (decide (k = k')) as [->|Hne]; [congruence|reflexivity].
  - destruct (decide (k = k')) as [->|Hne].
    + rewrite lookup_insert_eq, Hk. reflexivity.
    + rewrite lookup_insert_ne by exact Hne. destruct (m !! k'); reflexivity.
Qed.

Lemma emplace_all_lookup (indices : list Z) (c : Z) : forall (m : gmap Z Z) idx,
  fold_left (fun m index => emplace index c m) indices m !! idx =
  match m !! idx with
  | Some w => Some w
  | None => if decide (idx ∈ indices) then Some c else None
  end.
Proof.
  induction indices as [|index rest IH]; intros m idx; simpl.
  - destruct (m !! idx); [reflexivity|]. destruct (decide (idx ∈ [])) as [Hin|_];
      [inversion Hin|reflexivity].
  - rewrite IH, emplace_lookup. destruct (m !! idx) as [w|]; [reflexivity|].
    destruct (decide (index = idx)) as [->|Hne].
    + destruct (decide (idx ∈ idx :: rest)) as [_|Hnot]; [reflexivity|].
      exfalso. apply Hnot. apply elem_of_cons. left. reflexivity.
    + destruct (decide (idx ∈ rest)) as [Hin|Hnot];
        destruct (decide (idx ∈ index :: rest)) as [Hin'|Hnot']; try reflexivity.
      * exfalso. apply Hnot'. apply elem_of_cons. right. exact Hin.
      * exfalso. apply elem_of_cons in Hin'. destruct Hin' as [->|Hin']; auto.
Qed.

Lemma index_clusters_from (clusters : list (list Z)) : forall (n : nat) (m : gmap Z Z) idx c,
  fold_left
    (fun m '(i, indices) =>
       fold_left (fun m index => emplace index (Z.of_nat i) m) indices m)
    (imap (fun i cl => ((n + i)%nat, cl)) clusters) m !! idx = Some c ->
  m !! idx = Some c \/
  (m !! idx = None /\
   exists (i : nat) cl,
     clusters !! i = Some cl /\ c = Z.of_nat (n + i) /\ idx ∈ cl /\
     forall (i' : nat) cl', (i' < i)%nat -> clusters !! i' = Some cl' -> idx ∉ cl').
Proof.
  induction clusters as [|cl0 rest IH]; intros n m idx c; simpl.
  - auto.
  - intros Hl.
    rewrite (imap_ext _ (fun i cl => ((S n + i)%nat, cl))) in Hl
      by (intros i x _; simpl; f_equal; lia).
    apply IH in Hl. rewrite emplace_all_lookup in Hl.
    destruct (m !! idx) as [w|] eqn:Hm.
    + left. destruct Hl as [Hl|[Hl _]]; [exact Hl|discriminate].
    + right. split; [reflexivity|].
      destruct (decide (idx ∈ cl0)) as [Hin|Hnot].
      * destruct Hl as [Hl|[Hl _]]; [|discriminate]. injection Hl as <-.
        exists O, cl0. rewrite Nat.add_0_r. repeat split; try assumption; try reflexivity.
        intros i' cl' Hlt. lia.
      * destruct Hl as [Hl|(_ & i & cl & Hcl & -> & Hin & Hfirst)]; [discriminate|].
        exists (S i), cl. repeat split; try assumption; [f_equal; lia|].
        intros [|i'] cl' Hlt Hcl'; simpl in Hcl'.
        -- injection Hcl' as <-. exact Hnot.
        -- apply (Hfirst i' cl'); [lia|exact Hcl'].
Qed.

(** X23. The last loop of [cluster] gives a foreground point the position of the
    first cluster that lists it: the id is a valid position in [clusters_],
    the point is a member of that cluster and of no earlier one. *)
Theorem cluster_id_is_first_cluster (clusters : list (list Z)) (idx c : Z) :
  index_clusters clusters !! idx = Some c ->
  exists (i : nat) cl,
    c = Z.of_nat i /\ clusters !! i = Some cl /\ idx ∈ cl /\
    forall (i' : nat) cl', (i' < i)%nat -> clusters !! i' = Some cl' -> idx ∉ cl'.
Proof.
  intros Hl. unfold index_clusters in Hl.
  rewrite (imap_ext _ (fun i cl => ((0 + i)%nat, cl))) in Hl by reflexivity.
  apply index_clusters_from in Hl.
  destruct Hl as [Hl|(_ & i & cl & Hcl & -> & Hin & Hfirst)];
    [rewrite lookup_empty in Hl; discriminate|].
  exists i, cl. auto.
Qed.
End ClusterIds.


(** * Projection followed by back-projection *)

Section RoundTrip.
Local Open Scope Q_scope.

(** A matrix with [rows] rows of [cols] entries. *)
Definition is_matx (rows cols : nat) (m : Matx) : Prop :=
  length m = rows /\ Forall (fun row => length row = cols) m.

Definition Point3f_eq (p q : Point3f) : Prop :=
  px p == px q /\ py p == py q /\ pz p == pz q.

Lemma unproject_entry (a0 a1 a2 c0 c1 c2 z : Q) :
  ~ z == 0 -> ~ c2 == 0 ->
  0 + a0 * c2 * (c0 * z / c2 / z) + a1 * c2 * (c1 * z / c2 / z) + a2 * c2 * 1 ==
  a0 * c0 + a1 * c1 + a2 * c2.
Proof. intros Hz Hc. field. split; assumption. Qed.

Lemma inverse_entry (a0 a1 a2 k00 k01 k02 k10 k11 k12 k20 k21 k22 y0 y1 y2 e0 e1 e2 : Q) :
  0 + a0 * k00 + a1 * k10 + a2 * k20 == e0 ->
  0 + a0 * k01 + a1 * k11 + a2 * k21 == e1 ->
  0 + a0 * k02 + a1 * k12 + a2 * k22 == e2 ->
  a0 * (0 + k00 * y0 + k01 * y1 + k02 * y2) +
  a1 * (0 + k10 * y0 + k11 * y1 + k12 * y2) +
  a2 * (0 + k20 * y0 + k21 * y1 + k22 * y2) ==
  e0 * y0 + e1 * y1 + e2 * y2.
Proof. intros <- <- <-. ring. Qed.

Lemma list3 {A} (l : list A) :
  length l = 3%nat -> exists a b c, l = [a; b; c].
Proof.
  destruct l as [|a [|b [|c [|d l]]]]; simpl; intros Hl; try discriminate.
  eauto.
Qed.

Lemma list4 {A} (l : list A) :
  length l = 4%nat -> exists a b c d, l = [a; b; c; d].
Proof.
  destruct l as [|a [|b [|c [|d [|e l]]]]]; simpl; intros Hl; try discriminate.
  eauto.
Qed.

Lemma matx33 (m : Matx) :
  is_matx 3 3 m ->
  exists a00 a01 a02 a10 a11 a12 a20 a21 a22,
    m = [[a00; a01; a02]; [a10; a11; a12]; [a20; a21; a22]].
Proof.
  intros [Hl Hrows]. destruct (list3 m Hl) as (r0 & r1 & r2 & ->).
  apply Forall_cons in Hrows. destruct Hrows as [H0 Hrows].
  apply Forall_cons in Hrows. destruct Hrows as [H1 Hrows].
  apply Forall_cons in Hrows. destruct Hrows as [H2 _].
  destruct (list3 r0 H0) as (? & ? & ? & ->).
  destruct (list3 r1 H1) as (? & ? & ? & ->).
  destruct (list3 r2 H2) as (? & ? & ? & ->).
  repeat eexists.
Qed.

Lemma matx44 (m : Matx) :
  is_matx 4 4 m ->
  exists a00 a01 a02 a03 a10 a11 a12 a13 a20 a21 a22 a23 r3,
    m = [[a00; a01; a02; a03]; [a10; a11; a12; a13]; [a20; a21; a22; a23]; r3].
Proof.
  intros [Hl Hrows]. destruct (list4 m Hl) as (r0 & r1 & r2 & r3 & ->).
  apply Forall_cons in Hrows. destruct Hrows as [H0 Hrows].
  apply Forall_cons in Hrows. destruct Hrows as [H1 Hrows].
  apply Forall_cons in Hrows. destruct Hrows as [H2 _].
  destruct (list4 r0 H0) as (? & ? & ? & ? & ->).
  destruct (list4 r1 H1) as (? & ? & ? & ? & ->).
  destruct (list4 r2 H2) as (? & ? & ? & ? & ->).
  repeat eexists.
Qed.

(** With an exact inverse of the intrinsic matrix, a non-zero zoom and a
    non-zero depth, [cameraToLidar] applied to [lidarToCamera p] gives the
    rotation [camera_to_lidar_rotate_] applied to the camera-frame point
    plus [camera_to_lidar_translate_]: the translation is added before the
    rotation. *)
Lemma back_projection_rotates_sum (P : Params) (p : Point3f) :
  is_matx 3 3 (intrinsic_ P) ->
  is_matx 3 3 (intrinsic_inv_ P) ->
  is_matx 4 4 (lidar_to_camera_transform_ P) ->
  is_matx 3 3 (camera_to_lidar_rotate_ P) ->
  length (camera_to_lidar_translate_ P) = 3%nat ->
  Forall2 (Forall2 Qeq) (mat_mul (intrinsic_inv_ P) (intrinsic_ P)) identity3 ->
  ~ zoom_factor_ P == 0 ->
  ~ pz (lidarToCamera P p) == 0 ->
  let camera_point :=
    take 3 (mat_vec (lidar_to_camera_transform_ P) [px p; py p; pz p; 1]) in
  let lidar_point :=
    mat_vec (camera_to_lidar_rotate_ P)
            (vec_plus camera_point (camera_to_lidar_translate_ P)) in
  Point3f_eq (cameraToLidar P (lidarToCamera P p))
             (mkPoint3f (at_ lidar_point 0) (at_ lidar_point 1) (at_ lidar_point 2)).
Proof.
  intros HK HKi HM HR Ht Hinv Hz Hd. destruct p as [x y z].
  destruct (matx33 _ HK) as (k00 & k01 & k02 & k10 & k11 & k12 & k20 & k21 & k22 & EK).
  destruct (matx33 _ HKi) as (a00 & a01 & a02 & a10 & a11 & a12 & a20 & a21 & a22 & EKi).
  destruct (matx44 _ HM)
    as (m00 & m01 & m02 & m03 & m10 & m11 & m12 & m13 & m20 & m21 & m22 & m23 & r3 & EM).
  destruct (matx33 _ HR) as (r00 & r01 & r02 & r10 & r11 & r12 & r20 & r21 & r22 & ER).
  destruct (list3 _ Ht) as (t0 & t1 & t2 & ET).
  unfold Point3f_eq, cameraToLidar, lidarToCamera in *.
  rewrite EK, EKi in Hinv. rewrite EK, EKi, EM, ER, ET in *.
  clear EK EKi EM ER ET HK HKi HM HR Ht.
  cbv beta iota zeta delta
      [mat_mul mat_vec mat_scale vec_plus dot Qsum zip_with fold_left map column seq
       length hd nth at_ take identity3 px py pz] in Hinv, Hd |- *.
  apply Forall2_cons_1 in Hinv. destruct Hinv as [Hrow0 Hinv].
  apply Forall2_cons_1 in Hinv. destruct Hinv as [Hrow1 Hinv].
  apply Forall2_cons_1 in Hinv. destruct Hinv as [Hrow2 _].
  apply Forall2_cons_1 in Hrow0. destruct Hrow0 as [H00 Hrow0].
  apply Forall2_cons_1 in Hrow0. destruct Hrow0 as [H01 Hrow0].
  apply Forall2_cons_1 in Hrow0. destruct Hrow0 as [H02 _].
  apply Forall2_cons_1 in Hrow1. destruct Hrow1 as [H10 Hrow1].
  apply Forall2_cons_1 in Hrow1. destruct Hrow1 as [H11 Hrow1].
  apply Forall2_cons_1 in Hrow1. destruct Hrow1 as [H12 _].
  apply Forall2_cons_1 in Hrow2. destruct Hrow2 as [H20 Hrow2].
  apply Forall2_cons_1 in Hrow2. destruct Hrow2 as [H21 Hrow2].
  apply Forall2_cons_1 in Hrow2. destruct Hrow2 as [H22 _].
  set (y0 := 0 + m00 * x + m01 * y + m02 * z + m03 * 1) in *.
  set (y1 := 0 + m10 * x + m11 * y + m12 * z + m13 * 1) in *.
  set (y2 := 0 + m20 * x + m21 * y + m22 * z + m23 * 1) in *.
  set (c0 := 0 + k00 * y0 + k01 * y1 + k02 * y2) in *.
  set (c1 := 0 + k10 * y0 + k11 * y1 + k12 * y2) in *.
  set (c2 := 0 + k20 * y0 + k21 * y1 + k22 * y2) in *.
  assert (forall b0 b1 b2 e0 e1 e2,
            0 + b0 * k00 + b1 * k10 + b2 * k20 == e0 ->
            0 + b0 * k01 + b1 * k11 + b2 * k21 == e1 ->
            0 + b0 * k02 + b1 * k12 + b2 * k22 == e2 ->
            0 + b0 * c2 * (c0 * zoom_factor_ P / c2 / zoom_factor_ P) +
            b1 * c2 * (c1 * zoom_factor_ P / c2 / zoom_factor_ P) + b2 * c2 * 1 ==
            e0 * y0 + e1 * y1 + e2 * y2) as Hentry.
  { intros b0 b1 b2 e0 e1 e2 E0 E1 E2.
    rewrite (unproject_entry b0 b1 b2 c0 c1 c2 (zoom_factor_ P) Hz Hd).
    unfold c0, c1, c2. apply inverse_entry; assumption. }
  rewrite (Hentry a00 a01 a02 1 0 0 H00 H01 H02).
  rewrite (Hentry a10 a11 a12 0 1 0 H10 H11 H12).
  rewrite (Hentry a20 a21 a22 0 0 1 H20 H21 H22).
  repeat split; ring.
Qed.

Lemma matx44_rows (m : Matx) :
  is_matx 4 4 m ->
  exists a00 a01 a02 a03 a10 a11 a12 a13 a20 a21 a22 a23 a30 a31 a32 a33,
    m = [[a00; a01; a02; a03]; [a10; a11; a12; a13];
         [a20; a21; a22; a23]; [a30; a31; a32; a33]].
Proof.
  intros Hm. pose proof Hm as [_ Hrows].
  destruct (matx44 m Hm)
    as (a00 & a01 & a02 & a03 & a10 & a11 & a12 & a13 & a20 & a21 & a22 & a23 & r3 & ->).
  do 3 (apply Forall_cons in Hrows; destruct Hrows as [_ Hrows]).
  apply Forall_cons in Hrows. destruct Hrows as [H3 _].
  destruct (list4 r3 H3) as (? & ? & ? & ? & ->).
  repeat eexists.
Qed.

(** Row [i] of an inverse against the columns of the matrix, and a
    homogeneous last row. *)
Lemma offset_entry (c0 c1 c2 c3 m00 m01 m02 m03 m10 m11 m12 m13 m20 m21 m22 m23
                    m30 m31 m32 m33 t0 t1 t2 x y z e0 e1 e2 : Q) :
  0 + c0 * m00 + c1 * m10 + c2 * m20 + c3 * m30 == e0 ->
  0 + c0 * m01 + c1 * m11 + c2 * m21 + c3 * m31 == e1 ->
  0 + c0 * m02 + c1 * m12 + c2 * m22 + c3 * m32 == e2 ->
  0 + c0 * m03 + c1 * m13 + c2 * m23 + c3 * m33 == 0 ->
  m30 == 0 -> m31 == 0 -> m32 == 0 -> m33 == 1 ->
  0 + c0 * (0 + m00 * x + m01 * y + m02 * z + m03 * 1 + t0) +
  c1 * (0 + m10 * x + m11 * y + m12 * z + m13 * 1 + t1) +
  c2 * (0 + m20 * x + m21 * y + m22 * z + m23 * 1 + t2) ==
  e0 * x + e1 * y + e2 * z + (0 + c0 * t0 + c1 * t1 + c2 * t2 - c3).
Proof.
  intros <- <- <- H3 H30 H31 H32 H33. rewrite H30, H31, H32, H33 in *.
  assert (c3 == 0 - (c0 * m03 + c1 * m13 + c2 * m23)) as ->.
  { apply Qplus_inj_l with (z := c0 * m03 + c1 * m13 + c2 * m23).
    transitivity (0 + c0 * m03 + c1 * m13 + c2 * m23 + c3 * 1); [ring|].
    rewrite H3. ring. }
  ring.
Qed.

(** A homogeneous transform: the last row is (0, 0, 0, 1). *)
Definition homogeneous (m : Matx) : Prop := Forall2 Qeq (nth 3 m []) [0; 0; 0; 1].

Lemma back_projection_offset_params (P : Params) (camera_to_lidar : Matx) (p : Point3f) :
  camera_to_lidar_rotate_ P = get_minor 3 3 0 0 camera_to_lidar ->
  camera_to_lidar_translate_ P = column 0 (get_minor 3 1 0 3 camera_to_lidar) ->
  is_matx 3 3 (intrinsic_ P) ->
  is_matx 3 3 (intrinsic_inv_ P) ->
  is_matx 4 4 (lidar_to_camera_transform_ P) ->
  is_matx 4 4 camera_to_lidar ->
  Forall2 (Forall2 Qeq) (mat_mul (intrinsic_inv_ P) (intrinsic_ P)) identity3 ->
  Forall2 (Forall2 Qeq) (mat_mul camera_to_lidar (lidar_to_camera_transform_ P))
          identity4 ->
  homogeneous (lidar_to_camera_transform_ P) ->
  ~ zoom_factor_ P == 0 ->
  ~ pz (lidarToCamera P p) == 0 ->
  let rotated := mat_vec (camera_to_lidar_rotate_ P) (camera_to_lidar_translate_ P) in
  let offset i := at_ rotated i - at_ (camera_to_lidar_translate_ P) i in
  Point3f_eq (cameraToLidar P (lidarToCamera P p))
             (mkPoint3f (px p + offset 0%nat) (py p + offset 1%nat) (pz p + offset 2%nat)).
Proof.
  intros ER ET HK HKi HM HC Hinv HinvM Hhom Hz Hd.
  destruct (matx44_rows _ HC)
    as (c00 & c01 & c02 & c03 & c10 & c11 & c12 & c13 & c20 & c21 & c22 & c23
        & c30 & c31 & c32 & c33 & EC).
  destruct (matx44_rows _ HM)
    as (m00 & m01 & m02 & m03 & m10 & m11 & m12 & m13 & m20 & m21 & m22 & m23
        & m30 & m31 & m32 & m33 & EM).
  rewrite EC in ER, ET, HinvM.
  change (get_minor 3 3 0 0 _) with [[c00; c01; c02]; [c10; c11; c12]; [c20; c21; c22]]
    in ER.
  change (column 0 (get_minor 3 1 0 3 _)) with [c03; c13; c23] in ET.
  assert (is_matx 3 3 (camera_to_lidar_rotate_ P)) as HR
    by (rewrite ER; split; [reflexivity|repeat constructor]).
  assert (length (camera_to_lidar_translate_ P) = 3%nat) as Ht by (rewrite ET; reflexivity).
  destruct (back_projection_rotates_sum P p HK HKi HM HR Ht Hinv Hz Hd) as (Hx & Hy & Hw).
  clear HK HKi HM HR Ht Hinv Hz Hd HC EC.
  unfold homogeneous in Hhom. rewrite EM in Hhom, HinvM.
  cbv beta iota zeta delta
      [mat_mul dot Qsum zip_with fold_left map column seq length hd nth identity4]
    in Hhom, HinvM.
  apply Forall2_cons_1 in Hhom. destruct Hhom as [H30 Hhom].
  apply Forall2_cons_1 in Hhom. destruct Hhom as [H31 Hhom].
  apply Forall2_cons_1 in Hhom. destruct Hhom as [H32 Hhom].
  apply Forall2_cons_1 in Hhom. destruct Hhom as [H33 _].
  apply Forall2_cons_1 in HinvM. destruct HinvM as [Hrow0 HinvM].
  apply Forall2_cons_1 in HinvM. destruct HinvM as [Hrow1 HinvM].
  apply Forall2_cons_1 in HinvM. destruct HinvM as [Hrow2 _].
  apply Forall2_cons_1 in Hrow0. destruct Hrow0 as [E00 Hrow0].
  apply Forall2_cons_1 in Hrow0. destruct Hrow0 as [E01 Hrow0].
  apply Forall2_cons_1 in Hrow0. destruct Hrow0 as [E02 Hrow0].
  apply Forall2_cons_1 in Hrow0. destruct Hrow0 as [E03 _].
  apply Forall2_cons_1 in Hrow1. destruct Hrow1 as [E10 Hrow1].
  apply Forall2_cons_1 in Hrow1. destruct Hrow1 as [E11 Hrow1].
  apply Forall2_cons_1 in Hrow1. destruct Hrow1 as [E12 Hrow1].
  apply Forall2_cons_1 in Hrow1. destruct Hrow1 as [E13 _].
  apply Forall2_cons_1 in Hrow2. destruct Hrow2 as [E20 Hrow2].
  apply Forall2_cons_1 in Hrow2. destruct Hrow2 as [E21 Hrow2].
  apply Forall2_cons_1 in Hrow2. destruct Hrow2 as [E22 Hrow2].
  apply Forall2_cons_1 in Hrow2. destruct Hrow2 as [E23 _].
  destruct p as [x y z]. unfold Point3f_eq.
  cbn [px py pz] in Hx, Hy, Hw |- *.
  split; [|split]; (etransitivity; [eassumption|]); rewrite ER, ET, EM;
    cbv beta iota zeta delta
        [mat_vec vec_plus dot Qsum zip_with fold_left map take at_ nth].
  - rewrite (offset_entry c00 c01 c02 c03 m00 m01 m02 m03 m10 m11 m12 m13
               m20 m21 m22 m23 m30 m31 m32 m33 c03 c13 c23 x y z 1 0 0
               E00 E01 E02 E03 H30 H31 H32 H33).
    ring.
  - rewrite (offset_entry c10 c11 c12 c13 m00 m01 m02 m03 m10 m11 m12 m13
               m20 m21 m22 m23 m30 m31 m32 m33 c03 c13 c23 x y z 0 1 0
               E10 E11 E12 E13 H30 H31 H32 H33).
    ring.
  - rewrite (offset_entry c20 c21 c22 c23 m00 m01 m02 m03 m10 m11 m12 m13
               m20 m21 m22 m23 m30 m31 m32 m33 c03 c13 c23 x y z 0 0 1
               E20 E21 E22 E23 H30 H31 H32 H33).
    ring.
Qed.
End RoundTrip.

(** * The frames of a constructed locator *)

Section ConstructedLocator.
Local Open Scope Q_scope.
Variable inv : Matx -> Matx.
Variables depth background diff : Mat.
Variables image_width image_height : Z.
Variables intrinsic lidar_to_camera world_to_camera : Matx.
Variable zoom_factor : Q.
Variable queue_size : Z.
Variables min_depth_diff max_depth_diff max_distance : Q.

(** The parameters the constructor stores. *)
Definition constructed : Params :=
  params (Locator_new inv depth background diff image_width image_height
                      intrinsic lidar_to_camera world_to_camera zoom_factor
                      queue_size min_depth_diff max_depth_diff max_distance).

(** X24. In a locator built by the constructor from invertible matrices and a
    homogeneous lidar-to-camera transform, projecting a lidar point with
    [lidarToCamera] and taking it back with [cameraToLidar] gives the point
    moved by [R t - t], with [R] and [t] the rotation and the translation
    of the inverse transform: [cameraToLidar] adds the translation before
    it rotates. *)
Theorem back_projection_is_off_by_rotated_translation (p : Point3f) :
  is_matx 3 3 intrinsic ->
  is_matx 3 3 (inv intrinsic) ->
  is_matx 4 4 lidar_to_camera ->
  is_matx 4 4 (inv lidar_to_camera) ->
  Forall2 (Forall2 Qeq) (mat_mul (inv intrinsic) intrinsic) identity3 ->
  Forall2 (Forall2 Qeq) (mat_mul (inv lidar_to_camera) lidar_to_camera) identity4 ->
  homogeneous lidar_to_camera ->
  ~ zoom_factor == 0 ->
  ~ pz (lidarToCamera constructed p) == 0 ->
  let rotated := mat_vec (camera_to_lidar_rotate_ constructed) (camera_to_lidar_translate_ constructed) in
  let offset i := at_ rotated i - at_ (camera_to_lidar_translate_ constructed) i in
  Point3f_eq (cameraToLidar constructed (lidarToCamera constructed p))
             (mkPoint3f (px p + offset 0%nat) (py p + offset 1%nat) (pz p + offset 2%nat)).
Proof.
  intros HK HKi HM HC Hinv HinvM Hhom Hz Hd.
  exact (back_projection_offset_params constructed (inv lidar_to_camera) p eq_refl eq_refl
           HK HKi HM HC Hinv HinvM Hhom Hz Hd).
Qed.

Lemma world_entry (w0 w1 w2 w3 c00 c01 c02 c03 c10 c11 c12 c13 c20 c21 c22 c23
                   c30 c31 c32 c33 y0 y1 y2 y3 e0 e1 e2 e3 : Q) :
  0 + w0 * c00 + w1 * c10 + w2 * c20 + w3 * c30 == e0 ->
  0 + w0 * c01 + w1 * c11 + w2 * c21 + w3 * c31 == e1 ->
  0 + w0 * c02 + w1 * c12 + w2 * c22 + w3 * c32 == e2 ->
  0 + w0 * c03 + w1 * c13 + w2 * c23 + w3 * c33 == e3 ->
  w0 * (c00 * y0 + c01 * y1 + c02 * y2 + c03 * y3) +
  w1 * (c10 * y0 + c11 * y1 + c12 * y2 + c13 * y3) +
  w2 * (c20 * y0 + c21 * y1 + c22 * y2 + c23 * y3) +
  w3 * (c30 * y0 + c31 * y1 + c32 * y2 + c33 * y3) ==
  e0 * y0 + e1 * y1 + e2 * y2 + e3 * y3.
Proof. intros <- <- <- <-. ring. Qed.

(** X25. In a locator built by the constructor from homogeneous transforms and
    an exact inverse of [world_to_camera], the point [lidarToWorld] returns
    has, through [world_to_camera], the camera-frame coordinates that
    [lidar_to_camera] gives the lidar point. *)
Theorem lidarToWorld_agrees_in_camera_frame (p : Point3f) :
  is_matx 4 4 lidar_to_camera ->
  is_matx 4 4 world_to_camera ->
  is_matx 4 4 (inv world_to_camera) ->
  Forall2 (Forall2 Qeq) (mat_mul world_to_camera (inv world_to_camera)) identity4 ->
  homogeneous lidar_to_camera ->
  homogeneous world_to_camera ->
  let world := lidarToWorld constructed p in
  Forall2 Qeq (mat_vec world_to_camera [px world; py world; pz world; 1])
              (mat_vec lidar_to_camera [px p; py p; pz p; 1]).
Proof.
  intros HM HW HC Hinv HhM HhW.
  unfold lidarToWorld, constructed, Locator_new.
  cbn [params camera_to_world_transform_ lidar_to_camera_transform_].
  destruct (matx44_rows _ HC)
    as (c00 & c01 & c02 & c03 & c10 & c11 & c12 & c13 & c20 & c21 & c22 & c23
        & c30 & c31 & c32 & c33 & EC).
  destruct (matx44_rows _ HM)
    as (m00 & m01 & m02 & m03 & m10 & m11 & m12 & m13 & m20 & m21 & m22 & m23
        & m30 & m31 & m32 & m33 & EM).
  destruct (matx44_rows _ HW)
    as (w00 & w01 & w02 & w03 & w10 & w11 & w12 & w13 & w20 & w21 & w22 & w23
        & w30 & w31 & w32 & w33 & EW).
  unfold homogeneous in HhM, HhW. rewrite EC, EW in Hinv. rewrite EM in HhM.
  rewrite EW in HhW. rewrite EC, EM, EW. clear EC EM EW HM HW HC.
  destruct p as [x y z].
  cbv beta iota zeta delta
      [mat_mul mat_vec dot Qsum zip_with fold_left map column seq length hd nth at_
       identity4 px py pz] in Hinv, HhM, HhW |- *.
  apply Forall2_cons_1 in HhM. destruct HhM as [M30 HhM].
  apply Forall2_cons_1 in HhM. destruct HhM as [M31 HhM].
  apply Forall2_cons_1 in HhM. destruct HhM as [M32 HhM].
  apply Forall2_cons_1 in HhM. destruct HhM as [M33 _].
  apply Forall2_cons_1 in HhW. destruct HhW as [W30 HhW].
  apply Forall2_cons_1 in HhW. destruct HhW as [W31 HhW].
  apply Forall2_cons_1 in HhW. destruct HhW as [W32 HhW].
  apply Forall2_cons_1 in HhW. destruct HhW as [W33 _].
  apply Forall2_cons_1 in Hinv. destruct Hinv as [Hrow0 Hinv].
  apply Forall2_cons_1 in Hinv. destruct Hinv as [Hrow1 Hinv].
  apply Forall2_cons_1 in Hinv. destruct Hinv as [Hrow2 Hinv].
  apply Forall2_cons_1 in Hinv. destruct Hinv as [Hrow3 _].
  apply Forall2_cons_1 in Hrow0. destruct Hrow0 as [E00 Hrow0].
  apply Forall2_cons_1 in Hrow0. destruct Hrow0 as [E01 Hrow0].
  apply Forall2_cons_1 in Hrow0. destruct Hrow0 as [E02 Hrow0].
  apply Forall2_cons_1 in Hrow0. destruct Hrow0 as [E03 _].
  apply Forall2_cons_1 in Hrow1. destruct Hrow1 as [E10 Hrow1].
  apply Forall2_cons_1 in Hrow1. destruct Hrow1 as [E11 Hrow1].
  apply Forall2_cons_1 in Hrow1. destruct Hrow1 as [E12 Hrow1].
  apply Forall2_cons_1 in Hrow1. destruct Hrow1 as [E13 _].
  apply Forall2_cons_1 in Hrow2. destruct Hrow2 as [E20 Hrow2].
  apply Forall2_cons_1 in Hrow2. destruct Hrow2 as [E21 Hrow2].
  apply Forall2_cons_1 in Hrow2. destruct Hrow2 as [E22 Hrow2].
  apply Forall2_cons_1 in Hrow2. destruct Hrow2 as [E23 _].
  apply Forall2_cons_1 in Hrow3. destruct Hrow3 as [E30 Hrow3].
  apply Forall2_cons_1 in Hrow3. destruct Hrow3 as [E31 Hrow3].
  apply Forall2_cons_1 in Hrow3. destruct Hrow3 as [E32 Hrow3].
  apply Forall2_cons_1 in Hrow3. destruct Hrow3 as [E33 _].
  (* the last row of the inverse is (0, 0, 0, 1) as well *)
  assert (forall c0 c1 c2 c3 e,
            0 + w30 * c0 + w31 * c1 + w32 * c2 + w33 * c3 == e -> c3 == e) as Hlast.
  { intros c0 c1 c2 c3 e <-. rewrite W30, W31, W32, W33. ring. }
  apply Hlast in E30, E31, E32, E33.
  set (y0 := m00 * x + m01 * y + m02 * z + m03).
  set (y1 := m10 * x + m11 * y + m12 * z + m13).
  set (y2 := m20 * x + m21 * y + m22 * z + m23).
  assert (forall w0 w1 w2 w3 e0 e1 e2 e3 X0 X1 X2 Y,
            0 + w0 * c00 + w1 * c10 + w2 * c20 + w3 * c30 == e0 ->
            0 + w0 * c01 + w1 * c11 + w2 * c21 + w3 * c31 == e1 ->
            0 + w0 * c02 + w1 * c12 + w2 * c22 + w3 * c32 == e2 ->
            0 + w0 * c03 + w1 * c13 + w2 * c23 + w3 * c33 == e3 ->
            X0 == c00 * y0 + c01 * y1 + c02 * y2 + c03 * 1 ->
            X1 == c10 * y0 + c11 * y1 + c12 * y2 + c13 * 1 ->
            X2 == c20 * y0 + c21 * y1 + c22 * y2 + c23 * 1 ->
            e0 * y0 + e1 * y1 + e2 * y2 + e3 * 1 == Y ->
            0 + w0 * X0 + w1 * X1 + w2 * X2 + w3 * 1 == Y) as Hentry.
  { intros w0 w1 w2 w3 e0 e1 e2 e3 X0 X1 X2 Y H0 H1 H2 H3 -> -> -> <-.
    rewrite <- (world_entry w0 w1 w2 w3 c00 c01 c02 c03 c10 c11 c12 c13
                            c20 c21 c22 c23 c30 c31 c32 c33 y0 y1 y2 1
                            e0 e1 e2 e3 H0 H1 H2 H3).
    rewrite E30, E31, E32, E33. ring. }
  assert (forall c0 c1 c2 c3,
            0 + (0 + c0 * m00 + c1 * m10 + c2 * m20 + c3 * m30) * x +
            (0 + c0 * m01 + c1 * m11 + c2 * m21 + c3 * m31) * y +
            (0 + c0 * m02 + c1 * m12 + c2 * m22 + c3 * m32) * z +
            (0 + c0 * m03 + c1 * m13 + c2 * m23 + c3 * m33) * 1 ==
            c0 * y0 + c1 * y1 + c2 * y2 + c3 * 1) as Hworld.
  { intros c0 c1 c2 c3. unfold y0, y1, y2. rewrite M30, M31, M32, M33. ring. }
  repeat constructor.
  - apply (Hentry w00 w01 w02 w03 1 0 0 0 _ _ _ _ E00 E01 E02 E03
             (Hworld _ _ _ _) (Hworld _ _ _ _) (Hworld _ _ _ _)).
    unfold y0. ring.
  - apply (Hentry w10 w11 w12 w13 0 1 0 0 _ _ _ _ E10 E11 E12 E13
             (Hworld _ _ _ _) (Hworld _ _ _ _) (Hworld _ _ _ _)).
    unfold y1. ring.
  - apply (Hentry w20 w21 w22 w23 0 0 1 0 _ _ _ _ E20 E21 E22 E23
             (Hworld _ _ _ _) (Hworld _ _ _ _) (Hworld _ _ _ _)).
    unfold y2. ring.
  - rewrite W30, W31, W32, W33, M30, M31, M32, M33. ring.
Qed.
End ConstructedLocator.


(** * Worked instances *)

Section WorkedInstances.
Local Existing Instance LastSeen_filter.

Definition three_tracks : Tracker LastSeen :=
  sample_tracker [sample_track 0 Tentative 1 0;
                  sample_track 1 Confirmed 2 2;
                  sample_track 2 Confirmed 2 0].

Lemma three_tracks_run :
  Tracker_update (-1) (fixed_auction [-1; -1; -1]) three_tracks [] 5 =
  Returns (sample_tracker [sample_track 2 Confirmed 2 1], []).
Proof. vm_compute. reflexivity. Qed.

Lemma new_track_run :
  exists T' robots',
    Tracker_update (-1) (fixed_auction []) (sample_tracker []) [sample_robot] 5 =
    Returns (T', robots').
Proof. eexists _, _. vm_compute. reflexivity. Qed.

Lemma confirmed_tracks_stay_below_miss_thresh_witness :
  miss_thresh_ (sample_tracker [sample_track 2 Confirmed 2 1]) =
    miss_thresh_ three_tracks /\
  Forall (misses_below_threshold (sample_tracker [sample_track 2 Confirmed 2 1]))
         (tracks_ (sample_tracker [sample_track 2 Confirmed 2 1])).
Proof.
  apply (confirmed_tracks_stay_below_miss_thresh (-1) (fixed_auction [-1; -1; -1])
           three_tracks (sample_tracker [sample_track 2 Confirmed 2 1]) [] [] 5).
  - simpl. lia.
  - repeat constructor; unfold misses_below_threshold; simpl; intros; lia || discriminate.
  - exact three_tracks_run.
Defined.

(** Two Confirmed tracks that are not matched and a located robot that
    starts a third. *)
Lemma two_tracks_new_robot_run :
  exists T' robots',
    Tracker_update (-1) (fixed_auction [-1; -1])
                   (sample_tracker [sample_track 0 Confirmed 2 0;
                                    sample_track 2 Confirmed 2 0])
                   [sample_robot] 5 = Returns (T', robots') /\
    map track_id_ (tracks_ T') = [0; 2; 7] /\ latest_id_ T' = 8.
Proof.
  destruct sample_robot_feature as (v & Hv & Hlen).
  destruct (cost_matrix_returns
              (sample_tracker [sample_track 0 Confirmed 2 0; sample_track 2 Confirmed 2 0])
              (map (track_predict 5)
                   [sample_track 0 Confirmed 2 0; sample_track 2 Confirmed 2 0])
              [sample_robot]) as [cost Hcost].
  { constructor; [|constructor]. exists v. split; [exact Hv|].
    repeat constructor; symmetry; exact Hlen. }
  unfold Tracker_update.
  change (tracks_ (sample_tracker ?l)) with l. rewrite Hcost. cbn [obind].
  unfold fixed_auction.
  eexists _, _. split; [vm_compute; reflexivity|]. split; reflexivity.
Qed.

Lemma track_ids_stay_unique_witness :
  exists T' robots',
    Tracker_update (-1) (fixed_auction [-1; -1])
                   (sample_tracker [sample_track 0 Confirmed 2 0;
                                    sample_track 2 Confirmed 2 0])
                   [sample_robot] 5 = Returns (T', robots') /\
    map track_id_ (tracks_ T') = [0; 2; 7] /\
    NoDup (map track_id_ (tracks_ T')) /\
    Forall (fun track => track_id_ track < latest_id_ T') (tracks_ T') /\
    7 <= latest_id_ T' <= 2 ^ 31 - 1.
Proof.
  destruct two_tracks_new_robot_run as (T' & robots' & Hret & Hids & _).
  exists T', robots'. split; [exact Hret|]. split; [exact Hids|].
  apply (track_ids_stay_unique (-1) (fixed_auction [-1; -1])
           (sample_tracker [sample_track 0 Confirmed 2 0; sample_track 2 Confirmed 2 0])
           T' [sample_robot] robots' 5 (2 ^ 31 - 1)).
  - apply NoDup_cons. split; [|apply NoDup_singleton].
    intros Hin. apply list_elem_of_singleton in Hin. discriminate.
  - repeat constructor.
  - vm_compute. discriminate.
  - exact Hret.
Defined.

Lemma update_keeps_robot_detections_witness :
  exists T' robots',
    Tracker_update (-1) (fixed_auction []) (sample_tracker []) [sample_robot] 5 =
      Returns (T', robots') /\
    length robots' = 1%nat /\
    Forall2 same_detection [sample_robot] robots'.
Proof.
  destruct new_track_run as (T' & robots' & Hret). exists T', robots'.
  split; [exact Hret|].
  exact (update_keeps_robot_detections (-1) (fixed_auction []) (sample_tracker []) T'
           [sample_robot] robots' 5 Hret).
Defined.


Lemma unmatched_indices_are_the_rest_witness :
  exists unmatched,
    erase_all (sort_desc [2; 0]) (seqZ 0 4) = Returns unmatched /\
    NoDup unmatched /\
    (forall e, e ∈ unmatched <-> 0 <= e < 4 /\ e ∉ [2; 0]).
Proof.
  apply (unmatched_indices_are_the_rest [2; 0] 4).
  - apply NoDup_cons. split; [|apply NoDup_singleton].
    intros Hin. apply list_elem_of_singleton in Hin. discriminate.
  - repeat constructor; lia.
Defined.

Lemma Tracker_update_returns_witness :
  exists T' robots',
    Tracker_update (-1) (fixed_auction [0])
                   (sample_tracker [sample_track 0 Confirmed 2 1]) [sample_robot] 5 =
    Returns (T', robots').
Proof.
  apply (Tracker_update_returns (-1) (fixed_auction [0])).
  - constructor; [|constructor]. eexists. split; [vm_compute; reflexivity|].
    repeat constructor.
  - intros cost. unfold well_formed, fixed_auction. split; [|split].
    + simpl. lia.
    + constructor; [right; simpl; lia|constructor].
    + apply NoDup_singleton.
Defined.

Lemma distance_score_never_rises_witness :
  (distance_score 1 3 <= distance_score 1 0 /\ 0 < distance_score 1 3 <= 1)%R.
Proof. apply (distance_score_never_rises 1 0 3); lra. Defined.

(** Two frames on the small camera, as in [locate_moving_point]. *)
Definition sample_scene : Locator :=
  update (Some [mkPoint3f 5 5 5]) (update (Some [mkPoint3f 10 10 10]) sample_locator).

Definition sample_clustered : Locator := cluster (fun _ => [[0]]) sample_scene.


Lemma cluster_index_points_into_cloud_witness :
  (0 <= 1 < image_height_zoomed_ (params sample_scene)) /\
  (0 <= 1 < image_width_zoomed_ (params sample_scene)) /\
  iszero (diff_depth_image_ sample_scene 1 1) = false /\
  0 <= 0 /\
  cloud_foreground_ sample_clustered !! Z.to_nat 0 =
    Some (pixel_point (params sample_scene) (diff_depth_image_ sample_scene) 1 1) /\
  (forall u' v', point_index_map_ sample_clustered !! (u', v') = Some 0 ->
                 u' = 1 /\ v' = 1).
Proof.
  apply (cluster_index_points_into_cloud (fun _ => [[0]]) sample_scene 1 1 0).
  vm_compute. reflexivity.
Defined.


(** Five points in front of a flat background, on the small camera: two
    in cluster 0, one in cluster 1 and two that the extraction left out. *)
Definition busy_scene : Locator :=
  update (Some [mkPoint3f 5 0 5; mkPoint3f 10 0 5; mkPoint3f 5 5 5;
                mkPoint3f 10 5 5; mkPoint3f 15 5 5])
         (update (Some [mkPoint3f 10 0 10; mkPoint3f 20 0 10; mkPoint3f 10 10 10;
                        mkPoint3f 20 10 10; mkPoint3f 30 10 10])
                 sample_locator).

Definition busy_clustered : Locator := cluster (fun _ => [[0; 1]; [4]]) busy_scene.

Definition whole_image_robot : Robot := Robot_new (Detection.mk 0 0 4 4 0 1) [].

Lemma busy_scene_foreground :
  exists v u,
    (v, u) ∈ rect_pixels (zoom (params busy_clustered)
                               (Rect_of_Rect2f (mkRect2f 0 0 4 4))) /\
    iszero (diff_depth_image_ busy_clustered v u) = false.
Proof.
  exists 1, 1. split; [|vm_compute; reflexivity].
  apply elem_of_rect_pixels. vm_compute. repeat split; discriminate.
Qed.

Lemma search_locates_on_foreground_witness :
  search busy_clustered whole_image_robot =
    Returns (mkRobot (Some (mkRect2f 0 0 4 4)) None None None
                     (Some (mkPoint3f (60 # 8) (40 # 8) (40 # 8))) None) /\
  exists points,
    search busy_clustered whole_image_robot =
      Returns (mkRobot (rect_ whole_image_robot) (label_ whole_image_robot)
                       (confidence_ whole_image_robot) (armors_ whole_image_robot)
                       (Some (lidarToWorld (params busy_clustered)
                                (mkPoint3f
                                   (Qsum (map px points) /
                                    inject_Z (Z.of_nat (length points)))
                                   (Qsum (map py points) /
                                    inject_Z (Z.of_nat (length points)))
                                   (Qsum (map pz points) /
                                    inject_Z (Z.of_nat (length points))))))
                       (track_state_ whole_image_robot)) /\
    points <> [] /\
    forall point, point ∈ points ->
      exists v u,
        (v, u) ∈ rect_pixels (zoom (params busy_clustered)
                                   (Rect_of_Rect2f (mkRect2f 0 0 4 4))) /\
        iszero (diff_depth_image_ busy_clustered v u) = false /\
        point = cameraToLidar (params busy_clustered)
                  (mkPoint3f (inject_Z u) (inject_Z v)
                             (diff_depth_image_ busy_clustered v u)).
Proof.
  split; [vm_compute; reflexivity|].
  apply (search_locates_on_foreground busy_clustered whole_image_robot
           (mkRect2f 0 0 4 4)).
  - apply cluster_index_complete.
  - reflexivity.
  - exact busy_scene_foreground.
Defined.

Lemma search_takes_largest_cluster_witness :
  cluster_points busy_clustered (mkRect 0 0 4 4) (-1) =
    [mkPoint3f 5 5 5; mkPoint3f 10 5 5] /\
  cluster_points busy_clustered (mkRect 0 0 4 4) 0 =
    [mkPoint3f 5 0 5; mkPoint3f 10 0 5] /\
  cluster_points busy_clustered (mkRect 0 0 4 4) 1 = [mkPoint3f 15 5 5] /\
  exists c,
    search busy_clustered whole_image_robot =
      Returns (mkRobot (rect_ whole_image_robot) (label_ whole_image_robot)
                       (confidence_ whole_image_robot) (armors_ whole_image_robot)
                       (Some (lidarToWorld (params busy_clustered)
                                (mean_point
                                   (cluster_points busy_clustered
                                      (zoom (params busy_clustered)
                                            (Rect_of_Rect2f (mkRect2f 0 0 4 4))) c))))
                       (track_state_ whole_image_robot)) /\
    cluster_points busy_clustered
      (zoom (params busy_clustered) (Rect_of_Rect2f (mkRect2f 0 0 4 4))) c <> [] /\
    forall c',
      (length (cluster_points busy_clustered
                 (zoom (params busy_clustered) (Rect_of_Rect2f (mkRect2f 0 0 4 4))) c') <=
       length (cluster_points busy_clustered
                 (zoom (params busy_clustered) (Rect_of_Rect2f (mkRect2f 0 0 4 4))) c))%nat /\
      (length (cluster_points busy_clustered
                 (zoom (params busy_clustered) (Rect_of_Rect2f (mkRect2f 0 0 4 4))) c') =
       length (cluster_points busy_clustered
                 (zoom (params busy_clustered) (Rect_of_Rect2f (mkRect2f 0 0 4 4))) c) ->
       c <= c').
Proof.
  split; [vm_compute; reflexivity|]. split; [vm_compute; reflexivity|].
  split; [vm_compute; reflexivity|].
  apply (search_takes_largest_cluster busy_clustered whole_image_robot
           (mkRect2f 0 0 4 4)).
  - apply cluster_index_complete.
  - reflexivity.
  - exact busy_scene_foreground.
Defined.

Lemma cluster_id_is_first_cluster_witness :
  exists (i : nat) cl,
    0 = Z.of_nat i /\ [[0; 1]; [1; 2]] !! i = Some cl /\ 1 ∈ cl /\
    forall (i' : nat) cl', (i' < i)%nat -> [[0; 1]; [1; 2]] !! i' = Some cl' -> 1 ∉ cl'.
Proof.
  apply (cluster_id_is_first_cluster [[0; 1]; [1; 2]] 1 0).
  vm_compute. reflexivity.
Defined.

(** A camera turned a quarter about the vertical axis and moved one unit,
    and a world frame five units below the camera. *)
Definition turned : Matx :=
  [[0; -1; 0; 1]; [1; 0; 0; 0]; [0; 0; 1; 0]; [0; 0; 0; 1]]%Q.
Definition turned_back : Matx :=
  [[0; 1; 0; 0]; [-1; 0; 0; 1]; [0; 0; 1; 0]; [0; 0; 0; 1]]%Q.
Definition lowered : Matx :=
  [[1; 0; 0; 0]; [0; 1; 0; 0]; [0; 0; 1; -5]; [0; 0; 0; 1]]%Q.
Definition lifted : Matx :=
  [[1; 0; 0; 0]; [0; 1; 0; 0]; [0; 0; 1; 5]; [0; 0; 0; 1]]%Q.
Definition sample_intrinsic : Matx := [[2; 0; 1]; [0; 2; 1]; [0; 0; 1]]%Q.
Definition sample_intrinsic_inv : Matx :=
  [[1#2; 0; -(1#2)]; [0; 1#2; -(1#2)]; [0; 0; 1]]%Q.

(** The inverses of the three matrices above. *)
Definition sample_inv (m : Matx) : Matx :=
  match m with
  | [[_; _; _; a]; _; _; _] => if Qeq_bool a 1 then turned_back else lifted
  | _ => sample_intrinsic_inv
  end.

Definition turned_params : Params :=
  constructed sample_inv Mat_zero Mat_zero Mat_zero 4 4 sample_intrinsic turned lowered
              1 2 (1#2) 40 100.

Lemma back_projection_is_off_by_rotated_translation_witness :
  Point3f_eq (cameraToLidar turned_params (lidarToCamera turned_params (mkPoint3f 1 2 3)))
             (mkPoint3f 2 1 3).
Proof.
  refine (back_projection_is_off_by_rotated_translation
            sample_inv Mat_zero Mat_zero Mat_zero 4 4 sample_intrinsic turned lowered
            1 2 (1#2) 40 100 (mkPoint3f 1 2 3) _ _ _ _ _ _ _ _ _).
  - split; [reflexivity|repeat constructor].
  - split; [reflexivity|repeat constructor].
  - split; [reflexivity|repeat constructor].
  - split; [reflexivity|repeat constructor].
  - repeat constructor.
  - repeat constructor.
  - repeat constructor.
  - intros Habs. discriminate Habs.
  - intros Habs. vm_compute in Habs. discriminate Habs.
Defined.

Lemma lidarToWorld_agrees_in_camera_frame_witness :
  lidarToWorld turned_params (mkPoint3f 1 2 3) = mkPoint3f (-1) 1 8 /\
  Forall2 Qeq (mat_vec lowered [-1; 1; 8; 1]%Q) (mat_vec turned [1; 2; 3; 1]%Q).
Proof.
  split; [vm_compute; reflexivity|].
  refine (lidarToWorld_agrees_in_camera_frame
            sample_inv Mat_zero Mat_zero Mat_zero 4 4 sample_intrinsic turned lowered
            1 2 (1#2) 40 100 (mkPoint3f 1 2 3) _ _ _ _ _ _).
  - split; [reflexivity|repeat constructor].
  - split; [reflexivity|repeat constructor].
  - split; [reflexivity|repeat constructor].
  - repeat constructor.
  - repeat constructor.
  - repeat constructor.
Defined.

Lemma label_is_largest_feature_entry_witness :
  exists l v,
    label_ (Robot_new sample_car [sample_armor 1 (1#2); sample_armor 0 (1#4)]) = Some l /\
    (0 <= l < 3) /\
    feature 3 (Robot_new sample_car [sample_armor 1 (1#2); sample_armor 0 (1#4)]) =
      Returns v /\
    forall i, (0 <= i < 3) -> (entry v (Z.to_nat i) <= entry v (Z.to_nat l))%Q.
Proof.
  apply (label_is_largest_feature_entry sample_car
           [sample_armor 1 (1#2); sample_armor 0 (1#4)] 3).
  - discriminate.
  - intros a [<-|[<-|[]]]; simpl; lia.
  - intros a [<-|[<-|[]]]; simpl; discriminate.
Defined.

Lemma confidence_within_armor_bounds_witness :
  exists c,
    confidence_ (Robot_new sample_car [sample_armor 1 (1#2); sample_armor 0 (1#4)]) =
      Some c /\ (0 <= c)%Q /\ (c <= 1)%Q.
Proof.
  apply (confidence_within_armor_bounds sample_car
           [sample_armor 1 (1#2); sample_armor 0 (1#4)] 0 1).
  - discriminate.
  - intros a [<-|[<-|[]]]; simpl; split; discriminate.
Defined.

Lemma legacy_track_dies_after_max_age_witness :
  LegacyTrack.state
    (Nat.iter 3 legacy_miss (LegacyTrack.update (LegacyTrack.mk 2 5 1 Confirmed 3 2))) =
  Deleted.
Proof.
  apply (legacy_track_dies_after_max_age (LegacyTrack.mk 2 5 1 Confirmed 3 2) 3).
  - reflexivity.
  - simpl. lia.
Defined.
End WorkedInstances.
